(** * Momentum detection of [momentum_events.py], embedded in Rocq

    A shallow embedding of the per-game functions of
    [src/python/momentum_events.py]:
    [calculateExplosiveness], [findGameMomentumEvents] and
    [calculateIntervalExplosivenessCategorical].

    Conventions of the embedding.
    - Event clocks are the floats produced upstream; they are modelled as
      exact rationals ([Q]).  Scores are integers ([Z]) after [astype(int)].
    - A float that results from a division is an [fval]: a rational, one of
      the two infinities, or NaN (the missing value of pandas).  The quotient
      of one division is held exactly.  The mean of a group of such values,
      which adds rounded numbers, is computed in binary64 on the floats the
      code holds ([agg_mean]).
    - A pandas Series indexed by time is an association list, in index order.
    - An exception raised by the Python code is [Raises]; a [while] loop that
      has not finished within the given number of iterations is [Diverges]. *)

From Stdlib Require Import ZArith QArith Qround Qabs List Sorted String Bool Lia Lqa.
From Stdlib Require PrimFloat SpecFloat FloatOps.
Import ListNotations.

Local Open Scope Z_scope.

(** ** Floats *)

Inductive fval : Type :=
| NaN
| NInf
| PInf
| Fin (q : Q).

(** [num / den] as pandas computes it on numeric columns: no exception on a
    zero divisor, the quotient is an infinity of the sign of the numerator,
    or NaN for [0 / 0]. *)
Definition fdiv (num den : Q) : fval :=
  if Qeq_bool den 0 then
    match Qcompare num 0 with
    | Eq => NaN
    | Lt => NInf
    | Gt => PInf
    end
  else Fin (Qred (num / den)).

(** [abs(x) >= thr] for a finite threshold; false on NaN. *)
Definition abs_ge (x : fval) (thr : Q) : bool :=
  match x with
  | NaN => false
  | NInf | PInf => true
  | Fin q => Qle_bool thr (Qabs q)
  end.

(** [x < 0]; false on NaN. *)
Definition lt0 (x : fval) : bool :=
  match x with
  | NaN | PInf => false
  | NInf => true
  | Fin q => match Qcompare q 0 with Lt => true | _ => false end
  end.

(** [x <= y] on floats; false as soon as one side is NaN. *)
Definition fleb (x y : fval) : bool :=
  match x, y with
  | NaN, _ | _, NaN => false
  | NInf, _ => true
  | _, PInf => true
  | Fin a, Fin b => Qle_bool a b
  | _, _ => false
  end.



(** [int(x)] of a float: truncation towards zero. *)
Definition py_int (q : Q) : Z := Z.quot (Qnum q) (Zpos (Qden q)).

(** [range(a, b + 1)]. *)
Definition range_incl (a b : Z) : list Z :=
  map (fun i => a + Z.of_nat i) (seq 0 (Z.to_nat (b + 1 - a))).

(** ** Outcomes *)

Inductive outcome (A : Type) : Type :=
| Returns (a : A)
| Raises
| Diverges.
Arguments Returns {A} a.
Arguments Raises {A}.
Arguments Diverges {A}.

(** ** The play-by-play table *)

Record Event : Type := mkEvent {
  gameid : Z;
  eventClock : Q;
  scoreHome : Z;
  scoreAway : Z
}.

(** The DataFrame handed to the functions: its rows with the columns the
    functions read, and the column ['score_diff'], absent ([None]) until some
    function assigns it. *)
Record PbpFrame : Type := mkFrame {
  rows : list Event;
  score_diff : option (list Z)
}.

Definition diff_of (e : Event) : Z := scoreHome e - scoreAway e.

(** [pbpGameData['eventClock'].max()]: NaN ([None]) on an empty column. *)
Definition clock_max (es : list Event) : option Q :=
  match es with
  | [] => None
  | e :: es' =>
      Some (fold_left (fun m x => if Qle_bool m (eventClock x) then eventClock x else m)
                      es' (eventClock e))
  end.

(** ** Sorted grouping *)

Section Grouping.
Context {K A : Type}.
Variable cmp : K -> K -> comparison.

(** Adds row [a] under key [k] to groups kept in increasing key order; the
    rows of a group stay in the order of the table. *)
Fixpoint group_insert (k : K) (a : A) (gs : list (K * list A)) : list (K * list A) :=
  match gs with
  | [] => [(k, [a])]
  | (k', g) :: gs' =>
      match cmp k k' with
      | Lt => (k, [a]) :: (k', g) :: gs'
      | Eq => (k', g ++ [a]) :: gs'
      | Gt => (k', g) :: group_insert k a gs'
      end
  end.

(** [df.groupby(key)]: one group per distinct key, keys ascending. *)
Definition groupby (key : A -> K) (l : list A) : list (K * list A) :=
  fold_left (fun gs a => group_insert (key a) a gs) l [].

(** The strict order the comparison decides. *)
Definition key_lt (a b : K) : Prop := cmp a b = Lt.
End Grouping.

(** ** calculateExplosiveness *)

Definition Series : Type := list (Z * fval).

(** [latestScores]: per distinct event clock, ascending, the score
    differential of the last row at that clock. *)
Definition latestScores (es : list Event) : list (Q * Z) :=
  map (fun kg => (fst kg, last (map diff_of (snd kg)) 0))
      (groupby Qcompare eventClock es).

(** [latestScores[latestScores.index < start_time].iloc[-1]], or 0 when that
    selection is empty. *)
Definition scoreDiffStart (ls : list (Q * Z)) (start_time : Z) : Z :=
  last (map snd (filter (fun kv => match Qcompare (fst kv) (inject_Z start_time) with
                                   | Lt => true | _ => false end) ls)) 0.

(** One entry of [latestScores.reindex(time_range, method='ffill')]: the
    value at the last index at or before [t]; missing when there is none. *)
Definition ffill (ls : list (Q * Z)) (t : Z) : option Z :=
  last (map (fun kv => Some (snd kv))
            (filter (fun kv => Qle_bool (fst kv) (inject_Z t)) ls)) None.

(** [(scoreDiffs - scoreDiffStart) / (scoreDiffs.index - start_time)] at
    index [t]. *)
Definition intensity_at (ls : list (Q * Z)) (ref start_time t : Z) : fval :=
  match ffill ls t with
  | None => NaN
  | Some v => fdiv (inject_Z (v - ref)) (inject_Z (t - start_time))
  end.

Definition time_range (es_max : Q) (start_time time_min time_max : Z) : list Z :=
  range_incl (start_time + time_min)
             (Z.min (start_time + time_max) (py_int es_max)).

(** The series returned by [calculateExplosiveness], as a function of the
    rows of the table. [None] is the [ValueError] of [int(NaN)] on a table
    without rows. *)
Definition explosiveness (es : list Event) (start_time time_min time_max : Z)
  : option Series :=
  match clock_max es with
  | None => None
  | Some m =>
      let ls := latestScores es in
      let ref := scoreDiffStart ls start_time in
      Some (map (fun t => (t, intensity_at ls ref start_time t))
                (time_range m start_time time_min time_max))
  end.

(** [calculateExplosiveness(pbpGameData, startTime, time_min, time_max)]:
    the call assigns the column ['score_diff'] of the table it was given and
    returns the series; the table after the call is the first component. *)
Definition calculateExplosiveness (df : PbpFrame) (startTime time_min time_max : Z)
  : option (PbpFrame * Series) :=
  match clock_max (rows df) with
  | None => None
  | Some _ =>
      let df' := mkFrame (rows df) (Some (map diff_of (rows df))) in
      match explosiveness (rows df') startTime time_min time_max with
      | None => None
      | Some s => Some (df', s)
      end
  end.

(** ** findGameMomentumEvents: the per-second scan *)

(** One dictionary appended to [momentumEvents]. *)
Record RawRecord : Type := mkRaw {
  game_id : Z;
  build_up_start_time : Z;
  momentum_start_time : option Z;
  end_time : Z;
  intensity : fval;
  home_or_away : string
}.

Inductive Direction : Type := Negative | Positive.

Definition direction_eqb (a b : Direction) : bool :=
  match a, b with
  | Negative, Negative | Positive, Positive => true
  | _, _ => false
  end.

(** ['negative' if intensity < 0 else 'positive']. *)
Definition direction_of (x : fval) : Direction :=
  if lt0 x then Negative else Positive.

(** ['Away Momentum' if intensity < 0 else 'Home Momentum']. *)
Definition side_of (x : fval) : string :=
  if lt0 x then "Away Momentum"%string else "Home Momentum"%string.

(** [intensities[abs(intensities) >= explosivenessThreshold]]. *)
Definition significant (thr : Q) (s : Series) : Series :=
  filter (fun ti => abs_ge (snd ti) thr) s.

(** The variables the [for] loop over the significant samples reads and
    assigns. *)
Record WalkState : Type := mkWalk {
  w_current_time : Z;
  w_momentumStartTime : option Z;
  w_momentum_direction : Direction;
  w_firstSignificant_time : Z;
  w_momentumEvents : list RawRecord
}.

(** The [for moment_time, intensity in significantMomentumIntervals.items()]
    loop, lines 98 to 132.  The record appended is the same on both paths; on
    a reversal the loop assigns [current_time = moment_time] and breaks. *)
Fixpoint walk (gid time_min : Z) (items : Series) (st : WalkState) : WalkState :=
  match items with
  | [] => st
  | (moment_time, x) :: rest =>
      let current_direction := direction_of x in
      let momentumStartTime :=
        match w_momentumStartTime st with
        | None =>
            if (time_min <=? moment_time - w_current_time st)
               && direction_eqb current_direction (w_momentum_direction st)
            then Some moment_time else None
        | Some m => Some m
        end in
      let rec := mkRaw gid (w_current_time st) momentumStartTime moment_time x
                       (side_of x) in
      if (1 <? moment_time - w_firstSignificant_time st)
         && negb (direction_eqb current_direction (w_momentum_direction st))
      then mkWalk moment_time momentumStartTime (w_momentum_direction st)
                  (w_firstSignificant_time st) (w_momentumEvents st ++ [rec])
      else walk gid time_min rest
                (mkWalk (w_current_time st) momentumStartTime current_direction
                        moment_time (w_momentumEvents st ++ [rec]))
  end.

(** The variables of the [while] loop. *)
Record ScanState : Type := mkScan {
  s_frame : PbpFrame;
  current_time : Z;
  momentumEvents : list RawRecord
}.

(** The state right after the [for] loop of one iteration, before line 135,
    when the iteration found significant samples. *)
Definition after_walk (gid time_min : Z) (sig : Series) (st : ScanState) : WalkState :=
  match sig with
  | [] => mkWalk (current_time st) None Positive 0 (momentumEvents st)
  | (t0, x0) :: _ =>
      walk gid time_min sig
           (mkWalk (current_time st) None (direction_of x0) t0 (momentumEvents st))
  end.

(** One iteration of the [while] loop, lines 84 to 138.  Line 135 is at the
    indentation of the [for] statement, so it runs after the loop whether the
    loop was left by [break] or not: it assigns [current_time] from the last
    significant index. *)
Definition loop_body (gid : Z) (thr : Q) (time_min time_max : Z) (st : ScanState)
  : option ScanState :=
  match calculateExplosiveness (s_frame st) (current_time st) time_min time_max with
  | None => None
  | Some (df', intensities) =>
      let sig := significant thr intensities in
      match sig with
      | [] => Some (mkScan df' (current_time st + 1) (momentumEvents st))
      | _ :: _ =>
          let w := after_walk gid time_min sig st in
          Some (mkScan df' (fst (last sig (0, NaN)) + 1) (w_momentumEvents w))
      end
  end.

(** [while current_time <= game_duration], run for at most [fuel]
    iterations. *)
Fixpoint scan (fuel : nat) (gid game_duration : Z) (thr : Q) (time_min time_max : Z)
  (st : ScanState) : outcome ScanState :=
  if current_time st <=? game_duration then
    match fuel with
    | O => Diverges
    | S fuel' =>
        match loop_body gid thr time_min time_max st with
        | None => Raises
        | Some st' => scan fuel' gid game_duration thr time_min time_max st'
        end
    end
  else Returns st.

(** [int(max(max_event_time, 2880))]. *)
Definition game_duration_of (max_event_time : Q) : Z :=
  py_int (if Qle_bool max_event_time 2880 then 2880%Q else max_event_time).

(** [pbpGameData['gameid'].max()]. *)
Definition gameid_max (es : list Event) : Z :=
  match es with
  | [] => 0
  | e :: es' => fold_left (fun m x => Z.max m (gameid x)) es' (gameid e)
  end.

(** Lines 74 to 138: the raw records of a game, with the final loop state. *)
Definition detect (fuel : nat) (df : PbpFrame) (thr : Q) (time_min time_max : Z)
  : outcome ScanState :=
  match clock_max (rows df) with
  | None => Raises
  | Some m =>
      scan fuel (gameid_max (rows df)) (game_duration_of m) thr time_min time_max
           (mkScan df 1 [])
  end.

(** ** findGameMomentumEvents: the aggregation *)

(** A row of the aggregated table.  The two peaks are intensities of
    records of the group and are held, like these, as exact quotients.  The
    average is the result of binary64 additions and of a division, and is
    held as the value of the float the code computes; the float the code
    holds for a peak [x] is [f64_of_fval x]. *)
Record Episode : Type := mkEpisode {
  ep_game_id : Z;
  ep_build_up_start_time : Z;
  ep_momentum_start_time : option Z;
  ep_end_time : Z;
  ep_duration : option Z;
  ep_avg_intensity : fval;
  ep_peak_intensity_max : fval;
  ep_peak_intensity_min : fval;
  ep_home_or_away : string
}.

(** The larger of two floats, a NaN operand being skipped. *)
Definition fmax2 (x y : fval) : fval :=
  match x, y with
  | NaN, _ => y
  | _, NaN => x
  | _, _ => if fleb x y then y else x
  end.

Definition fmin2 (x y : fval) : fval :=
  match x, y with
  | NaN, _ => y
  | _, NaN => x
  | _, _ => if fleb x y then x else y
  end.

Definition is_nan (x : fval) : bool :=
  match x with NaN => true | _ => false end.

(** The aggregation functions ['max'] and ['min'] on a float column:
    missing values are skipped, the result is NaN when nothing is left. *)
Definition agg_max (xs : list fval) : fval := fold_left fmax2 xs NaN.
Definition agg_min (xs : list fval) : fval := fold_left fmin2 xs NaN.

(** The binary64 number nearest to an integer. *)
Definition f64_of_Z (z : Z) : PrimFloat.float :=
  FloatOps.SF2Prim (SpecFloat.binary_normalize FloatOps.prec FloatOps.emax z 0 false).

(** The binary64 number the code holds where the embedding holds [x]: the
    quotient of two integers is the quotient of their floats, rounded to
    nearest. *)
Definition f64_of_fval (x : fval) : PrimFloat.float :=
  match x with
  | NaN => PrimFloat.nan
  | PInf => PrimFloat.infinity
  | NInf => PrimFloat.neg_infinity
  | Fin q => PrimFloat.div (f64_of_Z (Qnum q)) (f64_of_Z (Zpos (Qden q)))
  end.

(** The value of a binary64 number. *)
Definition fval_of_f64 (x : PrimFloat.float) : fval :=
  match FloatOps.Prim2SF x with
  | SpecFloat.S754_nan => NaN
  | SpecFloat.S754_infinity s => if s then NInf else PInf
  | SpecFloat.S754_zero _ => Fin 0
  | SpecFloat.S754_finite s m e =>
      let v := if s then Zneg m else Zpos m in
      Fin (Qred (if 0 <=? e then inject_Z (v * 2 ^ e)
                 else Qmake v (Pos.pow 2 (Z.to_pos (- e)))))
  end.

(** The running sum of the grouped mean of pandas ([group_mean]): the sum,
    the compensation of the rounding errors made so far, and the number of
    values added. *)
Record MeanState : Type := mkMean {
  sumx : PrimFloat.float;
  compensation : PrimFloat.float;
  nobs : nat
}.

(** One value of the group: a missing value is skipped; otherwise the value
    less the compensation is added to the sum, and the new compensation is
    what that addition lost (0 when that is NaN, as after an infinity). *)
Definition mean_add (st : MeanState) (val : PrimFloat.float) : MeanState :=
  if PrimFloat.is_nan val then st
  else
    let y := PrimFloat.sub val (compensation st) in
    let t := PrimFloat.add (sumx st) y in
    let c := PrimFloat.sub (PrimFloat.sub t (sumx st)) y in
    mkMean t (if PrimFloat.is_nan c then PrimFloat.zero else c) (S (nobs st)).

(** ['mean'] on a float column of a group: the compensated sum of the
    values that are not missing, divided by their number, in binary64; NaN
    when nothing is left. *)
Definition f64_mean (xs : list PrimFloat.float) : PrimFloat.float :=
  let st := fold_left mean_add xs (mkMean PrimFloat.zero PrimFloat.zero 0) in
  match nobs st with
  | O => PrimFloat.nan
  | S _ => PrimFloat.div (sumx st) (f64_of_Z (Z.of_nat (nobs st)))
  end.

Definition agg_mean (xs : list fval) : fval :=
  fval_of_f64 (f64_mean (map f64_of_fval xs)).


(** ['min'] on the column of momentum start times, [None] being missing. *)
Definition opt_min (a b : option Z) : option Z :=
  match a, b with
  | None, _ => b
  | _, None => a
  | Some x, Some y => Some (Z.min x y)
  end.

(** ['max'] on a column of strings: the greatest in the order of Python
    strings, which on these labels is the lexicographic order of the
    characters. *)
Definition str_max (a b : string) : string :=
  if String.leb a b then b else a.

(** The row that [groupby('build_up_start_time').agg(...)] makes of one
    group, with the ['duration'] column of line 154. *)
Definition aggregate (key : Z) (g : list RawRecord) : Episode :=
  let ms := fold_left opt_min (map momentum_start_time g) None in
  let en := match map end_time g with
            | [] => 0
            | x :: xs => fold_left Z.max xs x
            end in
  mkEpisode
    (match g with [] => 0 | r :: _ => game_id r end)
    key
    ms
    en
    (match ms with None => None | Some m => Some (en - m) end)
    (agg_mean (map intensity g))
    (agg_max (map intensity g))
    (agg_min (map intensity g))
    (match map home_or_away g with
     | [] => EmptyString
     | x :: xs => fold_left str_max xs x
     end).

(** Lines 140 to 163 on the list of raw records. *)
Definition aggregate_events (evs : list RawRecord) : list Episode :=
  map (fun kg => aggregate (fst kg) (snd kg))
      (groupby Z.compare build_up_start_time evs).

(** [findGameMomentumEvents(pbpGameData, explosivenessThreshold, time_min,
    time_max)]: the table as the call leaves it, and the episodes. *)
Definition findGameMomentumEvents (fuel : nat) (df : PbpFrame) (thr : Q)
  (time_min time_max : Z) : outcome (PbpFrame * list Episode) :=
  match detect fuel df thr time_min time_max with
  | Returns st => Returns (s_frame st, aggregate_events (momentumEvents st))
  | Raises => Raises
  | Diverges => Diverges
  end.

(** ** calculateIntervalExplosivenessCategorical *)

(** [x // w] on floats, for a positive width. *)
Definition floordiv (x : Q) (w : positive) : Z :=
  Qfloor (x / inject_Z (Zpos w)).

(** [x % w == 0] on floats, for a positive width. *)
Definition divides (w : positive) (x : Q) : bool :=
  Qeq_bool (x - inject_Z (Zpos w * floordiv x w)) 0.

(** The columns ['time_window'], ['window_start'] and ['window_end'] of one
    row, lines 189 to 210.  The start and the end are computed from the index
    of line 189; the index itself is then reassigned on the rows at the
    maximal clock when that clock is a multiple of the width (line 196), the
    end is cut at the maximal clock (line 199), and an index of 0 is replaced
    by the first window (lines 206 to 210). *)
Definition window_of (w : positive) (max_event_time : Q) (e : Event) : Z * Q * Q :=
  let tw0 := floordiv (eventClock e - 1) w + 1 in
  let ws0 := (tw0 - 1) * Zpos w in
  let we0 := tw0 * Zpos w in
  let tw1 := if divides w max_event_time && Qeq_bool (eventClock e) max_event_time
             then floordiv max_event_time w else tw0 in
  let we1 := if Qle_bool (inject_Z we0) max_event_time
             then inject_Z we0 else max_event_time in
  if tw1 =? 0 then (1, 0%Q, inject_Z (Zpos w))
  else (tw1, inject_Z ws0, we1).

Definition time_window_of (w : positive) (m : Q) (e : Event) : Z :=
  fst (fst (window_of w m e)).

(** The order of the group keys [(gameid, time_window)]. *)
Definition key_compare (a b : Z * Z) : comparison :=
  match Z.compare (fst a) (fst b) with
  | Eq => Z.compare (snd a) (snd b)
  | c => c
  end.

Definition leQ (a b : Q) : bool := Qle_bool a b.

(** [pd.cut(x, bins, labels)] with the bins and labels of lines 222 and 223:
    intervals closed on the right; a value outside every interval, or a
    missing one, gets no label. *)
Definition cut (x : fval) : option Z :=
  match x with
  | NaN | NInf => None
  | PInf => Some 10
  | Fin q =>
      Some (if leQ q (-8 # 100) then 1
            else if leQ q (-6 # 100) then 2
            else if leQ q (-4 # 100) then 3
            else if leQ q (-2 # 100) then 4
            else if leQ q 0 then 5
            else if leQ q (2 # 100) then 6
            else if leQ q (4 # 100) then 7
            else if leQ q (6 # 100) then 8
            else if leQ q (8 # 100) then 9
            else 10)
  end.

Record IntervalRow : Type := mkInterval {
  iv_gameid : Z;
  iv_time_window : Z;
  momentum_intensity : fval;
  momentum_category : option Z
}.

(** The lambda of line 217 on one group. *)
Definition group_intensity (w : positive) (m : Q) (g : list Event) : fval :=
  match g with
  | [] => NaN
  | e0 :: _ =>
      let '(_, ws, we) := window_of w m e0 in
      fdiv (inject_Z (last (map diff_of g) 0 - diff_of e0)) (we - ws)
  end.

(** [calculateIntervalExplosivenessCategorical(pbpGameData, time_window)]
    for a positive width, on the rows of a table whose row index is the
    default one (the season driver resets it), so that the new columns line
    up with the rows.  The function works on a copy of the table and leaves
    its argument as it was.  What pandas
    returns for a table without rows depends on the version of the library;
    that case is left out ([None]). *)
Definition calculateIntervalExplosivenessCategorical (es : list Event)
  (time_window : positive) : option (list IntervalRow) :=
  match clock_max es with
  | None => None
  | Some m =>
      Some (map (fun kg =>
                   let x := group_intensity time_window m (snd kg) in
                   mkInterval (fst (fst kg)) (snd (fst kg)) x (cut x))
                (groupby key_compare
                         (fun e => (gameid e, time_window_of time_window m e)) es))
  end.

(** ** Games used in the examples *)

(** Home leads by 3 from second 5, the game is level again from second 7,
    Away leads by 3 from second 9; a last event at second 11 leaves the score
    as it is. *)
Definition swing_game : PbpFrame :=
  mkFrame [ mkEvent 1 5 3 0; mkEvent 1 7 3 3; mkEvent 1 9 3 6; mkEvent 1 11 3 6 ]
          None.

(** Two events, in the first and in the fifth window of 120 seconds. *)
Definition sparse_game : list Event :=
  [ mkEvent 1 1 0 0; mkEvent 1 500 2 0 ].

(** A game whose score never moves fast: 2-0 at second 100, 2-2 at second
    400, unchanged at the final second. *)
Definition quiet_game : PbpFrame :=
  mkFrame [ mkEvent 1 100 2 0; mkEvent 1 400 2 2; mkEvent 1 2880 2 2 ] None.


(** Two runs far apart: Home goes up by 3 at second 10, Away scores 4 at
    second 50. *)
Definition two_run_game : PbpFrame :=
  mkFrame [ mkEvent 1 10 3 0; mkEvent 1 50 3 4; mkEvent 1 60 3 4 ] None.

(** No sample evaluated from a cursor in [[lo, hi]] reaches the threshold. *)
Definition never_significant (es : list Event) (thr : Q) (time_min time_max lo hi : Z)
  : bool :=
  forallb (fun c =>
             match explosiveness es c time_min time_max with
             | None => true
             | Some s => forallb (fun tx => negb (abs_ge (snd tx) thr)) s
             end)
          (range_incl lo hi).

(** What the specification says about the side of an episode: the side of
    the record of the group with the greatest end time, the last such record
    when several share it. *)
Definition spec_boundary_record (g : list RawRecord) : option RawRecord :=
  fold_left (fun best r =>
               match best with
               | None => Some r
               | Some b => if end_time b <=? end_time r then Some r else Some b
               end) g None.

(** What the specification says about the evaluation window: it reaches up
    to the game duration. *)
Definition spec_time_range (max_event_time : Q) (cursor time_min time_max : Z)
  : list Z :=
  range_incl (cursor + time_min)
             (Z.min (cursor + time_max) (game_duration_of max_event_time)).


(** ** momentumTeamId and the season drivers *)

(** [momentumTeamId(momentumTeam, home_team_id, away_team_id)]: the function
    falls off its end, returning [None], for any other label. *)
Definition momentumTeamId (momentumTeam : string) (home_team_id away_team_id : Z)
  : option Z :=
  if (momentumTeam =? "Away Momentum")%string then Some away_team_id
  else if (momentumTeam =? "Home Momentum")%string then Some home_team_id
  else None.

(** A row of the processed season table, with the columns the season
    drivers read beside those of [Event]. *)
Record SeasonRow : Type := mkSeasonRow {
  sr_event : Event;
  orderNumber : Z;
  HOME_TEAM_ID : Z;
  AWAY_TEAM_ID : Z
}.

(** [series.unique().tolist()]: the distinct values in order of first
    appearance. *)
Fixpoint unique (l : list Z) : list Z :=
  match l with
  | [] => []
  | x :: l' => x :: filter (fun y => negb (y =? x)) (unique l')
  end.

(** The order of [sort_values(by=['eventClock', 'orderNumber'])]. *)
Definition row_lt (a b : SeasonRow) : bool :=
  match Qcompare (eventClock (sr_event a)) (eventClock (sr_event b)) with
  | Lt => true
  | Eq => orderNumber a <? orderNumber b
  | Gt => false
  end.

(** Insertion of a row before the rows that followed it in the table and
    are not smaller, so that rows with equal keys keep their order. *)
Fixpoint insert_row (x : SeasonRow) (l : list SeasonRow) : list SeasonRow :=
  match l with
  | [] => [x]
  | y :: l' => if row_lt y x then y :: insert_row x l' else x :: y :: l'
  end.

(** [gameData.sort_values(by=['eventClock', 'orderNumber'])
    .reset_index(drop=True)]: a stable sort on the two keys. *)
Definition sort_rows (l : list SeasonRow) : list SeasonRow :=
  fold_right insert_row [] l.

(** [processedPbpSeasonData[processedPbpSeasonData['gameid'] == game]]. *)
Definition game_rows (season : list SeasonRow) (game : Z) : list SeasonRow :=
  filter (fun r => gameid (sr_event r) =? game) season.

(** A row of the season table of episodes: the episode and its
    ['TEAM_ID']. *)
Record SeasonEpisode : Type := mkSeasonEpisode {
  se_episode : Episode;
  TEAM_ID : option Z
}.

(** The [for game in game_ids] loop of [findSeasonMomentumEvents], lines 271
    to 280; [acc] is the list [gameMomentumEvents].  The first case of the
    inner match is the [IndexError] of [unique()[0]] on a game without
    rows, which a game id taken from the table never meets. *)
Fixpoint season_momentum_loop (fuel : nat) (season : list SeasonRow) (thr : Q)
  (time_min time_max : Z) (game_ids : list Z) (acc : list (list SeasonEpisode))
  : outcome (list (list SeasonEpisode)) :=
  match game_ids with
  | [] => Returns acc
  | game :: rest =>
      match game_rows season game with
      | [] => Raises
      | r0 :: _ =>
          let gameData := game_rows season game in
          let home_team_id := HOME_TEAM_ID r0 in
          let away_team_id := AWAY_TEAM_ID r0 in
          let sorted := sort_rows gameData in
          match findGameMomentumEvents fuel (mkFrame (map sr_event sorted) None)
                                       thr time_min time_max with
          | Returns (_, []) =>
              season_momentum_loop fuel season thr time_min time_max rest acc
          | Returns (_, momentumEvents) =>
              season_momentum_loop fuel season thr time_min time_max rest
                (acc ++ [map (fun ep =>
                                mkSeasonEpisode ep
                                  (momentumTeamId (ep_home_or_away ep)
                                                  home_team_id away_team_id))
                             momentumEvents])
          | Raises => Raises
          | Diverges => Diverges
          end
      end
  end.

(** [pd.concat(tables, ignore_index=True)]: a [ValueError] when there is
    no table to concatenate. *)
Definition pd_concat {A : Type} (tables : list (list A)) : outcome (list A) :=
  match tables with
  | [] => Raises
  | _ => Returns (List.concat tables)
  end.

(** [findSeasonMomentumEvents(processedPbpSeasonData,
    explosivenessThreshold, time_min, time_max)]; [fuel] bounds the scan of
    each game. *)
Definition findSeasonMomentumEvents (fuel : nat) (season : list SeasonRow) (thr : Q)
  (time_min time_max : Z) : outcome (list SeasonEpisode) :=
  match season_momentum_loop fuel season thr time_min time_max
          (unique (map (fun r => gameid (sr_event r)) season)) [] with
  | Returns tables => pd_concat tables
  | Raises => Raises
  | Diverges => Diverges
  end.

(** The loop of [seasonIntervalExplosiveness], lines 306 to 310.  A game id
    taken from the table has rows, so the categorizer is never given an
    empty table; that case is [Raises] here. *)
Fixpoint season_interval_loop (season : list SeasonRow) (time_window : positive)
  (game_ids : list Z) (acc : list (list IntervalRow))
  : outcome (list (list IntervalRow)) :=
  match game_ids with
  | [] => Returns acc
  | game :: rest =>
      let sorted := sort_rows (game_rows season game) in
      match calculateIntervalExplosivenessCategorical (map sr_event sorted)
                                                       time_window with
      | None => Raises
      | Some intervalExplosiveness =>
          season_interval_loop season time_window rest
                               (acc ++ [intervalExplosiveness])
      end
  end.

(** [seasonIntervalExplosiveness(processedPbpSeasonData, time_window)] for
    a positive width. *)
Definition seasonIntervalExplosiveness (season : list SeasonRow)
  (time_window : positive) : outcome (list IntervalRow) :=
  match season_interval_loop season time_window
          (unique (map (fun r => gameid (sr_event r)) season)) [] with
  | Returns tables => pd_concat tables
  | Raises => Raises
  | Diverges => Diverges
  end.

(** The quiet game and the swing game (as game 2) as one season table. *)
Definition two_game_season : list SeasonRow :=
  [ mkSeasonRow (mkEvent 1 100 2 0) 1 10 20;
    mkSeasonRow (mkEvent 2 7 3 3) 2 30 40;
    mkSeasonRow (mkEvent 1 2880 2 2) 3 10 20;
    mkSeasonRow (mkEvent 2 5 3 0) 1 30 40;
    mkSeasonRow (mkEvent 1 400 2 2) 2 10 20;
    mkSeasonRow (mkEvent 2 11 3 6) 4 30 40;
    mkSeasonRow (mkEvent 2 9 3 6) 3 30 40 ].

(** The quiet game alone as a season table. *)
Definition quiet_season : list SeasonRow :=
  [ mkSeasonRow (mkEvent 1 100 2 0) 1 10 20;
    mkSeasonRow (mkEvent 1 400 2 2) 2 10 20;
    mkSeasonRow (mkEvent 1 2880 2 2) 3 10 20 ].

(** ** markMomentumEventsInIntervals *)

(** A row of the discretized season table: the two columns the function
    reads. *)
Record FeatureRow : Type := mkFeature {
  fr_gameid : Z;
  fr_time_window : Z
}.

(** The row with the two columns the function assigns,
    ['home_momentum<intensity>'] and ['away_momentum<intensity>']. *)
Record MarkedRow : Type := mkMarked {
  mr_row : FeatureRow;
  home_momentum : Z;
  away_momentum : Z
}.

(** [duration_bucket_thresh] after lines 423 to 426: bound to 60 for an
    intensity of 0.05, to 30 for 0.07, and left unbound ([None]) for any
    other intensity. *)
Definition duration_bucket_thresh (intensity : Q) : option Z :=
  let after_first := if Qeq_bool intensity (5 # 100) then Some 60 else None in
  if Qeq_bool intensity (7 # 100) then Some 30 else after_first.

(** [((t - 1) // time_window) + 1] on a start time that may be missing. *)
Definition start_window_of (w : positive) (ms : option Z) : option Z :=
  match ms with
  | None => None
  | Some t => Some ((t - 1) / Zpos w + 1)
  end.

(** The mask of lines 440 and 443; a missing window matches no row. *)
Definition row_matches (game_id : Z) (start_window : option Z) (r : MarkedRow) : bool :=
  match start_window with
  | None => false
  | Some sw => (fr_gameid (mr_row r) =? game_id) && (fr_time_window (mr_row r) =? sw)
  end.

(** [duration_bucket] after lines 434 to 437: both comparisons are false on
    a missing duration, and the variable keeps what it held. *)
Definition next_bucket (thresh : Z) (duration : option Z) (bucket : option Z)
  : option Z :=
  match duration with
  | None => bucket
  | Some d =>
      let b1 := if d <? thresh then Some 1 else bucket in
      if thresh <=? d then Some 2 else b1
  end.

(** The loop [for _, event in momentumEvents.iterrows()], lines 429 to 445,
    with [duration_bucket_thresh] bound to [thresh].  [bucket] is the local
    variable [duration_bucket], [None] while unbound; reading it unbound is
    the [UnboundLocalError], [None] as a result. *)
Fixpoint mark_loop (w : positive) (thresh : Z) (events : list Episode)
  (bucket : option Z) (rows : list MarkedRow) : option (list MarkedRow) :=
  match events with
  | [] => Some rows
  | event :: rest =>
      let start_window := start_window_of w (ep_momentum_start_time event) in
      let game_id := ep_game_id event in
      let bucket' := next_bucket thresh (ep_duration event) bucket in
      let after_home :=
        if (ep_home_or_away event =? "Home Momentum")%string then
          match bucket' with
          | None => None
          | Some b =>
              Some (map (fun r => if row_matches game_id start_window r
                                  then mkMarked (mr_row r) b (away_momentum r)
                                  else r) rows)
          end
        else Some rows in
      match after_home with
      | None => None
      | Some rows1 =>
          let after_away :=
            if (ep_home_or_away event =? "Away Momentum")%string then
              match bucket' with
              | None => None
              | Some b =>
                  Some (map (fun r => if row_matches game_id start_window r
                                      then mkMarked (mr_row r) (home_momentum r) b
                                      else r) rows1)
              end
            else Some rows1 in
          match after_away with
          | None => None
          | Some rows2 => mark_loop w thresh rest bucket' rows2
          end
      end
  end.

(** [markMomentumEventsInIntervals(discretizedSeasonData, momentumEvents,
    intensity, time_window)] for a positive width: the two columns are set
    to 0 on every row, then the loop runs.  With no episode the loop body,
    and with it the read of [duration_bucket_thresh], never runs. *)
Definition markMomentumEventsInIntervals (data : list FeatureRow)
  (momentumEvents : list Episode) (intensity : Q) (time_window : positive)
  : option (list MarkedRow) :=
  let rows := map (fun r => mkMarked r 0 0) data in
  match momentumEvents with
  | [] => Some rows
  | _ :: _ =>
      match duration_bucket_thresh intensity with
      | None => None
      | Some thresh => mark_loop time_window thresh momentumEvents None rows
      end
  end.

(** The level of an episode: 1 for a duration below the threshold, 2
    otherwise. *)
Definition level_of (thresh : Z) (ev : Episode) : Z :=
  match ep_duration ev with
  | Some d => if d <? thresh then 1 else 2
  | None => 0
  end.

(** The last episode of the table with label [label] that falls on the
    row's game and interval. *)
Definition match_step (w : positive) (label : string) (r : FeatureRow)
  (acc : option Episode) (ev : Episode) : option Episode :=
  if (ep_home_or_away ev =? label)%string
     && row_matches (ep_game_id ev)
                    (start_window_of w (ep_momentum_start_time ev))
                    (mkMarked r 0 0)
  then Some ev else acc.

Definition last_match (w : positive) (label : string) (r : FeatureRow)
  (events : list Episode) : option Episode :=
  fold_left (match_step w label r) events None.

(** The flag a row ends with for one label: the level of the last matching
    episode, or what the row held. *)
Definition final_flag (w : positive) (thresh : Z) (label : string) (r : FeatureRow)
  (events : list Episode) (before : Z) : Z :=
  match last_match w label r events with
  | Some ev => level_of thresh ev
  | None => before
  end.

(** Intervals of game 1 and episodes to mark on them. *)
Definition some_intervals : list FeatureRow :=
  [ mkFeature 1 1; mkFeature 1 2; mkFeature 1 3; mkFeature 2 1 ].

Definition some_episodes : list Episode :=
  [ mkEpisode 1 80 (Some 100) 130 (Some 30) (Fin (1 # 10)) (Fin (1 # 5)) (Fin (1 # 20))
              "Home Momentum";
    mkEpisode 1 200 (Some 230) 300 (Some 70) (Fin (-1 # 10)) (Fin (-1 # 20)) (Fin (-1 # 5))
              "Away Momentum";
    mkEpisode 1 90 (Some 120) 200 (Some 80) (Fin (1 # 10)) (Fin (1 # 5)) (Fin (1 # 20))
              "Home Momentum" ].

(** The score differential of the last row of the table, in table order,
    among the rows that satisfy [p]; [None] when no row does. *)
Definition last_diff_where (p : Event -> bool) (es : list Event) : option Z :=
  last (map (fun e => Some (diff_of e)) (filter p es)) None.

(** Rows at or before second [t], and rows strictly before second [c]. *)
Definition at_or_before (t : Z) (e : Event) : bool :=
  Qle_bool (eventClock e) (inject_Z t).

Definition strictly_before (c : Z) (e : Event) : bool :=
  match Qcompare (eventClock e) (inject_Z c) with Lt => true | _ => false end.

(** ** pbp_data.py: the event clock *)

Module PbpData.

(** [eventClock(pbpRow)], lines 168 to 202, after the two slices of the
    clock string have been read as numbers: [period] is the row's period,
    [periodMinute] is [float(clock[2:4])] and [periodSeconds] is
    [float(clock[5:10])].  The local [eventClock] is assigned by the first
    [if], by the second, or by neither, in which case the [return] raises
    [UnboundLocalError] ([None] here).  Floats are exact rationals. *)
Definition eventClock (period : Z) (periodMinute periodSeconds : Q) : option Q :=
  let eventClock : option Q := None in
  let eventClock :=
    if period <? 5 then
      if Qeq_bool periodMinute 12 then
        Some (inject_Z (period - 1) * 60 * 12)%Q
      else
        Some (inject_Z (period - 1) * 60 * 12 + (12 - periodMinute - 1) * 60
              + (60 - periodSeconds))%Q
    else eventClock in
  let eventClock :=
    if period >? 4 then
      if Qeq_bool periodMinute 5 then
        Some (4 * 12 * 60 + inject_Z (period - 4 - 1) * 60 * 5)%Q
      else
        Some (4 * 12 * 60 + inject_Z (period - 4 - 1) * 60 * 5
              + (5 - periodMinute - 1) * 60 + (60 - periodSeconds))%Q
    else eventClock in
  eventClock.

End PbpData.

(** The minutes of a period: 12 in regulation, 5 in overtime. *)
Definition period_minutes (period : Z) : Q := if period <? 5 then 12%Q else 5%Q.

(** A clock reading of a period: seconds between 0 and 60, and either the
    full period on the clock or fewer whole minutes than the period has. *)
Definition clock_reading (period : Z) (periodMinute periodSeconds : Q) : Prop :=
  (0 <= periodSeconds /\ periodSeconds <= 60 /\
   (periodMinute == period_minutes period \/
    0 <= periodMinute /\ periodMinute <= period_minutes period - 1))%Q.

(** Elapsed seconds at the start and at the end of a period. *)
Definition period_start (period : Z) : Q :=
  (if period <? 5 then (inject_Z period - 1) * 720
   else 2880 + (inject_Z period - 5) * 300)%Q.

Definition period_end (period : Z) : Q :=
  (if period <? 5 then inject_Z period * 720
   else 2880 + (inject_Z period - 4) * 300)%Q.

(** ** pbp_data.py: retrying a request *)

(** What one call of the wrapped function does: it returns a value, raises
    [requests.exceptions.RequestException], or raises something else. *)
Inductive call_result (A : Type) : Type :=
| Returned (a : A)
| RaisedRequestException
| RaisedOther.

Arguments Returned {A} a.
Arguments RaisedRequestException {A}.
Arguments RaisedOther {A}.

(** What the wrapper has done beside computing its result: the calls of the
    wrapped function and the seconds spent in [time.sleep]. *)
Record RetryLog : Type := mkRetryLog {
  calls : nat;
  slept : Z
}.

(** The [while attempts < retries] loop of [retryWrapper], lines 28 to 36.
    The wrapped function is given by the result of each of its successive
    calls, [func k] for call number [k].  The value returned is [Some v]
    for [return func(...)] and [None] when the loop ends and the function
    falls off its end. *)
Fixpoint retry_loop {A : Type} (fuel : nat) (func : nat -> call_result A)
  (retries attempts : Z) (log : RetryLog) : outcome (option A) * RetryLog :=
  match fuel with
  | O => (Diverges, log)
  | S fuel' =>
      if attempts <? retries then
        match func (calls log) with
        | Returned v => (Returns (Some v), mkRetryLog (S (calls log)) (slept log))
        | RaisedRequestException =>
            retry_loop fuel' func retries (attempts + 1)
                       (mkRetryLog (S (calls log)) (slept log + 30))
        | RaisedOther => (Raises, mkRetryLog (S (calls log)) (slept log))
        end
      else (Returns None, log)
  end.

(** [retry(func, retries)(...)]. *)
Definition retryWrapper {A : Type} (fuel : nat) (func : nat -> call_result A)
  (retries : Z) : outcome (option A) * RetryLog :=
  retry_loop fuel func retries 0 (mkRetryLog 0 0).

(** * Properties *)

(** ** Ranges and integers *)

Lemma In_range_incl (a b t : Z) : In t (range_incl a b) <-> a <= t <= b.
Proof.
  unfold range_incl. rewrite in_map_iff. split.
  - intros (i & <- & Hi). apply in_seq in Hi. lia.
  - intros H. exists (Z.to_nat (t - a)). split; [lia|].
    apply in_seq. lia.
Qed.

Lemma py_int_le_bound (q : Q) (n : Z) : (q <= inject_Z n)%Q -> py_int q <= n.
Proof.
  unfold Qle, py_int, inject_Z. simpl. intros H.
  apply Z.quot_le_upper_bound; lia.
Qed.

Lemma py_int_inject (n : Z) : py_int (inject_Z n) = n.
Proof. unfold py_int, inject_Z. simpl. apply Z.quot_1_r. Qed.

Lemma py_int_le_game_duration (m : Q) :
  py_int m <= game_duration_of m /\ 2880 <= game_duration_of m.
Proof.
  unfold game_duration_of. destruct (Qle_bool m 2880) eqn:E.
  - apply Qle_bool_iff in E. split.
    + change (py_int 2880) with 2880. now apply (py_int_le_bound m 2880).
    + now vm_compute.
  - split; [lia|].
    assert (H : (2880 < m)%Q).
    { apply Qnot_le_lt. intro C. apply Qle_bool_iff in C. congruence. }
    unfold Qlt, py_int in *. simpl in *.
    apply Z.quot_le_lower_bound; lia.
Qed.

(** ** The evaluator *)

Lemma clock_max_some (es : list Event) : es <> [] -> exists m, clock_max es = Some m.
Proof. destruct es; [congruence|]. intros _. simpl. eauto. Qed.

Lemma explosiveness_times (es : list Event) (m : Q) (c tmin tmax : Z) (s : Series) :
  clock_max es = Some m ->
  explosiveness es c tmin tmax = Some s ->
  map fst s = time_range m c tmin tmax.
Proof.
  unfold explosiveness. intros -> [= <-].
  rewrite map_map. simpl. apply map_id.
Qed.

Lemma calculateExplosiveness_spec (df : PbpFrame) (c tmin tmax : Z) :
  calculateExplosiveness df c tmin tmax =
  match explosiveness (rows df) c tmin tmax with
  | None => None
  | Some s => Some (mkFrame (rows df) (Some (map diff_of (rows df))), s)
  end.
Proof.
  unfold calculateExplosiveness, explosiveness. simpl.
  destruct (clock_max (rows df)); reflexivity.
Qed.

Lemma explosiveness_total (es : list Event) (c tmin tmax : Z) :
  es <> [] -> exists s, explosiveness es c tmin tmax = Some s.
Proof.
  intros H. destruct (clock_max_some es H) as [m Hm].
  unfold explosiveness. rewrite Hm. eauto.
Qed.

Lemma explosiveness_In_range (es : list Event) (c tmin tmax : Z) (s : Series) t x :
  explosiveness es c tmin tmax = Some s -> In (t, x) s ->
  c + tmin <= t <= c + tmax.
Proof.
  unfold explosiveness. destruct (clock_max es) as [m|]; [|discriminate].
  intros [= <-] H. apply in_map_iff in H as (t' & [= <- <-] & Ht).
  apply In_range_incl in Ht. lia.
Qed.

(** ** Grouping *)

Section GroupingFacts.
Context {K A : Type}.
Variable cmp : K -> K -> comparison.
Variable key : A -> K.

Lemma group_insert_In (k : K) (a : A) gs k' g' :
  In (k', g') (group_insert cmp k a gs) ->
  (k' = k /\ g' = [a]) \/
  (exists g, In (k', g) gs /\ (g' = g \/ (g' = g ++ [a] /\ cmp k k' = Eq))).
Proof.
  induction gs as [|[k0 g0] gs IH]; simpl.
  - intros [[= <- <-]|[]]. now left.
  - destruct (cmp k k0) eqn:E; simpl.
    + intros [[= <- <-]|H].
      * right. exists g0. split; [now left|]. right. now split.
      * right. exists g'. split; [now right|now left].
    + intros [[= <- <-]|[[= <- <-]|H]].
      * now left.
      * right. exists g0. split; [now left|now left].
      * right. exists g'. split; [now right|now left].
    + intros [[= <- <-]|H].
      * right. exists g0. split; [now left|now left].
      * destruct (IH H) as [?|(g & Hg & Hc)]; [now left|].
        right. exists g. split; [now right|exact Hc].
Qed.

(** Every group is made of rows of the table, in one key class, and holds
    a row. *)
Lemma groupby_sound (l : list A) k g :
  In (k, g) (groupby cmp key l) ->
  g <> [] /\ (exists a, In a l /\ key a = k) /\
  forall r, In r g -> In r l /\ (key r = k \/ cmp (key r) k = Eq).
Proof.
  unfold groupby. revert k g. induction l as [|a l IH] using rev_ind; simpl.
  - intros k g [].
  - intros k g. rewrite fold_left_app. simpl. intros H.
    apply group_insert_In in H as [[-> ->]|(g0 & H0 & Hg)].
    + split; [discriminate|]. split.
      * exists a. split; [apply in_or_app; right; now left|reflexivity].
      * intros r [<-|[]]. split; [apply in_or_app; right; now left|now left].
    + destruct (IH _ _ H0) as (Hne & (a0 & Ha0 & Hk0) & Hall).
      split; [|split].
      * destruct Hg as [->|[-> _]]; [exact Hne|].
        destruct g0; discriminate.
      * exists a0. split; [apply in_or_app; now left|exact Hk0].
      * intros r Hr. destruct Hg as [->|[-> Hc]].
        -- destruct (Hall r Hr). split; [apply in_or_app; now left|assumption].
        -- apply in_app_or in Hr as [Hr|[<-|[]]].
           ++ destruct (Hall r Hr). split; [apply in_or_app; now left|assumption].
           ++ split; [apply in_or_app; right; now left|now right].
Qed.
End GroupingFacts.

Lemma filter_all_false {A : Type} (f : A -> bool) (l : list A) :
  (forall a, In a l -> f a = false) -> filter f l = [].
Proof.
  induction l as [|a l IH]; simpl; [reflexivity|].
  intros H. rewrite (H a (or_introl eq_refl)). apply IH.
  intros b Hb. apply H. now right.
Qed.

(** ** A group holds every row of its key, in the order of the table *)

Section GroupingWhole.
Context {K A : Type}.
Variable cmp : K -> K -> comparison.
Variable key : A -> K.
Hypothesis cmp_eq : forall a b, cmp a b = Eq -> a = b.
Hypothesis cmp_refl : forall a, cmp a a = Eq.
Hypothesis cmp_gt_lt : forall a b, cmp a b = Gt -> cmp b a = Lt.
Hypothesis cmp_lt_trans : forall a b c, cmp a b = Lt -> cmp b c = Lt -> cmp a c = Lt.

Lemma key_lt_neq (a b : K) : key_lt cmp a b -> a <> b.
Proof. unfold key_lt. intros H ->. rewrite cmp_refl in H. discriminate. Qed.

Lemma group_insert_keys (k : K) (a : A) (gs : list (K * list A)) (k' : K) :
  In k' (map fst (group_insert cmp k a gs)) <-> k' = k \/ In k' (map fst gs).
Proof.
  induction gs as [|[k0 g0] gs IH]; simpl.
  - intuition congruence.
  - destruct (cmp k k0) eqn:E; simpl.
    + apply cmp_eq in E. subst k0. intuition congruence.
    + intuition congruence.
    + rewrite IH. intuition congruence.
Qed.

Lemma group_insert_strongly_sorted (k : K) (a : A) (gs : list (K * list A)) :
  StronglySorted (key_lt cmp) (map fst gs) ->
  StronglySorted (key_lt cmp) (map fst (group_insert cmp k a gs)).
Proof.
  induction gs as [|[k0 g0] gs IH]; simpl; intros H.
  - repeat constructor.
  - apply StronglySorted_inv in H as [Hs Hall].
    destruct (cmp k k0) eqn:E; simpl.
    + now constructor.
    + constructor; [now constructor|]. constructor; [exact E|].
      rewrite Forall_forall in *. intros k' Hk'.
      apply (cmp_lt_trans _ k0); [exact E|now apply Hall].
    + constructor; [now apply IH|].
      rewrite Forall_forall in *. intros k' Hk'.
      apply group_insert_keys in Hk' as [->|Hk']; [now apply cmp_gt_lt|now apply Hall].
Qed.

(** What inserting a row does to the groups: the other groups are kept, the
    group of the row's key gets the row at its end, and a group of the row
    alone is made only when the key had none. *)
Lemma group_insert_groups (k : K) (a : A) (gs : list (K * list A)) (k' : K)
  (g' : list A) :
  StronglySorted (key_lt cmp) (map fst gs) ->
  In (k', g') (group_insert cmp k a gs) ->
  (In (k', g') gs /\ k' <> k) \/
  (k' = k /\ exists g, In (k, g) gs /\ g' = g ++ [a]) \/
  (k' = k /\ g' = [a] /\ ~ In k (map fst gs)).
Proof.
  induction gs as [|[k0 g0] gs IH]; simpl; intros Hs Hin.
  - destruct Hin as [[= <- <-]|[]]. right. right. now repeat split.
  - apply StronglySorted_inv in Hs as [Hs Hall]. rewrite Forall_forall in Hall.
    destruct (cmp k k0) eqn:E.
    + apply cmp_eq in E. subst k0. destruct Hin as [[= <- <-]|Hin].
      * right. left. split; [reflexivity|]. exists g0. split; [now left|reflexivity].
      * left. split; [now right|]. intros ->.
        apply (key_lt_neq k k); [|reflexivity].
        apply Hall. apply in_map_iff. now exists (k, g').
    + assert (Hnot : forall k1, In k1 (k0 :: map fst gs) -> k1 <> k).
      { intros k1 [<-|Hk1] ->.
        - rewrite cmp_refl in E. discriminate.
        - apply (key_lt_neq k k); [|reflexivity].
          apply (cmp_lt_trans _ k0); [exact E|now apply Hall]. }
      destruct Hin as [[= <- <-]|Hin].
      * right. right. split; [reflexivity|]. split; [reflexivity|].
        intros C. now apply (Hnot k C).
      * left. split; [exact Hin|]. apply Hnot.
        change (k0 :: map fst gs) with (map fst ((k0, g0) :: gs)).
        apply in_map_iff. now exists (k', g').
    + assert (Hk0 : k0 <> k).
      { intros ->. rewrite cmp_refl in E. discriminate. }
      destruct Hin as [[= <- <-]|Hin].
      * left. split; [now left|exact Hk0].
      * destruct (IH Hs Hin) as [[H1 H2]|[[-> (g & H1 & H2)]|(-> & -> & H3)]].
        -- left. split; [now right|exact H2].
        -- right. left. split; [reflexivity|]. exists g. split; [now right|exact H2].
        -- right. right. split; [reflexivity|]. split; [reflexivity|].
           intros [C|C]; [now apply Hk0|now apply H3].
Qed.

(** The groups of [groupby]: under each key, every row of the table with
    that key, in the order of the table. *)
Lemma groupby_whole_groups (l : list A) :
  StronglySorted (key_lt cmp) (map fst (groupby cmp key l)) /\
  (forall a, In a l -> In (key a) (map fst (groupby cmp key l))) /\
  forall k g, In (k, g) (groupby cmp key l) ->
    g = filter (fun a => match cmp k (key a) with Eq => true | _ => false end) l.
Proof.
  unfold groupby. induction l as [|a l IH] using rev_ind.
  - simpl. split; [constructor|]. split; [intros a []|intros k g []].
  - rewrite fold_left_app. simpl fold_left.
    destruct IH as (Hs & Hkeys & Hgroups).
    set (gs := fold_left (fun gs a => group_insert cmp (key a) a gs) l []) in *.
    split; [now apply group_insert_strongly_sorted|]. split.
    + intros b Hb. apply group_insert_keys.
      apply in_app_or in Hb as [Hb|[<-|[]]]; [right; now apply Hkeys|now left].
    + intros k g Hin. rewrite filter_app. simpl filter.
      destruct (group_insert_groups _ _ _ _ _ Hs Hin)
        as [[H1 H2]|[[-> (g0 & H1 & ->)]|(-> & -> & H3)]].
      * destruct (cmp k (key a)) eqn:E.
        -- apply cmp_eq in E. contradiction.
        -- rewrite app_nil_r. now apply Hgroups.
        -- rewrite app_nil_r. now apply Hgroups.
      * rewrite cmp_refl. f_equal. now apply Hgroups.
      * rewrite cmp_refl.
        rewrite (filter_all_false _ l); [reflexivity|].
        intros b Hb. destruct (cmp (key a) (key b)) eqn:E; try reflexivity.
        apply cmp_eq in E. exfalso. apply H3. rewrite E. now apply Hkeys.
Qed.
End GroupingWhole.

(** The groups of a table grouped on an integer column. *)
Lemma groupby_Z_whole {A : Type} (key : A -> Z) (l : list A) (k : Z) (g : list A) :
  In (k, g) (groupby Z.compare key l) -> g = filter (fun a => key a =? k) l.
Proof.
  intros H.
  destruct (groupby_whole_groups Z.compare key Z.compare_eq Z.compare_refl) with (l := l)
    as (_ & _ & Hg).
  - intros a b. rewrite Z.compare_gt_iff, Z.compare_lt_iff. lia.
  - intros a b c. rewrite !Z.compare_lt_iff. lia.
  - rewrite (Hg k g H). apply filter_ext. intros a.
    destruct (Z.compare_spec k (key a)) as [E|E|E];
      [symmetry; apply Z.eqb_eq|symmetry; apply Z.eqb_neq|symmetry; apply Z.eqb_neq]; lia.
Qed.

(** ** C6: what a call of the evaluator does to the table *)

(** C6, as stated, fails: after evaluating the swing game the table is not
    the table that was passed, it has gained the column ['score_diff']. *)
Lemma C6_table_is_modified :
  exists df' s,
    calculateExplosiveness swing_game 1 2 10 = Some (df', s) /\
    score_diff swing_game = None /\
    score_diff df' = Some [3; 0; -3; -3] /\
    df' <> swing_game.
Proof.
  eexists. eexists. split; [vm_compute; reflexivity|].
  split; [reflexivity|]. split; [reflexivity|]. discriminate.
Qed.

(** C6, amended: a call of the evaluator leaves the rows of the table as they
    were and assigns the column ['score_diff'] with home score minus away
    score of every row; the series it returns is a function of the rows and
    the scalar parameters alone, whatever the column held before. *)
Theorem C6_evaluator_frame (df df' : PbpFrame) (c tmin tmax : Z) (s : Series) :
  calculateExplosiveness df c tmin tmax = Some (df', s) ->
  rows df' = rows df /\
  score_diff df' = Some (map diff_of (rows df)) /\
  forall df2, rows df2 = rows df ->
    exists df2', calculateExplosiveness df2 c tmin tmax = Some (df2', s).
Proof.
  rewrite calculateExplosiveness_spec.
  destruct (explosiveness (rows df) c tmin tmax) as [s0|] eqn:E; [|discriminate].
  intros [= <- <-]. repeat split.
  intros df2 H2. rewrite calculateExplosiveness_spec, H2, E. eauto.
Qed.

Lemma C6_evaluator_frame_witness :
  exists df' s,
    calculateExplosiveness swing_game 1 2 10 = Some (df', s) /\
    rows df' = rows swing_game /\
    score_diff df' = Some (map diff_of (rows swing_game)) /\
    forall df2, rows df2 = rows swing_game ->
      exists df2', calculateExplosiveness df2 1 2 10 = Some (df2', s).
Proof.
  do 2 eexists. split; [vm_compute; reflexivity|].
  apply (C6_evaluator_frame swing_game _ 1 2 10 _).
  vm_compute. reflexivity.
Defined.

(** ** C4: the evaluation window *)

(** C4, as stated, fails: the swing game ends at second 11; from cursor 1
    with a look-ahead of 2 to 20 the evaluator stops at second 11, while the
    window of the claim runs to second 21. *)
Lemma C4_window_stops_at_last_event :
  exists df' s,
    calculateExplosiveness swing_game 1 2 20 = Some (df', s) /\
    clock_max (rows swing_game) = Some (inject_Z 11) /\
    map fst s = [3; 4; 5; 6; 7; 8; 9; 10; 11] /\
    map fst s <> spec_time_range (inject_Z 11) 1 2 20.
Proof.
  eexists. eexists. split; [vm_compute; reflexivity|].
  split; [reflexivity|]. split; [reflexivity|].
  vm_compute. discriminate.
Qed.

(** C4, amended: at every cursor position the detector evaluates the
    candidate times from [cursor + minLookahead] to
    [min(cursor + maxLookahead, int(observed max elapsed second))]
    inclusive.  The duration [max(observed max, 2880)] bounds the cursor
    only; it is never below the end of the window. *)
Theorem C4_evaluation_window (df : PbpFrame) (cursor tmin tmax : Z) :
  rows df <> [] ->
  exists m df' s,
    clock_max (rows df) = Some m /\
    calculateExplosiveness df cursor tmin tmax = Some (df', s) /\
    map fst s = range_incl (cursor + tmin) (Z.min (cursor + tmax) (py_int m)) /\
    py_int m <= game_duration_of m /\ 2880 <= game_duration_of m.
Proof.
  intros Hne. destruct (clock_max_some _ Hne) as [m Hm].
  destruct (explosiveness_total (rows df) cursor tmin tmax Hne) as [s Hs].
  exists m. eexists. exists s. split; [exact Hm|].
  split; [rewrite calculateExplosiveness_spec, Hs; reflexivity|].
  split; [exact (explosiveness_times _ _ _ _ _ _ Hm Hs)|].
  apply py_int_le_game_duration.
Qed.

Lemma C4_evaluation_window_witness :
  exists m df' s,
    clock_max (rows swing_game) = Some m /\
    calculateExplosiveness swing_game 1 2 20 = Some (df', s) /\
    map fst s = range_incl (1 + 2) (Z.min (1 + 20) (py_int m)) /\
    py_int m <= game_duration_of m /\ 2880 <= game_duration_of m.
Proof.
  apply (C4_evaluation_window swing_game 1 2 20). discriminate.
Defined.

(** ** C5: candidate times before the first event *)

Lemma latestScores_keys (es : list Event) k v :
  In (k, v) (latestScores es) -> exists e, In e es /\ eventClock e = k.
Proof.
  unfold latestScores. rewrite in_map_iff. intros ([k' g] & [= <- <-] & H).
  apply groupby_sound in H as (_ & H & _). exact H.
Qed.

Lemma ffill_before_first (es : list Event) (t : Z) :
  (forall e, In e es -> (inject_Z t < eventClock e)%Q) ->
  ffill (latestScores es) t = None.
Proof.
  intros H. unfold ffill.
  rewrite filter_all_false; [reflexivity|].
  intros [k v] Hk. simpl.
  apply latestScores_keys in Hk as (e & He & <-).
  destruct (Qle_bool (eventClock e) (inject_Z t)) eqn:E; [|reflexivity].
  apply Qle_bool_iff in E. specialize (H e He).
  exfalso. exact (Qlt_not_le _ _ H E).
Qed.

(** C5, as stated, fails: in the swing game the first event is at second 5;
    evaluated from second 1, candidate second 3 has no looked-up value and
    its intensity is NaN, not [(0 - 0) / (3 - 1) = 0]. *)
Lemma C5_missing_before_first_event :
  exists s,
    explosiveness (rows swing_game) 1 2 10 = Some s /\
    ffill (latestScores (rows swing_game)) 3 = None /\
    scoreDiffStart (latestScores (rows swing_game)) 1 = 0 /\
    In (3, NaN) s /\
    forall q, ~ In (3, Fin q) s.
Proof.
  eexists. split; [vm_compute; reflexivity|].
  split; [reflexivity|]. split; [reflexivity|].
  split; [now left|].
  intros q H. simpl in H.
  repeat (destruct H as [H|H]; [discriminate H|]). exact H.
Qed.

(** C5, amended: for every candidate time [t] that precedes the first
    recorded event second, the forward-filled value is missing, the
    intensity at [t] is NaN, and the sample is never significant. *)
Theorem C5_intensity_before_first_event
  (es : list Event) (start tmin tmax t : Z) (s : Series) (x : fval) :
  explosiveness es start tmin tmax = Some s ->
  In (t, x) s ->
  (forall e, In e es -> (inject_Z t < eventClock e)%Q) ->
  ffill (latestScores es) t = None /\
  x = NaN /\
  forall thr, ~ In (t, x) (significant thr s).
Proof.
  intros Hs Hin Hbefore.
  pose proof (ffill_before_first es t Hbefore) as Hf.
  split; [exact Hf|].
  assert (Hx : x = NaN).
  { unfold explosiveness in Hs. destruct (clock_max es); [|discriminate].
    injection Hs as <-. apply in_map_iff in Hin as (t' & [= <- <-] & _).
    unfold intensity_at. now rewrite Hf. }
  split; [exact Hx|].
  intros thr H. apply filter_In in H as [_ H]. subst x. discriminate H.
Qed.

Lemma C5_intensity_before_first_event_witness :
  ffill (latestScores (rows swing_game)) 3 = None /\
  NaN = NaN /\
  forall thr, ~ In (3, NaN)
    (significant thr
       (map (fun t => (t, intensity_at (latestScores (rows swing_game))
                           (scoreDiffStart (latestScores (rows swing_game)) 1) 1 t))
            (time_range 11 1 2 10))).
Proof.
  apply (C5_intensity_before_first_event (rows swing_game) 1 2 10 3).
  - reflexivity.
  - vm_compute. now left.
  - intros e He. simpl in He.
    repeat (destruct He as [<-|He]; [reflexivity|]). destruct He.
Defined.

(** ** The scan *)

Lemma last_In {A : Type} (l : list A) (d : A) : l <> [] -> In (last l d) l.
Proof.
  induction l as [|a l IH]; [congruence|]. intros _.
  destruct l as [|b l]; [now left|].
  right. apply IH. discriminate.
Qed.

Lemma significant_In (thr : Q) (s : Series) t x :
  In (t, x) (significant thr s) <-> In (t, x) s /\ abs_ge x thr = true.
Proof. unfold significant. now rewrite filter_In. Qed.

(** The records a walk appends: one per sample it visits, stamped with the
    cursor of the walk. *)
Lemma walk_records (gid tmin : Z) (items : Series) :
  forall (w : WalkState) (r : RawRecord),
    In r (w_momentumEvents (walk gid tmin items w)) ->
    In r (w_momentumEvents w) \/
    (exists t x, In (t, x) items /\ game_id r = gid /\
                 build_up_start_time r = w_current_time w /\
                 end_time r = t /\ intensity r = x /\
                 home_or_away r = side_of x).
Proof.
  induction items as [|[t x] items IH]; intros w r; simpl.
  - now left.
  - match goal with
    | |- context [if ?c then _ else _] => destruct c
    end.
    + simpl. intros H. apply in_app_or in H as [H|[<-|[]]]; [now left|].
      right. exists t, x. simpl. repeat split. now left.
    + intros H. apply IH in H as [H|(t' & x' & Hin & Hr)].
      * simpl in H. apply in_app_or in H as [H|[<-|[]]]; [now left|].
        right. exists t, x. simpl. repeat split. now left.
      * right. exists t', x'. simpl in Hr. split; [now right|exact Hr].
Qed.

(** What one iteration does to the state, in terms of the series evaluated
    at the cursor. *)
Lemma loop_body_inv (gid : Z) (thr : Q) (tmin tmax : Z) (st st' : ScanState) :
  loop_body gid thr tmin tmax st = Some st' ->
  exists s,
    explosiveness (rows (s_frame st)) (current_time st) tmin tmax = Some s /\
    rows (s_frame st') = rows (s_frame st) /\
    ((significant thr s = [] /\ current_time st' = current_time st + 1 /\
      momentumEvents st' = momentumEvents st) \/
     (significant thr s <> [] /\
      current_time st' = fst (last (significant thr s) (0, NaN)) + 1 /\
      momentumEvents st' =
        w_momentumEvents (after_walk gid tmin (significant thr s) st))).
Proof.
  unfold loop_body. rewrite calculateExplosiveness_spec.
  destruct (explosiveness _ _ _ _) as [s|]; [|discriminate].
  exists s. split; [reflexivity|].
  destruct (significant thr s) as [|p sig] eqn:E.
  - injection H as <-. simpl. split; [reflexivity|]. left. now repeat split.
  - injection H as <-. simpl. split; [reflexivity|]. right.
    split; [discriminate|]. now split.
Qed.

Lemma loop_body_total (gid : Z) (thr : Q) (tmin tmax : Z) (st : ScanState) :
  rows (s_frame st) <> [] -> exists st', loop_body gid thr tmin tmax st = Some st'.
Proof.
  intros H. unfold loop_body. rewrite calculateExplosiveness_spec.
  destruct (explosiveness_total _ (current_time st) tmin tmax H) as [s ->].
  destruct (significant thr s); eauto.
Qed.

(** The records of one iteration: the old ones, and records stamped with the
    cursor for significant samples of the window. *)
Lemma loop_body_records (gid : Z) (thr : Q) (tmin tmax : Z) (st st' : ScanState) r :
  loop_body gid thr tmin tmax st = Some st' ->
  In r (momentumEvents st') ->
  In r (momentumEvents st) \/
  (exists s t x,
      explosiveness (rows (s_frame st)) (current_time st) tmin tmax = Some s /\
      In (t, x) s /\ abs_ge x thr = true /\ game_id r = gid /\
      build_up_start_time r = current_time st /\
      end_time r = t /\ intensity r = x /\ home_or_away r = side_of x).
Proof.
  intros H Hr. apply loop_body_inv in H as (s & Hs & _ & [(_ & _ & He)|(_ & _ & He)]).
  - left. now rewrite <- He.
  - rewrite He in Hr. unfold after_walk in Hr.
    destruct (significant thr s) as [|[t0 x0] sig] eqn:E; [now left|].
    apply walk_records in Hr as [Hr|(t & x & Hin & Hrest)]; [now left|].
    right. exists s, t, x. rewrite <- E in Hin.
    apply significant_In in Hin as [Hin Hge]. simpl in Hrest. tauto.
Qed.

(** The cursor after one iteration. *)
Lemma loop_body_cursor (gid : Z) (thr : Q) (tmin tmax : Z) (st st' : ScanState) :
  loop_body gid thr tmin tmax st = Some st' ->
  exists s,
    explosiveness (rows (s_frame st)) (current_time st) tmin tmax = Some s /\
    ((significant thr s = [] /\ current_time st' = current_time st + 1) \/
     (exists t x, In (t, x) s /\ abs_ge x thr = true /\
                  current_time st + tmin <= t <= current_time st + tmax /\
                  current_time st' = t + 1)).
Proof.
  intros H. apply loop_body_inv in H as (s & Hs & _ & [(E & Hc & _)|(E & Hc & _)]).
  - exists s. split; [exact Hs|]. left. now split.
  - exists s. split; [exact Hs|]. right.
    pose proof (last_In _ (0, NaN) E) as Hl.
    destruct (last (significant thr s) (0, NaN)) as [t x] eqn:El.
    apply significant_In in Hl as [Hin Hge].
    exists t, x. repeat split; try assumption;
      apply (explosiveness_In_range _ _ _ _ _ _ _ Hs Hin).
Qed.

Section ScanFacts.
Variables (gid gd : Z) (thr : Q) (tmin tmax : Z).
Variable P : ScanState -> Prop.

(** A property kept by every iteration holds of the state the loop
    returns. *)
Lemma scan_invariant :
  (forall st st', P st -> current_time st <= gd ->
                  loop_body gid thr tmin tmax st = Some st' -> P st') ->
  forall fuel st st',
    P st -> scan fuel gid gd thr tmin tmax st = Returns st' -> P st'.
Proof.
  intros Hstep. induction fuel as [|fuel IH]; intros st st' HP; simpl.
  - destruct (current_time st <=? gd); [discriminate|]. now intros [= <-].
  - destruct (current_time st <=? gd) eqn:E; [|now intros [= <-]].
    apply Z.leb_le in E.
    destruct (loop_body gid thr tmin tmax st) as [st1|] eqn:Hb; [|discriminate].
    apply IH. eapply Hstep; eassumption.
Qed.

(** When every iteration from a state in [P] succeeds, stays in [P] and
    moves the cursor forward, the loop returns within as many iterations
    as there are seconds left. *)
Lemma scan_returns :
  (forall st, P st -> current_time st <= gd ->
              exists st', loop_body gid thr tmin tmax st = Some st' /\ P st' /\
                          current_time st < current_time st') ->
  forall fuel st,
    P st -> (Z.to_nat (gd + 1 - current_time st) <= fuel)%nat ->
    exists st', scan fuel gid gd thr tmin tmax st = Returns st' /\ P st' /\
                gd < current_time st'.
Proof.
  intros Hstep. induction fuel as [|fuel IH]; intros st HP Hf; simpl.
  - destruct (current_time st <=? gd) eqn:E.
    + apply Z.leb_le in E. lia.
    + apply Z.leb_gt in E. eauto.
  - destruct (current_time st <=? gd) eqn:E.
    + apply Z.leb_le in E.
      destruct (Hstep st HP E) as (st1 & -> & HP1 & Hlt).
      apply IH; [exact HP1|lia].
    + apply Z.leb_gt in E. eauto.
Qed.
End ScanFacts.

(** ** C9: the scan terminates *)

(** C9: provided the minimal look-ahead is not negative, every iteration of
    the main loop moves the cursor strictly forward, by 1 when no sample is
    significant and otherwise to one past a significant sample of the window,
    which is at least [cursor + minLookahead]; so the loop returns after at
    most [gameDuration] iterations, with the cursor past [gameDuration]. *)
Theorem C9_scan_terminates (df : PbpFrame) (thr : Q) (tmin tmax : Z) (m : Q) :
  clock_max (rows df) = Some m ->
  0 <= tmin ->
  (forall gid st st',
      loop_body gid thr tmin tmax st = Some st' ->
      current_time st < current_time st' /\
      exists s,
        explosiveness (rows (s_frame st)) (current_time st) tmin tmax = Some s /\
        ((significant thr s = [] /\ current_time st' = current_time st + 1) \/
         (exists t x, In (t, x) s /\ abs_ge x thr = true /\
                      current_time st + tmin <= t /\
                      current_time st' = t + 1))) /\
  exists st,
    detect (Z.to_nat (game_duration_of m)) df thr tmin tmax = Returns st /\
    game_duration_of m < current_time st.
Proof.
  intros Hm Htmin. split.
  - intros gid st st' H. apply loop_body_cursor in H as (s & Hs & Hc). split.
    + destruct Hc as [[_ ->]|(t & x & _ & _ & Hr & ->)]; lia.
    + exists s. split; [exact Hs|].
      destruct Hc as [Hc|(t & x & Hin & Hge & Hr & Ht)]; [now left|].
      right. exists t, x. repeat split; try assumption. lia.
  - unfold detect. rewrite Hm.
    destruct (scan_returns (gameid_max (rows df)) (game_duration_of m) thr tmin tmax
                (fun st => rows (s_frame st) <> [])) with
      (fuel := Z.to_nat (game_duration_of m)) (st := mkScan df 1 [])
      as (st' & Hst' & _ & Hgt).
    + intros st HP _.
      destruct (loop_body_total (gameid_max (rows df)) thr tmin tmax st HP) as [st' Hb].
      exists st'. split; [exact Hb|].
      pose proof Hb as Hb'.
      apply loop_body_inv in Hb' as (_ & _ & Hrows & _).
      split; [now rewrite Hrows|].
      apply loop_body_cursor in Hb as (s & Hs & [[_ ->]|(t & x & _ & _ & Hr & ->)]); lia.
    + simpl. destruct (rows df); [discriminate Hm|discriminate].
    + simpl. lia.
    + eauto.
Qed.

Lemma C9_scan_terminates_witness :
  exists st,
    detect (Z.to_nat (game_duration_of 11)) swing_game (1 # 10) 2 10 = Returns st /\
    game_duration_of 11 < current_time st.
Proof.
  refine (proj2 (C9_scan_terminates swing_game (1 # 10) 2 10 11 _ _)).
  - reflexivity.
  - lia.
Defined.


(** ** C8: a game without a significant second *)

Lemma never_significant_spec (es : list Event) (thr : Q) (tmin tmax lo hi : Z) :
  never_significant es thr tmin tmax lo hi = true ->
  forall c s t x,
    lo <= c <= hi -> explosiveness es c tmin tmax = Some s -> In (t, x) s ->
    abs_ge x thr = false.
Proof.
  unfold never_significant. intros H c s t x Hc Hs Hin.
  rewrite forallb_forall in H. specialize (H c (proj2 (In_range_incl lo hi c) Hc)).
  rewrite Hs in H. rewrite forallb_forall in H.
  specialize (H (t, x) Hin). simpl in H. now apply negb_true_iff in H.
Qed.

(** C8: for every game in which no second evaluated from any cursor position
    has [|intensity| >= explosivenessThreshold], the scan returns without a
    raw record and [findGameMomentumEvents] returns an empty table of
    episodes; it neither raises nor runs on. *)
Theorem C8_no_significant_sample (df : PbpFrame) (thr : Q) (tmin tmax : Z) (m : Q)
  (fuel : nat) :
  clock_max (rows df) = Some m ->
  (forall c s t x,
      1 <= c <= game_duration_of m ->
      explosiveness (rows df) c tmin tmax = Some s -> In (t, x) s ->
      abs_ge x thr = false) ->
  (Z.to_nat (game_duration_of m) <= fuel)%nat ->
  exists st,
    detect fuel df thr tmin tmax = Returns st /\
    momentumEvents st = [] /\
    findGameMomentumEvents fuel df thr tmin tmax = Returns (s_frame st, []).
Proof.
  intros Hm Hquiet Hfuel.
  assert (Hne : rows df <> []) by (destruct (rows df); [discriminate Hm|discriminate]).
  destruct (scan_returns (gameid_max (rows df)) (game_duration_of m) thr tmin tmax
              (fun st => momentumEvents st = [] /\ 1 <= current_time st /\
                         rows (s_frame st) = rows df))
    with (fuel := fuel) (st := mkScan df 1 []) as (st & Hst & (Hev & _) & _).
  - intros st (Hev & Hc & Hrows) Hle.
    destruct (loop_body_total (gameid_max (rows df)) thr tmin tmax st) as [st' Hb];
      [now rewrite Hrows|].
    exists st'. split; [exact Hb|].
    apply loop_body_inv in Hb as (s & Hs & Hr & Hcase). rewrite Hrows in Hs, Hr.
    destruct Hcase as [(_ & Hc' & Hev')|(Hsig & _ & _)].
    + rewrite Hc', Hev'. repeat split; try assumption; lia.
    + exfalso. destruct (significant thr s) as [|[t x] sig] eqn:E; [congruence|].
      assert (Hin : In (t, x) (significant thr s)) by (rewrite E; now left).
      apply significant_In in Hin as [Hin Hge].
      rewrite (Hquiet _ _ _ _ (conj Hc Hle) Hs Hin) in Hge. discriminate.
  - simpl. repeat split; lia.
  - simpl. lia.
  - exists st. unfold findGameMomentumEvents, detect. rewrite Hm, Hst, Hev.
    repeat split.
Qed.

Lemma C8_no_significant_sample_witness :
  exists st,
    detect 2880 quiet_game (1 # 2) 20 60 = Returns st /\
    momentumEvents st = [] /\
    findGameMomentumEvents 2880 quiet_game (1 # 2) 20 60 = Returns (s_frame st, []).
Proof.
  apply (C8_no_significant_sample quiet_game (1 # 2) 20 60 2880 2880%nat).
  - reflexivity.
  - apply never_significant_spec. vm_compute. reflexivity.
  - vm_compute. lia.
Defined.

(** ** C10: end times lie in the window of the build-up *)

Lemma fold_left_Zmax_In (xs : list Z) (x : Z) : In (fold_left Z.max xs x) (x :: xs).
Proof.
  revert x. induction xs as [|y xs IH]; intros x; simpl; [now left|].
  destruct (IH (Z.max x y)) as [H|H]; [|now right; right].
  rewrite <- H. destruct (Z.max_spec x y) as [[_ ->]|[_ ->]]; [right|]; now left.
Qed.

(** The rows of an episode: a group that holds a record, all of whose
    records were emitted with the episode's build-up start. *)
Lemma aggregate_events_In (evs : list RawRecord) (ep : Episode) :
  In ep (aggregate_events evs) ->
  exists g, g <> [] /\ ep = aggregate (ep_build_up_start_time ep) g /\
            forall r, In r g -> In r evs /\
                                build_up_start_time r = ep_build_up_start_time ep.
Proof.
  unfold aggregate_events. rewrite in_map_iff. intros ([k g] & <- & H).
  apply groupby_sound in H as (Hne & _ & Hall). simpl.
  exists g. split; [exact Hne|]. split; [reflexivity|].
  intros r Hr. destruct (Hall r Hr) as [Hin [Hk|Hk]]; split; try assumption.
  now apply Z.compare_eq.
Qed.

Lemma aggregate_end_time_In (k : Z) (g : list RawRecord) :
  g <> [] -> exists r, In r g /\ ep_end_time (aggregate k g) = end_time r.
Proof.
  destruct g as [|r0 g]; [congruence|]. intros _. simpl.
  pose proof (fold_left_Zmax_In (map end_time g) (end_time r0)) as H.
  change (end_time r0 :: map end_time g) with (map end_time (r0 :: g)) in H.
  apply in_map_iff in H as (r & Hr & Hin). exists r. split; [exact Hin|now rewrite Hr].
Qed.

Lemma detect_invariant (P : list RawRecord -> Prop) (fuel : nat) (df : PbpFrame)
  (thr : Q) (tmin tmax : Z) (st : ScanState) :
  P [] ->
  (forall gid st0 st1,
      P (momentumEvents st0) ->
      loop_body gid thr tmin tmax st0 = Some st1 -> P (momentumEvents st1)) ->
  detect fuel df thr tmin tmax = Returns st ->
  P (momentumEvents st).
Proof.
  intros H0 Hstep. unfold detect.
  destruct (clock_max (rows df)) as [m|]; [|discriminate].
  apply (scan_invariant _ _ _ _ _ (fun s => P (momentumEvents s))).
  - intros st0 st1 HP _. now apply Hstep.
  - exact H0.
Qed.

(** C10: every raw record the detector emits has its end time between
    [buildUpStart + minLookahead] and [buildUpStart + maxLookahead], and so
    has every aggregated episode. *)
Theorem C10_end_time_in_window (fuel : nat) (df : PbpFrame) (thr : Q)
  (tmin tmax : Z) (st : ScanState) :
  detect fuel df thr tmin tmax = Returns st ->
  (forall r, In r (momentumEvents st) ->
             build_up_start_time r + tmin <= end_time r <= build_up_start_time r + tmax) /\
  findGameMomentumEvents fuel df thr tmin tmax =
    Returns (s_frame st, aggregate_events (momentumEvents st)) /\
  (forall ep, In ep (aggregate_events (momentumEvents st)) ->
              ep_build_up_start_time ep + tmin <= ep_end_time ep
              <= ep_build_up_start_time ep + tmax).
Proof.
  intros Hd.
  assert (Hrec : forall r, In r (momentumEvents st) ->
            build_up_start_time r + tmin <= end_time r <= build_up_start_time r + tmax).
  { apply (detect_invariant
             (fun evs => forall r, In r evs ->
                build_up_start_time r + tmin <= end_time r
                <= build_up_start_time r + tmax) fuel df thr tmin tmax st);
      [intros r []| |exact Hd].
    intros gid st0 st1 HP Hb r Hr.
    destruct (loop_body_records _ _ _ _ _ _ _ Hb Hr)
      as [Hold|(s & t & x & Hs & Hin & _ & _ & Hbus & Hend & _)]; [now apply HP|].
    rewrite Hbus, Hend. exact (explosiveness_In_range _ _ _ _ _ _ _ Hs Hin). }
  split; [exact Hrec|]. split.
  - unfold findGameMomentumEvents. now rewrite Hd.
  - intros ep Hep. apply aggregate_events_In in Hep as (g & Hne & Heq & Hall).
    destruct (aggregate_end_time_In (ep_build_up_start_time ep) g Hne) as (r & Hr & He).
    rewrite <- Heq in He. rewrite He.
    destruct (Hall r Hr) as [Hin <-]. now apply Hrec.
Qed.

Lemma C10_end_time_in_window_witness :
  exists st,
    detect 2880 swing_game (1 # 10) 2 10 = Returns st /\
    forall r, In r (momentumEvents st) ->
              build_up_start_time r + 2 <= end_time r <= build_up_start_time r + 10.
Proof.
  eexists. split; [vm_compute; reflexivity|].
  refine (proj1 (C10_end_time_in_window 2880 swing_game (1 # 10) 2 10 _ _)).
  vm_compute. reflexivity.
Defined.

(** ** C7: minimum, mean and maximum of a group *)











(** An episode is the aggregate of the whole group of its build-up start:
    every record with that start, in the order of the list of records. *)
Lemma aggregate_events_whole (evs : list RawRecord) (ep : Episode) :
  In ep (aggregate_events evs) ->
  filter (fun r => build_up_start_time r =? ep_build_up_start_time ep) evs <> [] /\
  ep = aggregate (ep_build_up_start_time ep)
         (filter (fun r => build_up_start_time r =? ep_build_up_start_time ep) evs).
Proof.
  unfold aggregate_events. rewrite in_map_iff. intros ([k g] & <- & H).
  pose proof (groupby_Z_whole _ _ _ _ H) as Hg.
  apply groupby_sound in H as (Hne & _). simpl.
  rewrite <- Hg. split; [exact Hne|reflexivity].
Qed.




(** ** C1: the side of an episode *)

Lemma fold_str_max_sides (g : list RawRecord) (acc : string) :
  acc = "Away Momentum"%string \/ acc = "Home Momentum"%string ->
  (forall r, In r g -> home_or_away r = side_of (intensity r)) ->
  fold_left str_max (map home_or_away g) acc =
  if (acc =? "Home Momentum")%string || existsb (fun r => negb (lt0 (intensity r))) g
  then "Home Momentum"%string else "Away Momentum"%string.
Proof.
  revert acc. induction g as [|r g IH]; intros acc Hacc Hall; simpl.
  - destruct Hacc as [-> | ->]; reflexivity.
  - assert (Hr : home_or_away r = side_of (intensity r)) by (apply Hall; now left).
    assert (Hg : forall r', In r' g -> home_or_away r' = side_of (intensity r'))
      by (intros; apply Hall; now right).
    rewrite Hr. unfold side_of.
    destruct (lt0 (intensity r)); destruct Hacc as [-> | ->];
      (rewrite IH; [reflexivity|(now left) || (now right)|exact Hg]).
Qed.

Lemma aggregate_side (key : Z) (g : list RawRecord) :
  g <> [] ->
  (forall r, In r g -> home_or_away r = side_of (intensity r)) ->
  ep_home_or_away (aggregate key g) =
  if existsb (fun r => negb (lt0 (intensity r))) g
  then "Home Momentum"%string else "Away Momentum"%string.
Proof.
  destruct g as [|r g]; [congruence|]. intros _ Hall. simpl.
  assert (Hr : home_or_away r = side_of (intensity r)) by (apply Hall; now left).
  rewrite fold_str_max_sides.
  - rewrite Hr. unfold side_of. destruct (lt0 (intensity r)); reflexivity.
  - rewrite Hr. unfold side_of. destruct (lt0 (intensity r)); [now left|now right].
  - intros; apply Hall; now right.
Qed.

(** C1, as stated, fails: in the swing game the one build-up found at cursor
    1 ends with a reversal record at second 9, of negative intensity and
    side Away; it is the record of greatest end time, yet the episode is
    labelled Home. *)
Lemma C1_side_is_not_boundary_side :
  exists st g ep boundary,
    detect 2880 swing_game (1 # 10) 2 10 = Returns st /\
    groupby Z.compare build_up_start_time (momentumEvents st) = [(1, g)] /\
    aggregate_events (momentumEvents st) = [ep] /\
    spec_boundary_record g = Some boundary /\
    end_time boundary = 9 /\
    ep_end_time ep = 9 /\
    lt0 (intensity boundary) = true /\
    home_or_away boundary = "Away Momentum"%string /\
    ep_home_or_away ep = "Home Momentum"%string.
Proof.
  do 4 eexists.
  split; [vm_compute; reflexivity|].
  split; [vm_compute; reflexivity|].
  split; [vm_compute; reflexivity|].
  split; [vm_compute; reflexivity|].
  repeat split.
Qed.

(** C1, amended: every record the detector emits carries the side given by
    the sign of its own intensity (negative gives Away, non-negative gives
    Home), and the side of an aggregated episode is the greatest side label
    in string order of its group, which is made of every record with the
    episode's build-up start: Home as soon as one of these records has a
    non-negative intensity, Away only when all of them are negative. *)
Theorem C1_episode_side (fuel : nat) (df : PbpFrame) (thr : Q) (tmin tmax : Z)
  (st : ScanState) (ep : Episode) :
  detect fuel df thr tmin tmax = Returns st ->
  In ep (aggregate_events (momentumEvents st)) ->
  (forall r, In r (momentumEvents st) -> home_or_away r = side_of (intensity r)) /\
  let g := filter (fun r => build_up_start_time r =? ep_build_up_start_time ep)
                  (momentumEvents st) in
  g <> [] /\
  ep = aggregate (ep_build_up_start_time ep) g /\
  ep_home_or_away ep =
    if existsb (fun r => negb (lt0 (intensity r))) g
    then "Home Momentum"%string else "Away Momentum"%string.
Proof.
  intros Hd Hep.
  assert (Hside : forall r, In r (momentumEvents st) ->
                            home_or_away r = side_of (intensity r)).
  { apply (detect_invariant
             (fun evs => forall r, In r evs -> home_or_away r = side_of (intensity r))
             fuel df thr tmin tmax st); [intros r []| |exact Hd].
    intros gid st0 st1 HP Hb r Hr.
    destruct (loop_body_records _ _ _ _ _ _ _ Hb Hr)
      as [Hold|(s & t & x & _ & _ & _ & _ & _ & _ & Hx & Hs)]; [now apply HP|].
    now rewrite Hs, Hx. }
  split; [exact Hside|].
  apply aggregate_events_whole in Hep as [Hne Heq]. cbv zeta.
  split; [exact Hne|]. split; [exact Heq|].
  rewrite Heq at 1. apply aggregate_side; [exact Hne|].
  intros r Hr. apply Hside. now apply filter_In in Hr as [Hr _].
Qed.

Lemma C1_episode_side_witness :
  exists st ep,
    detect 2880 swing_game (1 # 10) 2 10 = Returns st /\
    aggregate_events (momentumEvents st) = [ep] /\
    map (fun r => lt0 (intensity r))
        (filter (fun r => build_up_start_time r =? ep_build_up_start_time ep)
                (momentumEvents st)) = [false; false; true] /\
    ep_home_or_away ep = "Home Momentum"%string.
Proof.
  do 2 eexists.
  split; [vm_compute; reflexivity|].
  split; [vm_compute; reflexivity|].
  split; [vm_compute; reflexivity|].
  refine (eq_trans
            (proj2 (proj2 (proj2
               (C1_episode_side 2880 swing_game (1 # 10) 2 10 _ _ _ _)))) _).
  - vm_compute. reflexivity.
  - vm_compute. now left.
  - vm_compute. reflexivity.
Defined.

(** ** C3: the cursor after a reversal *)

(** C3 fails on the code: in the swing game, scanned from cursor 1 with a
    threshold of 0.1 and a look-ahead of 2 to 10, the significant seconds
    are 5, 6, 9, 10 and 11 and the walk breaks on the reversal at second 9,
    having assigned 9 to the cursor and appended the records of seconds 5, 6
    and 9; the iteration nevertheless ends with the cursor at 12, one past
    the last significant second, and the scan never starts from 9. *)
Theorem C3_reversal_cursor_overwritten :
  exists s st1,
    explosiveness (rows swing_game) 1 2 10 = Some s /\
    map fst (significant (1 # 10) s) = [5; 6; 9; 10; 11] /\
    w_current_time (after_walk 1 2 (significant (1 # 10) s) (mkScan swing_game 1 [])) = 9 /\
    map end_time
        (w_momentumEvents
           (after_walk 1 2 (significant (1 # 10) s) (mkScan swing_game 1 [])))
      = [5; 6; 9] /\
    loop_body 1 (1 # 10) 2 10 (mkScan swing_game 1 []) = Some st1 /\
    current_time st1 = 12 /\
    map end_time (momentumEvents st1) = [5; 6; 9].
Proof.
  do 2 eexists.
  split; [vm_compute; reflexivity|].
  split; [vm_compute; reflexivity|].
  split; [vm_compute; reflexivity|].
  split; [vm_compute; reflexivity|].
  split; [vm_compute; reflexivity|].
  split; reflexivity.
Qed.


(** ** C2: the rows of the interval categorizer *)

Section GroupingOrder.
Context {K A : Type}.
Variable cmp : K -> K -> comparison.
Variable key : A -> K.
Hypothesis cmp_eq : forall a b, cmp a b = Eq -> a = b.
Hypothesis cmp_gt_lt : forall a b, cmp a b = Gt -> cmp b a = Lt.

Lemma group_insert_keys_In (k : K) (a : A) (gs : list (K * list A)) (k' : K) :
  In k' (map fst (group_insert cmp k a gs)) <-> k' = k \/ In k' (map fst gs).
Proof.
  induction gs as [|[k0 g0] gs IH]; simpl.
  - intuition congruence.
  - destruct (cmp k k0) eqn:E; simpl.
    + apply cmp_eq in E. subst k0. intuition congruence.
    + intuition congruence.
    + rewrite IH. intuition congruence.
Qed.

Lemma group_insert_HdRel (k0 k : K) (a : A) (gs : list (K * list A)) :
  key_lt cmp k0 k -> HdRel (key_lt cmp) k0 (map fst gs) ->
  HdRel (key_lt cmp) k0 (map fst (group_insert cmp k a gs)).
Proof.
  intros Hk H. destruct gs as [|[k1 g1] gs]; simpl.
  - now constructor.
  - inversion H; subst. destruct (cmp k k1); simpl; now constructor.
Qed.

Lemma group_insert_sorted (k : K) (a : A) (gs : list (K * list A)) :
  Sorted (key_lt cmp) (map fst gs) ->
  Sorted (key_lt cmp) (map fst (group_insert cmp k a gs)).
Proof.
  induction gs as [|[k0 g0] gs IH]; simpl; intros H.
  - repeat constructor.
  - destruct (cmp k k0) eqn:E; simpl.
    + exact H.
    + constructor; [exact H|now constructor].
    + inversion H; subst. constructor; [now apply IH|].
      apply group_insert_HdRel; [now apply cmp_gt_lt|assumption].
Qed.

Lemma fold_group_insert_sorted (l : list A) (gs : list (K * list A)) :
  Sorted (key_lt cmp) (map fst gs) ->
  Sorted (key_lt cmp)
         (map fst (fold_left (fun gs a => group_insert cmp (key a) a gs) l gs)).
Proof.
  revert gs. induction l as [|a l IH]; intros gs H; simpl; [exact H|].
  apply IH. now apply group_insert_sorted.
Qed.

Lemma fold_group_insert_keys_In (l : list A) (gs : list (K * list A)) (k : K) :
  In k (map fst (fold_left (fun gs a => group_insert cmp (key a) a gs) l gs)) <->
  (exists a, In a l /\ key a = k) \/ In k (map fst gs).
Proof.
  revert gs. induction l as [|a l IH]; intros gs; simpl.
  - split; [now right|]. intros [(a & [] & _)|H]; exact H.
  - rewrite IH, group_insert_keys_In. split.
    + intros [(b & Hb & Hk)|[->|H]].
      * left. exists b. split; [now right|exact Hk].
      * left. exists a. split; [now left|reflexivity].
      * now right.
    + intros [(b & [<-|Hb] & Hk)|H].
      * right. left. now symmetry.
      * left. now exists b.
      * right. now right.
Qed.

(** The keys of [groupby] increase strictly, and they are the keys of the
    rows of the table. *)
Lemma groupby_keys_sorted (l : list A) :
  Sorted (key_lt cmp) (map fst (groupby cmp key l)).
Proof. apply fold_group_insert_sorted. constructor. Qed.

Lemma groupby_keys_In (l : list A) (k : K) :
  In k (map fst (groupby cmp key l)) <-> exists a, In a l /\ key a = k.
Proof.
  unfold groupby. rewrite fold_group_insert_keys_In. simpl. tauto.
Qed.
End GroupingOrder.

Lemma key_compare_eq (a b : Z * Z) : key_compare a b = Eq -> a = b.
Proof.
  destruct a as [a1 a2], b as [b1 b2]. unfold key_compare. simpl.
  destruct (Z.compare_spec a1 b1); try discriminate.
  destruct (Z.compare_spec a2 b2); try discriminate. now subst.
Qed.

Lemma key_compare_lt (a b : Z * Z) :
  key_compare a b = Lt <-> fst a < fst b \/ (fst a = fst b /\ snd a < snd b).
Proof.
  destruct a as [a1 a2], b as [b1 b2]. unfold key_compare. simpl.
  destruct (Z.compare_spec a1 b1); destruct (Z.compare_spec a2 b2);
    split; intros; try discriminate; try reflexivity; lia.
Qed.

Lemma key_compare_gt_lt (a b : Z * Z) : key_compare a b = Gt -> key_compare b a = Lt.
Proof.
  intros H. apply key_compare_lt.
  destruct a as [a1 a2], b as [b1 b2]. unfold key_compare in H. simpl in *.
  destruct (Z.compare_spec a1 b1); destruct (Z.compare_spec a2 b2);
    try discriminate; lia.
Qed.

Lemma key_compare_trans (a b c : Z * Z) :
  key_compare a b = Lt -> key_compare b c = Lt -> key_compare a c = Lt.
Proof. rewrite !key_compare_lt. lia. Qed.

(** C2, as stated, fails: the sparse game has events in the first and in the
    fifth window of 120 seconds only; the categorizer returns two rows, for
    windows 1 and 5, and none for windows 2, 3 and 4, where the claim counts
    [ceil(500 / 120) = 5] rows (24 with the 2880 second floor). *)
Lemma C2_no_row_for_empty_interval :
  exists rs,
    calculateIntervalExplosivenessCategorical sparse_game 120 = Some rs /\
    map iv_time_window rs = [1; 5] /\
    Z.of_nat (List.length rs) = 2 /\
    Qceiling (500 / 120) = 5 /\
    Qceiling (inject_Z (game_duration_of 500) / 120) = 24 /\
    ~ In 2 (map iv_time_window rs).
Proof.
  eexists. split; [vm_compute; reflexivity|].
  repeat split. simpl. intuition discriminate.
Qed.

(** C2, amended: for every game with at least one event and every positive
    interval width, the categorizer returns exactly one row for each interval
    index that contains at least one event, in strictly increasing order of
    (game, interval index); an interval that contains no event gets no
    row. *)
Theorem C2_rows_are_nonempty_intervals (es : list Event) (w : positive) :
  es <> [] ->
  exists m rs,
    clock_max es = Some m /\
    calculateIntervalExplosivenessCategorical es w = Some rs /\
    StronglySorted (key_lt key_compare)
                   (map (fun r => (iv_gameid r, iv_time_window r)) rs) /\
    forall g i,
      In (g, i) (map (fun r => (iv_gameid r, iv_time_window r)) rs) <->
      exists e, In e es /\ gameid e = g /\ time_window_of w m e = i.
Proof.
  intros Hne. destruct (clock_max_some es Hne) as [m Hm].
  exists m. eexists. split; [exact Hm|].
  unfold calculateIntervalExplosivenessCategorical. rewrite Hm.
  split; [reflexivity|].
  rewrite map_map. simpl.
  rewrite <- (map_map fst (fun k : Z * Z => (fst k, snd k))).
  rewrite (map_ext (fun k : Z * Z => (fst k, snd k)) (fun k => k)),
    map_id by (now intros []).
  split.
  - apply Sorted_StronglySorted; [exact key_compare_trans|].
    apply groupby_keys_sorted. exact key_compare_gt_lt.
  - intros g i. rewrite groupby_keys_In by exact key_compare_eq.
    split; intros (e & He & Hk); exists e.
    + injection Hk as <- <-. now repeat split.
    + destruct Hk as [<- <-]. now split.
Qed.

Lemma C2_rows_are_nonempty_intervals_witness :
  exists m rs,
    clock_max sparse_game = Some m /\
    calculateIntervalExplosivenessCategorical sparse_game 120 = Some rs /\
    StronglySorted (key_lt key_compare)
                   (map (fun r => (iv_gameid r, iv_time_window r)) rs) /\
    forall g i,
      In (g, i) (map (fun r => (iv_gameid r, iv_time_window r)) rs) <->
      exists e, In e sparse_game /\ gameid e = g /\ time_window_of 120 m e = i.
Proof.
  apply (C2_rows_are_nonempty_intervals sparse_game 120). discriminate.
Defined.

(** * Further properties of the detector *)

(** ** Samples come in increasing time order *)

Lemma range_incl_sorted_from (a : Z) (n s : nat) :
  StronglySorted Z.lt (map (fun i => a + Z.of_nat i) (seq s n)).
Proof.
  revert s. induction n as [|n IH]; intros s; simpl; constructor.
  - apply IH.
  - apply Forall_forall. intros t Ht.
    apply in_map_iff in Ht as (i & <- & Hi). apply in_seq in Hi. lia.
Qed.

Lemma range_incl_sorted (a b : Z) : StronglySorted Z.lt (range_incl a b).
Proof. apply range_incl_sorted_from. Qed.

Lemma StronglySorted_map_fst {B : Type} (f : Z -> B) (l : list Z) :
  StronglySorted Z.lt l ->
  StronglySorted (fun p q : Z * B => fst p < fst q) (map (fun t => (t, f t)) l).
Proof.
  induction 1 as [|t l Hs IH Hall]; simpl; constructor; [exact IH|].
  apply Forall_forall. intros p Hp. apply in_map_iff in Hp as (u & <- & Hu).
  simpl. rewrite Forall_forall in Hall. now apply Hall.
Qed.

Lemma StronglySorted_filter {A : Type} (R : A -> A -> Prop) (f : A -> bool)
  (l : list A) :
  StronglySorted R l -> StronglySorted R (filter f l).
Proof.
  induction 1 as [|a l Hs IH Hall]; simpl; [constructor|].
  destruct (f a); [|exact IH]. constructor; [exact IH|].
  rewrite Forall_forall in *. intros b Hb. apply filter_In in Hb as [Hb _].
  now apply Hall.
Qed.

Lemma significant_sorted (es : list Event) (thr : Q) (c tmin tmax : Z) (s : Series) :
  explosiveness es c tmin tmax = Some s ->
  StronglySorted (fun p q : Z * fval => fst p < fst q) (significant thr s).
Proof.
  unfold explosiveness. destruct (clock_max es); [|discriminate].
  intros [= <-]. apply StronglySorted_filter, StronglySorted_map_fst.
  apply range_incl_sorted.
Qed.

Lemma sorted_le_last (l : list (Z * fval)) (d p : Z * fval) :
  StronglySorted (fun p q : Z * fval => fst p < fst q) l ->
  In p l -> fst p <= fst (last l d).
Proof.
  induction 1 as [|a l Hs IH Hall]; [intros []|].
  intros [<-|Hp].
  - destruct l as [|b l]; [simpl; lia|].
    rewrite Forall_forall in Hall.
    assert (In (last (b :: l) d) (b :: l)) by (apply last_In; discriminate).
    specialize (Hall _ H). change (last (a :: b :: l) d) with (last (b :: l) d). lia.
  - destruct l as [|b l]; [destruct Hp|].
    change (last (a :: b :: l) d) with (last (b :: l) d). now apply IH.
Qed.

Lemma sorted_head_le (a : Z * fval) (l : list (Z * fval)) (p : Z * fval) :
  StronglySorted (fun p q : Z * fval => fst p < fst q) (a :: l) ->
  In p (a :: l) -> fst a <= fst p.
Proof.
  intros H [<-|Hp]; [lia|].
  apply StronglySorted_inv in H as [_ Hall]. rewrite Forall_forall in Hall.
  specialize (Hall p Hp). lia.
Qed.

(** ** The momentum start of a walk *)

Lemma walk_records_start (gid tmin : Z) (items : Series) :
  forall (w : WalkState) (m : Z) (r : RawRecord),
    w_momentumStartTime w = Some m ->
    In r (w_momentumEvents (walk gid tmin items w)) ->
    In r (w_momentumEvents w) \/
    (momentum_start_time r = Some m /\
     build_up_start_time r = w_current_time w /\
     exists t x, In (t, x) items /\ end_time r = t /\ intensity r = x).
Proof.
  induction items as [|[t x] items IH]; intros w m r Hm; simpl.
  - now left.
  - rewrite Hm.
    match goal with
    | |- context [if ?c then _ else _] => destruct c
    end.
    + simpl. intros H. apply in_app_or in H as [H|[<-|[]]]; [now left|].
      right. simpl. repeat split. exists t, x. repeat split. now left.
    + intros H. apply (IH _ m) in H; [|reflexivity].
      destruct H as [H|(Hs & Hb & t' & x' & Hin & Hr)].
      * simpl in H. apply in_app_or in H as [H|[<-|[]]]; [now left|].
        right. simpl. repeat split. exists t, x. repeat split. now left.
      * right. simpl in Hb. repeat split; try assumption.
        exists t', x'. split; [now right|exact Hr].
Qed.

(** The records of one iteration all carry the first significant second of
    the window as their momentum start. *)
Lemma loop_body_new_records (gid : Z) (thr : Q) (tmin tmax : Z) (st st' : ScanState) r :
  loop_body gid thr tmin tmax st = Some st' ->
  In r (momentumEvents st') ->
  In r (momentumEvents st) \/
  (exists s t0 x0 rest t x,
      explosiveness (rows (s_frame st)) (current_time st) tmin tmax = Some s /\
      significant thr s = (t0, x0) :: rest /\
      In (t, x) (significant thr s) /\
      current_time st' = fst (last (significant thr s) (0, NaN)) + 1 /\
      momentum_start_time r = Some t0 /\
      build_up_start_time r = current_time st /\
      end_time r = t /\ intensity r = x).
Proof.
  intros H Hr.
  apply loop_body_inv in H as (s & Hs & _ & [(_ & _ & He)|(_ & Hc & He)]).
  - left. now rewrite <- He.
  - rewrite He in Hr. unfold after_walk in Hr.
    destruct (significant thr s) as [|[t0 x0] rest] eqn:E; [now left|].
    assert (Ht0 : current_time st + tmin <= t0).
    { assert (Hin : In (t0, x0) (significant thr s)) by (rewrite E; now left).
      apply significant_In in Hin as [Hin _].
      apply (explosiveness_In_range _ _ _ _ _ _ _ Hs Hin). }
    simpl in Hr.
    replace (tmin <=? t0 - current_time st) with true in Hr
      by (symmetry; apply Z.leb_le; lia).
    replace (direction_eqb (direction_of x0) (direction_of x0)) with true in Hr
      by (destruct (direction_of x0); reflexivity).
    replace (1 <? t0 - t0) with false in Hr
      by (symmetry; apply Z.ltb_ge; lia).
    simpl in Hr.
    apply (walk_records_start _ _ _ _ t0) in Hr; [|reflexivity].
    destruct Hr as [Hr|(Hm & Hb & t & x & Hin & Hend & Hx)].
    + simpl in Hr. apply in_app_or in Hr as [Hr|[<-|[]]]; [now left|].
      right. exists s, t0, x0, rest, t0, x0. rewrite E. simpl.
      repeat split; try assumption. now left.
    + right. exists s, t0, x0, rest, t, x. rewrite E.
      repeat split; try assumption. now right.
Qed.

Lemma fold_left_Zmax_init (xs : list Z) (x : Z) : x <= fold_left Z.max xs x.
Proof.
  revert x. induction xs as [|z xs IH]; intros x; simpl; [lia|].
  specialize (IH (Z.max x z)). lia.
Qed.

Lemma fold_left_Zmax_ge (xs : list Z) (x y : Z) :
  In y (x :: xs) -> y <= fold_left Z.max xs x.
Proof.
  revert x. induction xs as [|z xs IH]; intros x; simpl.
  - intros [H|[]]. lia.
  - intros [H|[H|H]].
    + pose proof (fold_left_Zmax_init xs (Z.max x z)). lia.
    + pose proof (fold_left_Zmax_init xs (Z.max x z)). lia.
    + apply IH. now right.
Qed.

Lemma fold_opt_min_Some (xs : list (option Z)) (a : Z) :
  (forall x, In x xs -> x <> None) ->
  exists m, fold_left opt_min xs (Some a) = Some m /\ In (Some m) (Some a :: xs).
Proof.
  revert a. induction xs as [|x xs IH]; intros a Hall; simpl.
  - exists a. split; [reflexivity|now left].
  - destruct x as [b|]; [|exfalso; apply (Hall None); [now left|reflexivity]].
    simpl. destruct (IH (Z.min a b)) as (m & Hm & Hin).
    { intros y Hy. apply Hall. now right. }
    exists m. split; [exact Hm|].
    destruct Hin as [Hin|Hin]; [|now right; right].
    injection Hin as <-.
    destruct (Z.min_spec a b) as [[_ ->]|[_ ->]]; [now left|right; now left].
Qed.

Lemma detect_state_invariant (P : ScanState -> Prop) (fuel : nat) (df : PbpFrame)
  (thr : Q) (tmin tmax : Z) (st : ScanState) :
  P (mkScan df 1 []) ->
  (forall gid st0 st1,
      P st0 -> loop_body gid thr tmin tmax st0 = Some st1 -> P st1) ->
  detect fuel df thr tmin tmax = Returns st ->
  P st.
Proof.
  intros H0 Hstep. unfold detect.
  destruct (clock_max (rows df)) as [m|]; [|discriminate].
  apply (scan_invariant _ _ _ _ _ P).
  - intros st0 st1 HP _. now apply Hstep.
  - exact H0.
Qed.

(** Every record carries, as its momentum start, the first significant
    second of the series evaluated from its build-up start. *)
Lemma detect_records_first_significant (fuel : nat) (df : PbpFrame) (thr : Q)
  (tmin tmax : Z) (st : ScanState) (r : RawRecord) :
  detect fuel df thr tmin tmax = Returns st ->
  In r (momentumEvents st) ->
  exists s t0 x0 rest,
    explosiveness (rows df) (build_up_start_time r) tmin tmax = Some s /\
    significant thr s = (t0, x0) :: rest /\
    momentum_start_time r = Some t0 /\
    build_up_start_time r + tmin <= t0 <= end_time r /\
    end_time r <= build_up_start_time r + tmax.
Proof.
  intros Hd. revert r.
  refine (proj2 (detect_state_invariant
            (fun st => rows (s_frame st) = rows df /\
               forall r, In r (momentumEvents st) ->
                 exists s t0 x0 rest,
                   explosiveness (rows df) (build_up_start_time r) tmin tmax = Some s /\
                   significant thr s = (t0, x0) :: rest /\
                   momentum_start_time r = Some t0 /\
                   build_up_start_time r + tmin <= t0 <= end_time r /\
                   end_time r <= build_up_start_time r + tmax)
            fuel df thr tmin tmax st _ _ Hd)).
  - split; [reflexivity|intros r []].
  - intros gid st0 st1 [Hrows HP] Hb.
    split.
    + apply loop_body_inv in Hb as (s & _ & Hr & _). now rewrite Hr.
    + intros r Hr.
      destruct (loop_body_new_records _ _ _ _ _ _ _ Hb Hr)
        as [Hold|(s & t0 & x0 & rest & t & x & Hs & E & Hin & _ & Hm & Hbus & Hend & _)];
        [now apply HP|].
      rewrite Hrows in Hs.
      exists s, t0, x0, rest. rewrite Hbus, Hend.
      split; [exact Hs|]. split; [exact E|]. split; [exact Hm|].
      pose proof (significant_sorted _ thr _ _ _ _ Hs) as Hsorted.
      rewrite E in Hsorted, Hin.
      pose proof (sorted_head_le _ _ _ Hsorted Hin) as Hle. simpl in Hle.
      assert (Hin0 : In (t0, x0) (significant thr s)) by (rewrite E; now left).
      apply significant_In in Hin0 as [Hin0 _].
      assert (Hint : In (t, x) (significant thr s)) by (rewrite E; exact Hin).
      apply significant_In in Hint as [Hint _].
      pose proof (explosiveness_In_range _ _ _ _ _ _ _ Hs Hin0).
      pose proof (explosiveness_In_range _ _ _ _ _ _ _ Hs Hint). lia.
Qed.

(** X1: every raw record carries a momentum start, and it is the first
    significant second of the series evaluated from the record's build-up
    start; it lies between [buildUpStart + time_min] and the record's end
    time.  Hence every episode has as its momentum start the first
    significant second of the series evaluated from its build-up start, in
    that range, and a defined duration between 0 and [time_max - time_min]. *)
Theorem X1_momentum_start_defined (fuel : nat) (df : PbpFrame) (thr : Q)
  (tmin tmax : Z) (st : ScanState) :
  detect fuel df thr tmin tmax = Returns st ->
  (forall r, In r (momentumEvents st) ->
     exists s t0 x0 rest,
       explosiveness (rows df) (build_up_start_time r) tmin tmax = Some s /\
       significant thr s = (t0, x0) :: rest /\
       momentum_start_time r = Some t0 /\
       build_up_start_time r + tmin <= t0 <= end_time r) /\
  (forall ep, In ep (aggregate_events (momentumEvents st)) ->
     exists s t0 x0 rest,
       explosiveness (rows df) (ep_build_up_start_time ep) tmin tmax = Some s /\
       significant thr s = (t0, x0) :: rest /\
       ep_momentum_start_time ep = Some t0 /\
       ep_build_up_start_time ep + tmin <= t0 <= ep_end_time ep /\
       ep_duration ep = Some (ep_end_time ep - t0) /\
       0 <= ep_end_time ep - t0 <= tmax - tmin).
Proof.
  intros Hd.
  pose proof (fun r => detect_records_first_significant _ _ _ _ _ _ r Hd) as Hrec.
  split.
  - intros r Hr. destruct (Hrec r Hr) as (s & t0 & x0 & rest & H1 & H2 & H3 & H4 & _).
    exists s, t0, x0, rest. now repeat split.
  - intros ep Hep. apply aggregate_events_In in Hep as (g & Hne & Heq & Hall).
    destruct g as [|r0 g]; [congruence|].
    destruct (Hrec r0) as (s0 & m0 & y0 & rest0 & _ & _ & Hm0 & _);
      [apply Hall; now left|].
    destruct (fold_opt_min_Some (map momentum_start_time g) m0) as (m & Hm & Hin).
    { intros x Hx. apply in_map_iff in Hx as (r & <- & Hr).
      destruct (Hrec r) as (? & m' & ? & ? & _ & _ & -> & _);
        [apply Hall; now right|discriminate]. }
    assert (Hin' : exists r, In r (r0 :: g) /\ momentum_start_time r = Some m).
    { destruct Hin as [Hin|Hin].
      - exists r0. split; [now left|congruence].
      - apply in_map_iff in Hin as (r & Hr & Hrin). exists r. split; [now right|exact Hr]. }
    destruct Hin' as (r & Hrin & Hrm).
    destruct (Hall r Hrin) as [Hrst Hrbus].
    destruct (Hrec r Hrst) as (s & m' & x0 & rest & Hs & Hsig & Hm' & Hb1 & _).
    assert (m' = m) by congruence. subst m'.
    destruct (aggregate_end_time_In (ep_build_up_start_time ep) (r0 :: g) Hne)
      as (re & Hrein & Hre).
    rewrite <- Heq in Hre.
    destruct (Hall re Hrein) as [Hrest Hrebus].
    destruct (Hrec re Hrest) as (_ & _ & _ & _ & _ & _ & _ & _ & Hb2).
    assert (Hge : end_time r <= ep_end_time ep).
    { rewrite Heq. simpl. apply fold_left_Zmax_ge.
      change (end_time r0 :: map end_time g) with (map end_time (r0 :: g)).
      now apply in_map. }
    assert (Hms : ep_momentum_start_time ep = Some m).
    { rewrite Heq. simpl. rewrite Hm0. simpl. exact Hm. }
    exists s, m, x0, rest. rewrite <- Hrbus.
    split; [exact Hs|]. split; [exact Hsig|]. split; [exact Hms|]. split; [lia|]. split.
    + rewrite Heq. rewrite Heq in Hms. simpl in *.
      rewrite Hm0 in *. simpl in *. rewrite Hms. reflexivity.
    + lia.
Qed.

Lemma X1_momentum_start_defined_witness :
  exists st,
    detect 2880 swing_game (1 # 10) 2 10 = Returns st /\
    map (fun r => (build_up_start_time r, momentum_start_time r, end_time r))
        (momentumEvents st) = [(1, Some 5, 5); (1, Some 5, 6); (1, Some 5, 9)] /\
    forall r, In r (momentumEvents st) ->
      exists s t0 x0 rest,
        explosiveness (rows swing_game) (build_up_start_time r) 2 10 = Some s /\
        significant (1 # 10) s = (t0, x0) :: rest /\
        momentum_start_time r = Some t0 /\
        build_up_start_time r + 2 <= t0 <= end_time r.
Proof.
  eexists. split; [vm_compute; reflexivity|]. split; [vm_compute; reflexivity|].
  refine (proj1 (X1_momentum_start_defined 2880 swing_game (1 # 10) 2 10 _ _)).
  vm_compute. reflexivity.
Defined.

(** ** Episodes follow one another *)

Lemma StronglySorted_map_rel {A B : Type} (R : A -> A -> Prop) (S : B -> B -> Prop)
  (f : A -> B) (l : list A) :
  (forall a b, In a l -> In b l -> R a b -> S (f a) (f b)) ->
  StronglySorted R l -> StronglySorted S (map f l).
Proof.
  intros H Hs. induction Hs as [|a l Hs IH Hall]; simpl; constructor.
  - apply IH. intros x y Hx Hy. apply H; now right.
  - rewrite Forall_forall in *. intros y Hy.
    apply in_map_iff in Hy as (b & <- & Hb).
    apply H; [now left|now right|now apply Hall].
Qed.

Lemma Zcompare_gt_lt (a b : Z) : Z.compare a b = Gt -> Z.compare b a = Lt.
Proof. intros H. apply Z.compare_gt_iff in H. now apply Z.compare_lt_iff. Qed.

Lemma groupby_sound_pair {A : Type} (key : A -> Z) (l : list A) (k : Z) (g : list A) :
  In (k, g) (groupby Z.compare key l) ->
  g <> [] /\ forall r, In r g -> In r l /\ key r = k.
Proof.
  intros H. apply groupby_sound in H as (Hne & _ & Hall). split; [exact Hne|].
  intros r Hr. destruct (Hall r Hr) as [Hin [Hk|Hk]]; split; try assumption.
  now apply Z.compare_eq.
Qed.

(** X2: with a minimal look-ahead that is not negative, the episodes of a
    game come out in time order and do not overlap: every episode ends
    before the build-up of each later episode starts. *)
Theorem X2_episodes_do_not_overlap (fuel : nat) (df : PbpFrame) (thr : Q)
  (tmin tmax : Z) (st : ScanState) :
  0 <= tmin ->
  detect fuel df thr tmin tmax = Returns st ->
  StronglySorted (fun e1 e2 => ep_end_time e1 < ep_build_up_start_time e2)
                 (aggregate_events (momentumEvents st)).
Proof.
  intros Htmin Hd.
  assert (HK : (forall r, In r (momentumEvents st) ->
                  build_up_start_time r < current_time st /\
                  end_time r < current_time st) /\
               (forall r r', In r (momentumEvents st) -> In r' (momentumEvents st) ->
                  build_up_start_time r < build_up_start_time r' ->
                  end_time r < build_up_start_time r')).
  { unfold detect in Hd. destruct (clock_max (rows df)) as [m|]; [|discriminate].
    revert Hd.
    apply (scan_invariant _ _ _ _ _
             (fun s => (forall r, In r (momentumEvents s) ->
                          build_up_start_time r < current_time s /\
                          end_time r < current_time s) /\
                       (forall r r', In r (momentumEvents s) -> In r' (momentumEvents s) ->
                          build_up_start_time r < build_up_start_time r' ->
                          end_time r < build_up_start_time r'))).
    - intros st0 st1 [H1 H2] _ Hb.
      pose proof (loop_body_cursor _ _ _ _ _ _ Hb) as (s0 & Hs0 & Hcur).
      assert (Hadv : current_time st0 < current_time st1).
      { destruct Hcur as [[_ ->]|(t & x & _ & _ & Hr & ->)]; lia. }
      assert (Hnew : forall r, In r (momentumEvents st1) ->
                In r (momentumEvents st0) \/
                (build_up_start_time r = current_time st0 /\
                 end_time r < current_time st1)).
      { intros r Hr.
        destruct (loop_body_new_records _ _ _ _ _ _ _ Hb Hr)
          as [Hold|(s & t0 & x0 & rest & t & x & Hs & E & Hin & Hc & _ & Hbus & Hend & _)];
          [now left|].
        right. split; [exact Hbus|]. rewrite Hend, Hc.
        pose proof (sorted_le_last _ (0, NaN) _ (significant_sorted _ thr _ _ _ _ Hs) Hin)
          as Hle.
        simpl in Hle. lia. }
      split.
      + intros r Hr. destruct (Hnew r Hr) as [Hold|[Hbus Hend]].
        * destruct (H1 r Hold). lia.
        * lia.
      + intros r r' Hr Hr' Hlt.
        destruct (Hnew r Hr) as [Hold|[Hbus Hend]];
          destruct (Hnew r' Hr') as [Hold'|[Hbus' Hend']].
        * now apply H2.
        * destruct (H1 r Hold). lia.
        * destruct (H1 r' Hold'). lia.
        * lia.
    - split; [intros r []|intros r r' []]. }
  destruct HK as [_ HK].
  unfold aggregate_events.
  apply (StronglySorted_map_rel (fun a b : Z * list RawRecord => fst a < fst b)).
  - intros [k1 g1] [k2 g2] H1 H2 Hlt. cbn beta in *. cbn [fst snd] in *.
    apply groupby_sound_pair in H1 as [Hne1 Hall1].
    apply groupby_sound_pair in H2 as [Hne2 Hall2].
    destruct (aggregate_end_time_In k1 g1 Hne1) as (r1 & Hr1 & ->).
    destruct g2 as [|r2 g2]; [congruence|].
    destruct (Hall1 r1 Hr1) as [Hin1 Hb1].
    destruct (Hall2 r2 (or_introl eq_refl)) as [Hin2 Hb2].
    rewrite <- Hb2. apply HK; try assumption. lia.
  - pose proof (groupby_keys_sorted Z.compare build_up_start_time Zcompare_gt_lt
                  (momentumEvents st)) as Hs.
    apply Sorted_StronglySorted in Hs.
    + clear -Hs. remember (groupby Z.compare build_up_start_time (momentumEvents st)) as gs.
      clear Heqgs. induction gs as [|a gs IH]; [constructor|].
      simpl in Hs. apply StronglySorted_inv in Hs as [Hs Hall].
      constructor; [now apply IH|].
      rewrite Forall_forall in *. intros b Hb.
      specialize (Hall (fst b) (in_map fst _ _ Hb)).
      unfold key_lt in Hall. now apply Z.compare_lt_iff.
    + intros a b c H1 H2. unfold key_lt in *.
      change (a < b) in H1. change (b < c) in H2. change (a < c). lia.
Qed.

Lemma X2_episodes_do_not_overlap_witness :
  exists st,
    detect 2880 two_run_game (1 # 10) 2 10 = Returns st /\
    map (fun ep => (ep_build_up_start_time ep, ep_end_time ep))
        (aggregate_events (momentumEvents st)) = [(1, 11); (40, 50)] /\
    StronglySorted (fun e1 e2 => ep_end_time e1 < ep_build_up_start_time e2)
                   (aggregate_events (momentumEvents st)).
Proof.
  eexists. split; [vm_compute; reflexivity|]. split; [vm_compute; reflexivity|].
  apply (X2_episodes_do_not_overlap 2880 two_run_game (1 # 10) 2 10); [lia|].
  vm_compute. reflexivity.
Defined.

(** ** Records are significant samples of the observed game *)

Lemma explosiveness_In_observed (es : list Event) (m : Q) (c tmin tmax : Z)
  (s : Series) t x :
  clock_max es = Some m ->
  explosiveness es c tmin tmax = Some s -> In (t, x) s -> t <= py_int m.
Proof.
  intros Hm Hs Hin. pose proof (explosiveness_times _ _ _ _ _ _ Hm Hs) as Ht.
  assert (H : In t (map fst s)) by (apply in_map_iff; exists (t, x); now split).
  rewrite Ht in H. apply In_range_incl in H. lia.
Qed.

Lemma fmax2_choice (x y : fval) :
  is_nan x = false -> is_nan y = false -> fmax2 x y = x \/ fmax2 x y = y.
Proof.
  destruct x, y; simpl; try discriminate; intros _ _; auto;
    destruct (Qle_bool q q0); auto.
Qed.

Lemma fmin2_choice (x y : fval) :
  is_nan x = false -> is_nan y = false -> fmin2 x y = x \/ fmin2 x y = y.
Proof.
  destruct x, y; simpl; try discriminate; intros _ _; auto;
    destruct (Qle_bool q q0); auto.
Qed.

Lemma fold_choice_In (f : fval -> fval -> fval) (xs : list fval) (a : fval) :
  (forall x y, is_nan x = false -> is_nan y = false -> f x y = x \/ f x y = y) ->
  is_nan a = false -> (forall x, In x xs -> is_nan x = false) ->
  In (fold_left f xs a) (a :: xs).
Proof.
  intros Hf. revert a. induction xs as [|x xs IH]; intros a Ha Hall; simpl.
  - now left.
  - assert (Hx : is_nan x = false) by (apply Hall; now left).
    assert (Hxs : forall y, In y xs -> is_nan y = false) by (intros; apply Hall; now right).
    destruct (Hf a x Ha Hx) as [E|E]; rewrite E.
    + destruct (IH a Ha Hxs) as [H|H]; [now left|now right; right].
    + destruct (IH x Hx Hxs) as [H|H]; [right; now left|now right; right].
Qed.

Lemma agg_max_In (xs : list fval) :
  xs <> [] -> (forall x, In x xs -> is_nan x = false) -> In (agg_max xs) xs.
Proof.
  destruct xs as [|a xs]; [congruence|]. intros _ Hall. unfold agg_max. simpl.
  assert (Ha : is_nan a = false) by (apply Hall; now left).
  replace (fmax2 NaN a) with a by reflexivity.
  apply fold_choice_In; [exact fmax2_choice|exact Ha|].
  intros; apply Hall; now right.
Qed.

Lemma agg_min_In (xs : list fval) :
  xs <> [] -> (forall x, In x xs -> is_nan x = false) -> In (agg_min xs) xs.
Proof.
  destruct xs as [|a xs]; [congruence|]. intros _ Hall. unfold agg_min. simpl.
  assert (Ha : is_nan a = false) by (apply Hall; now left).
  replace (fmin2 NaN a) with a by reflexivity.
  apply fold_choice_In; [exact fmin2_choice|exact Ha|].
  intros; apply Hall; now right.
Qed.

Lemma abs_ge_not_nan (x : fval) (thr : Q) : abs_ge x thr = true -> is_nan x = false.
Proof. destruct x; simpl; intros; congruence. Qed.

(** X3: every raw record is a significant sample of the observed game: its
    intensity reaches the threshold in magnitude and its end time is at most
    the last observed event second, although the cursor scans up to second
    2880 at least.  So every episode ends by the last observed second, and
    both its peak intensities reach the threshold in magnitude. *)
Theorem X3_records_are_significant (fuel : nat) (df : PbpFrame) (thr : Q)
  (tmin tmax : Z) (m : Q) (st : ScanState) :
  clock_max (rows df) = Some m ->
  detect fuel df thr tmin tmax = Returns st ->
  (forall r, In r (momentumEvents st) ->
     abs_ge (intensity r) thr = true /\ end_time r <= py_int m) /\
  (forall ep, In ep (aggregate_events (momentumEvents st)) ->
     ep_end_time ep <= py_int m /\
     abs_ge (ep_peak_intensity_max ep) thr = true /\
     abs_ge (ep_peak_intensity_min ep) thr = true).
Proof.
  intros Hm Hd.
  assert (Hrec : forall r, In r (momentumEvents st) ->
            abs_ge (intensity r) thr = true /\ end_time r <= py_int m).
  { unfold detect in Hd. rewrite Hm in Hd. revert Hd.
    apply (scan_invariant _ _ _ _ _
             (fun s => rows (s_frame s) = rows df /\
                       forall r, In r (momentumEvents s) ->
                         abs_ge (intensity r) thr = true /\ end_time r <= py_int m)).
    - intros st0 st1 [Hrows HP] _ Hb. split.
      + apply loop_body_inv in Hb as (_ & _ & Hr1 & _). congruence.
      + intros r Hr.
        destruct (loop_body_records _ _ _ _ _ _ _ Hb Hr)
          as [Hold|(s & t & x & Hs & Hin & Hge & _ & _ & Hend & Hx & _)];
          [now apply HP|].
        rewrite Hx, Hend. split; [exact Hge|].
        rewrite Hrows in Hs. exact (explosiveness_In_observed _ _ _ _ _ _ _ _ Hm Hs Hin).
    - split; [reflexivity|intros r []]. }
  split; [intros r Hr; now apply Hrec|].
  intros ep Hep. apply aggregate_events_In in Hep as (g & Hne & Heq & Hall).
  assert (Hsig : forall x, In x (map intensity g) -> abs_ge x thr = true).
  { intros x Hx. apply in_map_iff in Hx as (r & <- & Hr).
    apply Hrec. now apply Hall. }
  assert (Hnn : forall x, In x (map intensity g) -> is_nan x = false).
  { intros x Hx. eapply abs_ge_not_nan. now apply Hsig. }
  assert (Hne' : map intensity g <> []) by (destruct g; [congruence|discriminate]).
  split; [|split].
  - destruct (aggregate_end_time_In (ep_build_up_start_time ep) g Hne) as (r & Hr & He).
    rewrite <- Heq in He. rewrite He. apply Hrec. now apply Hall.
  - rewrite Heq. simpl. apply Hsig. now apply agg_max_In.
  - rewrite Heq. simpl. apply Hsig. now apply agg_min_In.
Qed.

Lemma X3_records_are_significant_witness :
  exists st,
    detect 2880 swing_game (1 # 10) 2 10 = Returns st /\
    forall r, In r (momentumEvents st) ->
      abs_ge (intensity r) (1 # 10) = true /\ end_time r <= py_int 11.
Proof.
  eexists. split; [vm_compute; reflexivity|].
  refine (proj1 (X3_records_are_significant 2880 swing_game (1 # 10) 2 10 11 _ _ _)).
  - reflexivity.
  - vm_compute. reflexivity.
Defined.

(** * Further properties of the interval categorizer *)

(** ** Floor division by a positive width *)

Lemma Qfloor_unique (x : Q) (z : Z) :
  (inject_Z z <= x)%Q -> (x < inject_Z (z + 1))%Q -> Qfloor x = z.
Proof.
  intros Hle Hlt.
  pose proof (Qfloor_resp_le _ _ Hle) as H1. rewrite Qfloor_Z in H1.
  pose proof (Qle_lt_trans _ _ _ (Qfloor_le x) Hlt) as H2.
  rewrite <- Zlt_Qlt in H2. lia.
Qed.

Lemma width_pos (w : positive) : (0 < inject_Z (Zpos w))%Q.
Proof. rewrite <- (Zlt_Qlt 0). lia. Qed.

Lemma floordiv_bounds (x : Q) (w : positive) :
  (inject_Z (Zpos w * floordiv x w) <= x)%Q /\
  (x < inject_Z (Zpos w * (floordiv x w + 1)))%Q.
Proof.
  unfold floordiv. set (W := inject_Z (Zpos w)).
  assert (HW : (0 < W)%Q) by apply width_pos.
  assert (Hx : (x == (x / W) * W)%Q).
  { field. intro E. rewrite E in HW. now apply Qlt_irrefl in HW. }
  rewrite !inject_Z_mult. fold W. split.
  - rewrite Hx at 2. rewrite Qmult_comm.
    apply Qmult_le_compat_r; [apply Qfloor_le|now apply Qlt_le_weak].
  - rewrite Hx at 1. rewrite (Qmult_comm W).
    apply Qmult_lt_compat_r; [exact HW|apply Qlt_floor].
Qed.

Lemma floordiv_unique (x : Q) (w : positive) (k : Z) :
  (inject_Z (Zpos w * k) <= x)%Q -> (x < inject_Z (Zpos w * (k + 1)))%Q ->
  floordiv x w = k.
Proof.
  intros Hle Hlt. unfold floordiv. set (W := inject_Z (Zpos w)).
  assert (HW : (0 < W)%Q) by apply width_pos.
  rewrite inject_Z_mult in Hle, Hlt. fold W in Hle, Hlt.
  apply Qfloor_unique.
  - apply Qle_shift_div_l; [exact HW|]. now rewrite Qmult_comm.
  - apply Qlt_shift_div_r; [exact HW|]. now rewrite Qmult_comm.
Qed.

Lemma floordiv_comp (x y : Q) (w : positive) : (x == y)%Q -> floordiv x w = floordiv y w.
Proof. intros H. unfold floordiv. now rewrite H. Qed.

(** When the last clock is a multiple of the width, the index line 196
    assigns to the rows at that clock is the one they already have. *)
Lemma reassigned_index_is_same (w : positive) (m c : Q) :
  divides w m = true -> (c == m)%Q ->
  floordiv m w = floordiv (c - 1) w + 1.
Proof.
  unfold divides. intros Hd Hc. apply Qeq_bool_iff in Hd.
  set (k := floordiv m w) in *.
  assert (Hm : (m == inject_Z (Zpos w * k))%Q).
  { rewrite <- (Qplus_0_r (inject_Z (Zpos w * k))), <- Hd. ring. }
  assert (Hc1 : (c - 1 == inject_Z (Zpos w * k - 1))%Q).
  { rewrite Hc, Hm. unfold Zminus. rewrite inject_Z_plus. reflexivity. }
  rewrite (floordiv_comp _ _ w Hc1).
  rewrite (floordiv_unique _ w (k - 1)); [lia| |].
  - rewrite <- Zle_Qle. lia.
  - rewrite <- Zlt_Qlt. lia.
Qed.

Lemma time_window_of_index (w : positive) (m : Q) (e : Event) :
  time_window_of w m e =
  if floordiv (eventClock e - 1) w + 1 =? 0 then 1
  else floordiv (eventClock e - 1) w + 1.
Proof.
  unfold time_window_of, window_of.
  destruct (divides w m && Qeq_bool (eventClock e) m) eqn:E.
  - apply andb_true_iff in E as [Hd Hc]. apply Qeq_bool_iff in Hc.
    rewrite (reassigned_index_is_same w m (eventClock e) Hd Hc).
    destruct (_ =? 0); reflexivity.
  - destruct (_ =? 0); reflexivity.
Qed.

(** X4: the interval index of an event depends on its own clock and the
    width only, not on the last clock of the game (the reassignment of line
    196 never changes an index): it is [floor((clock - 1) / width) + 1], or
    1 when that is 0.  For an event at a whole second [c >= 1] it is the
    integer quotient [(c - 1) // width + 1]. *)
Theorem X4_index_ignores_last_clock (w : positive) (m : Q) (e : Event) :
  (forall m', time_window_of w m e = time_window_of w m' e) /\
  time_window_of w m e =
    (if floordiv (eventClock e - 1) w + 1 =? 0 then 1
     else floordiv (eventClock e - 1) w + 1) /\
  (forall c, 1 <= c -> (eventClock e == inject_Z c)%Q ->
             time_window_of w m e = (c - 1) / Zpos w + 1).
Proof.
  split; [|split].
  - intros m'. now rewrite !time_window_of_index.
  - apply time_window_of_index.
  - intros c Hc Hclock. rewrite time_window_of_index.
    assert (Hf : floordiv (eventClock e - 1) w = (c - 1) / Zpos w).
    { unfold floordiv. rewrite Zdiv_Qdiv. apply Qfloor_comp.
      rewrite Hclock. unfold Zminus. rewrite inject_Z_plus. reflexivity. }
    rewrite Hf.
    assert (0 <= (c - 1) / Zpos w) by (apply Z.div_pos; lia).
    destruct ((c - 1) / Zpos w + 1 =? 0) eqn:E; [apply Z.eqb_eq in E; lia|reflexivity].
Qed.

(** ** Windows and labels *)

Lemma clock_max_ge (es : list Event) (m : Q) :
  clock_max es = Some m -> forall e, In e es -> (eventClock e <= m)%Q.
Proof.
  destruct es as [|e0 es]; [discriminate|]. simpl. intros [= <-].
  assert (H : forall l a,
             (a <= fold_left (fun m x => if Qle_bool m (eventClock x)
                                         then eventClock x else m) l a)%Q /\
             forall e, In e l ->
               (eventClock e <= fold_left (fun m x => if Qle_bool m (eventClock x)
                                                      then eventClock x else m) l a)%Q).
  { induction l as [|x l IH]; intros a; simpl.
    - split; [apply Qle_refl|intros e []].
    - destruct (Qle_bool a (eventClock x)) eqn:E.
      + apply Qle_bool_iff in E. destruct (IH (eventClock x)) as [H1 H2]. split.
        * eapply Qle_trans; eassumption.
        * intros e [<-|He]; [exact H1|now apply H2].
      + assert (Hlt : (eventClock x <= a)%Q).
        { apply Qlt_le_weak, Qnot_le_lt. intro C. apply Qle_bool_iff in C. congruence. }
        destruct (IH a) as [H1 H2]. split; [exact H1|].
        intros e [<-|He]; [eapply Qle_trans; eassumption|now apply H2]. }
  destruct (H es (eventClock e0)) as [H1 H2].
  intros e [<-|He]; [exact H1|now apply H2].
Qed.

(** The window of an event at a clock that is not negative: its index is
    at least 1, it starts at [(index - 1) * width], it is not empty, and the
    clock lies from its start to less than one second past its end. *)
Lemma window_of_bounds (w : positive) (m : Q) (e : Event) (tw : Z) (ws we : Q) :
  (0 <= eventClock e)%Q -> (eventClock e <= m)%Q ->
  window_of w m e = (tw, ws, we) ->
  1 <= tw /\ (ws == inject_Z ((tw - 1) * Zpos w))%Q /\ (ws < we)%Q /\
  (we <= inject_Z (tw * Zpos w))%Q /\
  (ws <= eventClock e)%Q /\ (eventClock e < we + 1)%Q.
Proof.
  intros H0 Hm. unfold window_of.
  set (c := eventClock e) in *.
  set (tw0 := floordiv (c - 1) w + 1).
  assert (Htw1 : (if divides w m && Qeq_bool c m then floordiv m w else tw0) = tw0).
  { destruct (divides w m && Qeq_bool c m) eqn:E; [|reflexivity].
    apply andb_true_iff in E as [Hd Hc]. apply Qeq_bool_iff in Hc.
    apply (reassigned_index_is_same w m c Hd Hc). }
  rewrite Htw1.
  destruct (floordiv_bounds (c - 1) w) as [Hlo Hhi].
  replace (floordiv (c - 1) w) with (tw0 - 1) in Hlo, Hhi by (unfold tw0; lia).
  replace (tw0 - 1 + 1) with tw0 in Hhi by lia.
  rewrite inject_Z_mult in Hlo, Hhi.
  pose proof (width_pos w) as HW.
  assert (Hnn : 0 <= tw0).
  { assert (H : (inject_Z (-1) < inject_Z (Zpos w * tw0))%Q).
    { rewrite inject_Z_mult. eapply Qle_lt_trans; [|exact Hhi].
      change (inject_Z (-1)) with (0 - 1)%Q. lra. }
    rewrite <- Zlt_Qlt in H. nia. }
  destruct (tw0 =? 0) eqn:E0.
  - apply Z.eqb_eq in E0. intros [= <- <- <-].
    rewrite E0 in Hhi. change (inject_Z 0) with 0%Q in Hhi.
    assert (H1w : (1 <= inject_Z (Zpos w))%Q) by (rewrite <- (Zle_Qle 1); lia).
    split; [lia|]. split; [simpl; reflexivity|]. split; [exact HW|].
    split; [rewrite Z.mul_1_l; apply Qle_refl|]. split; [exact H0|lra].
  - apply Z.eqb_neq in E0. intros [= <- <- <-].
    assert (Hws : (inject_Z ((tw0 - 1) * Zpos w) == inject_Z (Zpos w) * inject_Z (tw0 - 1))%Q).
    { rewrite <- inject_Z_mult. rewrite Z.mul_comm. reflexivity. }
    assert (Hwe : (inject_Z (tw0 * Zpos w) == inject_Z (Zpos w) * inject_Z tw0)%Q).
    { rewrite <- inject_Z_mult. rewrite Z.mul_comm. reflexivity. }
    assert (Hstep : (inject_Z (Zpos w) * inject_Z (tw0 - 1) <
                     inject_Z (Zpos w) * inject_Z tw0)%Q).
    { rewrite <- !inject_Z_mult, <- Zlt_Qlt. nia. }
    split; [lia|]. split; [reflexivity|].
    destruct (Qle_bool (inject_Z (tw0 * Zpos w)) m) eqn:Em.
    + rewrite Hws, Hwe. repeat split; try lra.
    + assert (Hgt : (m < inject_Z (tw0 * Zpos w))%Q).
      { apply Qnot_le_lt. intro C. apply Qle_bool_iff in C. congruence. }
      rewrite Hws, Hwe. rewrite Hwe in Hgt. repeat split; lra.
Qed.

Lemma cut_Fin (q : Q) :
  exists k, cut (Fin q) = Some k /\ 1 <= k <= 10 /\
            (6 <= k <-> (0 < q)%Q) /\ ((q == 0)%Q -> k = 5).
Proof.
  unfold cut, leQ.
  repeat match goal with
         | |- context [Qle_bool ?a ?b] =>
             let E := fresh "E" in
             destruct (Qle_bool a b) eqn:E;
             [apply Qle_bool_iff in E|
              assert (b < a)%Q by (apply Qnot_le_lt; intro C;
                                   apply Qle_bool_iff in C; congruence);
              clear E]
         end;
    eexists; (split; [reflexivity|]); (split; [lia|]);
    (split; [split; [intros; try lia; lra|intros; try lia; lra]|intros; try lia; lra]).
Qed.

Lemma fdiv_pos_den (num den : Q) :
  (0 < den)%Q ->
  exists q, fdiv num den = Fin q /\ ((0 < q)%Q <-> (0 < num)%Q) /\
            ((num == 0)%Q -> (q == 0)%Q).
Proof.
  intros Hd. unfold fdiv.
  destruct (Qeq_bool den 0) eqn:E.
  - apply Qeq_bool_iff in E. rewrite E in Hd. now apply Qlt_irrefl in Hd.
  - exists (Qred (num / den)). split; [reflexivity|].
    rewrite Qred_correct.
    assert (Hi : (0 < / den)%Q) by now apply Qinv_lt_0_compat.
    unfold Qdiv. split; [split; intros H|intros H].
    + destruct (Qlt_le_dec 0 num) as [Hn|Hn]; [exact Hn|exfalso].
      assert (Hle : (num * / den <= 0)%Q).
      { rewrite <- (Qmult_0_l (/ den)).
        apply Qmult_le_compat_r; [exact Hn|now apply Qlt_le_weak]. }
      exact (Qlt_not_le _ _ H Hle).
    + rewrite <- (Qmult_0_l (/ den)). now apply Qmult_lt_compat_r.
    + rewrite H. apply Qmult_0_l.
Qed.

Lemma key_compare_refl (a : Z * Z) : key_compare a a = Eq.
Proof. unfold key_compare. now rewrite !Z.compare_refl. Qed.

(** The groups of a table grouped on two integer columns. *)
Lemma groupby_pair_whole {A : Type} (key : A -> Z * Z) (l : list A) (k : Z * Z)
  (g : list A) :
  In (k, g) (groupby key_compare key l) ->
  g = filter (fun a => (fst (key a) =? fst k) && (snd (key a) =? snd k)) l.
Proof.
  intros H.
  destruct (groupby_whole_groups key_compare key key_compare_eq key_compare_refl
              key_compare_gt_lt key_compare_trans l) as (_ & _ & Hg).
  rewrite (Hg k g H). apply filter_ext. intros a.
  destruct (key a) as [a1 a2], k as [k1 k2]. unfold key_compare. simpl.
  destruct (Z.compare_spec k1 a1) as [E1|E1|E1];
    [|symmetry; apply andb_false_iff; left; apply Z.eqb_neq; lia
     |symmetry; apply andb_false_iff; left; apply Z.eqb_neq; lia].
  subst a1. rewrite Z.eqb_refl. simpl.
  destruct (Z.compare_spec k2 a2) as [E2|E2|E2];
    symmetry; [apply Z.eqb_eq|apply Z.eqb_neq|apply Z.eqb_neq]; lia.
Qed.

(** X5: for a game whose clocks are not negative, every row the categorizer
    returns stands for the group of all the events of one game and one
    interval, in the order of the table; the group holds an event and the
    index of the interval is at least 1; the row's intensity is a finite
    number (the divisor [window_end - window_start] is never 0) and its
    category is one of 1 to 10; the category is 6 or more exactly when the
    score differential of the last event of the group exceeds that of the
    first, and it is 5, with intensity 0, when the two are equal. *)
Theorem X5_labels_are_finite (es : list Event) (w : positive) (m : Q)
  (rs : list IntervalRow) (r : IntervalRow) :
  (forall e, In e es -> (0 <= eventClock e)%Q) ->
  clock_max es = Some m ->
  calculateIntervalExplosivenessCategorical es w = Some rs ->
  In r rs ->
  exists e0 g q k,
    filter (fun e => (gameid e =? iv_gameid r)
                     && (time_window_of w m e =? iv_time_window r)) es = e0 :: g /\
    (forall e, In e (e0 :: g) ->
       In e es /\ gameid e = iv_gameid r /\ time_window_of w m e = iv_time_window r) /\
    1 <= iv_time_window r /\
    momentum_intensity r = Fin q /\
    momentum_category r = Some k /\ 1 <= k <= 10 /\
    (6 <= k <-> diff_of e0 < last (map diff_of (e0 :: g)) 0) /\
    (last (map diff_of (e0 :: g)) 0 = diff_of e0 -> (q == 0)%Q /\ k = 5).
Proof.
  intros Hpos Hm Hc Hr.
  unfold calculateIntervalExplosivenessCategorical in Hc. rewrite Hm in Hc.
  injection Hc as <-. apply in_map_iff in Hr as ([[gid tw] g] & <- & Hg).
  pose proof (groupby_pair_whole _ _ _ _ Hg) as Hwhole. cbn [fst snd] in Hwhole.
  apply groupby_sound in Hg as (Hne & _ & Hall).
  destruct g as [|e0 g]; [congruence|].
  assert (Hmem : forall e, In e (e0 :: g) ->
            In e es /\ gameid e = gid /\ time_window_of w m e = tw).
  { intros e He. destruct (Hall e He) as [Hin [Hk|Hk]].
    - injection Hk as <- <-. now repeat split.
    - apply key_compare_eq in Hk. injection Hk as <- <-. now repeat split. }
  destruct (Hmem e0 (or_introl eq_refl)) as (Hin0 & _ & Htw0).
  destruct (window_of w m e0) as [[tw' ws] we] eqn:Ew.
  destruct (window_of_bounds w m e0 tw' ws we (Hpos e0 Hin0)
              (clock_max_ge es m Hm e0 Hin0) Ew) as (Htw & _ & Hlt & _).
  assert (Htw' : tw' = tw).
  { unfold time_window_of in Htw0. now rewrite Ew in Htw0. }
  subst tw'.
  assert (Hden : (0 < we - ws)%Q) by lra.
  destruct (fdiv_pos_den (inject_Z (last (map diff_of (e0 :: g)) 0 - diff_of e0))
              (we - ws) Hden) as (q & Hq & Hsign & Hzero).
  destruct (cut_Fin q) as (k & Hk & Hrange & Hk6 & Hk5).
  exists e0, g, q, k. cbn [iv_gameid iv_time_window momentum_intensity
                           momentum_category fst snd].
  assert (Hint : group_intensity w m (e0 :: g) = Fin q).
  { unfold group_intensity. rewrite Ew. exact Hq. }
  rewrite Hint.
  split; [now symmetry|].
  split; [exact Hmem|]. split; [exact Htw|]. split; [reflexivity|].
  split; [exact Hk|]. split; [exact Hrange|]. split.
  - rewrite Hk6, Hsign. rewrite <- (Zlt_Qlt 0). lia.
  - intros Heq. assert (Hq0 : (q == 0)%Q).
    { apply Hzero. rewrite Heq, Z.sub_diag. reflexivity. }
    split; [exact Hq0|now apply Hk5].
Qed.

Lemma X5_labels_are_finite_witness :
  calculateIntervalExplosivenessCategorical (rows swing_game) 12 =
    Some [mkInterval 1 1 (Fin (-6 # 11)) (Some 1)] /\
  exists e0 g q k,
    filter (fun e => (gameid e =? 1) && (time_window_of 12 11 e =? 1))
           (rows swing_game) = e0 :: g /\
    (forall e, In e (e0 :: g) ->
       In e (rows swing_game) /\ gameid e = 1 /\ time_window_of 12 11 e = 1) /\
    1 <= 1 /\
    Fin (-6 # 11) = Fin q /\
    Some 1 = Some k /\ 1 <= k <= 10 /\
    (6 <= k <-> diff_of e0 < last (map diff_of (e0 :: g)) 0) /\
    (last (map diff_of (e0 :: g)) 0 = diff_of e0 -> (q == 0)%Q /\ k = 5).
Proof.
  split; [vm_compute; reflexivity|].
  refine (X5_labels_are_finite (rows swing_game) 12 11 _
            (mkInterval 1 1 (Fin (-6 # 11)) (Some 1)) _ _ _ _).
  - intros e He. simpl in He.
    repeat (destruct He as [<-|He]; [discriminate|]). destruct He.
  - reflexivity.
  - vm_compute. reflexivity.
  - now left.
Defined.

(** ** How many rows *)

Lemma sorted_length_bound (l : list Z) (a b : Z) :
  StronglySorted Z.lt l -> (forall x, In x l -> a <= x <= b) ->
  Z.of_nat (List.length l) <= Z.max 0 (b - a + 1).
Proof.
  intros Hs. revert a. induction Hs as [|x l Hs IH Hall]; intros a Hin.
  - simpl. lia.
  - rewrite Forall_forall in Hall.
    assert (Hx : a <= x <= b) by (apply Hin; now left).
    specialize (IH (x + 1)).
    assert (Z.of_nat (List.length l) <= Z.max 0 (b - (x + 1) + 1)).
    { apply IH. intros y Hy. specialize (Hall y Hy).
      specialize (Hin y (or_intror Hy)). lia. }
    simpl List.length. lia.
Qed.

Lemma index_le_ceiling (w : positive) (m c : Q) :
  (c <= m)%Q -> floordiv (c - 1) w + 1 <= Qceiling (m / inject_Z (Zpos w)).
Proof.
  intros Hc. unfold floordiv. set (W := inject_Z (Zpos w)).
  assert (HW : (0 < / W)%Q) by (apply Qinv_lt_0_compat, width_pos).
  assert (Hlt : ((c - 1) / W < m / W)%Q).
  { unfold Qdiv. apply Qmult_lt_compat_r; [exact HW|lra]. }
  pose proof (Qfloor_le ((c - 1) / W)) as H1.
  pose proof (Qle_ceiling (m / W)) as H2.
  assert (H : (inject_Z (Qfloor ((c - 1) / W)) < inject_Z (Qceiling (m / W)))%Q) by lra.
  rewrite <- Zlt_Qlt in H. lia.
Qed.

(** X6: for a table of one game whose clocks are not negative, every
    interval index the categorizer returns lies between 1 and
    [ceil(max eventClock / width)] (1 when all events are at clock 0), and
    the number of rows is at least 1 and at most that bound. *)
Theorem X6_row_count_bound (es : list Event) (w : positive) (m : Q)
  (rs : list IntervalRow) :
  (forall e, In e es -> (0 <= eventClock e)%Q) ->
  (forall e e', In e es -> In e' es -> gameid e = gameid e') ->
  clock_max es = Some m ->
  calculateIntervalExplosivenessCategorical es w = Some rs ->
  (forall r, In r rs ->
     1 <= iv_time_window r <= Z.max 1 (Qceiling (m / inject_Z (Zpos w)))) /\
  1 <= Z.of_nat (List.length rs) <= Z.max 1 (Qceiling (m / inject_Z (Zpos w))).
Proof.
  intros Hpos Hgame Hm Hc.
  unfold calculateIntervalExplosivenessCategorical in Hc. rewrite Hm in Hc.
  injection Hc as <-.
  set (keyf := fun e : Event => (gameid e, time_window_of w m e)).
  set (gs := groupby key_compare keyf es).
  set (K := Z.max 1 (Qceiling (m / inject_Z (Zpos w)))).
  assert (Hkeys : forall k, In k (map fst gs) ->
            exists e, In e es /\ keyf e = k).
  { intros k Hk. now apply (groupby_keys_In key_compare keyf key_compare_eq) in Hk. }
  assert (Hidx : forall e, In e es -> 1 <= time_window_of w m e <= K).
  { intros e He. rewrite time_window_of_index.
    pose proof (index_le_ceiling w m (eventClock e) (clock_max_ge es m Hm e He)) as Hup.
    destruct (window_of w m e) as [[tw ws] we] eqn:Ew.
    pose proof (window_of_bounds w m e tw ws we (Hpos e He)
                  (clock_max_ge es m Hm e He) Ew) as (Htw & _).
    assert (Htw' : time_window_of w m e = tw) by (unfold time_window_of; now rewrite Ew).
    rewrite time_window_of_index in Htw'.
    destruct (floordiv (eventClock e - 1) w + 1 =? 0) eqn:E0; unfold K; lia. }
  assert (Hsorted : StronglySorted (key_lt key_compare) (map fst gs)).
  { apply Sorted_StronglySorted; [exact key_compare_trans|].
    apply groupby_keys_sorted. exact key_compare_gt_lt. }
  assert (Htws : StronglySorted Z.lt (map snd (map fst gs))).
  { apply (StronglySorted_map_rel (key_lt key_compare)); [|exact Hsorted].
    intros a b Ha Hb Hab.
    destruct (Hkeys a Ha) as (ea & Hea & <-).
    destruct (Hkeys b Hb) as (eb & Heb & <-).
    apply key_compare_lt in Hab. unfold keyf in *. simpl in *.
    rewrite (Hgame ea eb Hea Heb) in Hab. lia. }
  assert (Hlen : Z.of_nat (List.length (map snd (map fst gs))) <= Z.max 0 (K - 1 + 1)).
  { apply sorted_length_bound; [exact Htws|].
    intros x Hx. apply in_map_iff in Hx as (k & <- & Hk).
    destruct (Hkeys k Hk) as (e & He & <-). simpl. now apply Hidx. }
  rewrite !length_map in Hlen.
  split.
  - intros r Hr. apply in_map_iff in Hr as (kg & <- & Hkg). simpl.
    destruct (Hkeys (fst kg) (in_map fst _ _ Hkg)) as (e & He & Hk).
    rewrite <- Hk. simpl. now apply Hidx.
  - rewrite length_map. split; [|unfold K in *; lia].
    destruct es as [|e0 es']; [discriminate Hm|].
    assert (Hin : In (keyf e0) (map fst gs)).
    { apply (groupby_keys_In key_compare keyf key_compare_eq).
      exists e0. split; [now left|reflexivity]. }
    destruct gs; [destruct Hin|simpl; lia].
Qed.

Lemma X6_row_count_bound_witness :
  exists rs,
    calculateIntervalExplosivenessCategorical sparse_game 120 = Some rs /\
    1 <= Z.of_nat (List.length rs) <= Z.max 1 (Qceiling (500 / inject_Z 120)).
Proof.
  eexists. split; [vm_compute; reflexivity|].
  refine (proj2 (X6_row_count_bound sparse_game 120 500 _ _ _ _ _)).
  - intros e He. simpl in He.
    repeat (destruct He as [<-|He]; [discriminate|]). destruct He.
  - intros e e' He He'. simpl in He, He'.
    repeat (destruct He as [<-|He]); repeat (destruct He' as [<-|He']);
      reflexivity || contradiction.
  - reflexivity.
  - vm_compute. reflexivity.
Defined.

(** ** The categories are ordered like the intensities *)

Ltac split_leQ :=
  repeat match goal with
         | |- context [Qle_bool ?a ?b] =>
             let E := fresh "E" in
             destruct (Qle_bool a b) eqn:E;
             [apply Qle_bool_iff in E|
              assert (b < a)%Q
                by (let C := fresh "C" in
                    apply Qnot_le_lt; intro C;
                    apply Qle_bool_iff in C; congruence);
              clear E]
         end.

(** X7: the category is monotone in the intensity: of two finite
    intensities the larger never gets the smaller category, and an infinite
    positive intensity gets the top category 10. *)
Theorem X7_category_is_monotone (a b : Q) (ka kb : Z) :
  (a <= b)%Q ->
  cut (Fin a) = Some ka -> cut (Fin b) = Some kb ->
  ka <= kb /\ kb <= 10 /\ cut PInf = Some 10.
Proof.
  intros Hab. unfold cut, leQ. split_leQ; intros [= <-]; split_leQ; intros [= <-];
    (split; [try lia; exfalso; lra|split; [lia|reflexivity]]).
Qed.

Lemma X7_category_is_monotone_witness :
  4 <= 7 /\ 7 <= 10 /\ cut PInf = Some 10.
Proof.
  apply (X7_category_is_monotone (-3 # 100) (3 # 100) 4 7).
  - discriminate.
  - reflexivity.
  - reflexivity.
Defined.


(** * The season drivers *)

Lemma unique_In (l : list Z) (x : Z) : In x (unique l) <-> In x l.
Proof.
  induction l as [|a l IH]; simpl; [tauto|].
  rewrite filter_In, IH. split.
  - intros [H|[H _]]; [now left|now right].
  - intros [H|H]; [now left|].
    destruct (Z.eq_dec a x) as [E|E]; [now left|right].
    split; [exact H|]. apply negb_true_iff, Z.eqb_neq. congruence.
Qed.

Lemma insert_row_In (x y : SeasonRow) (l : list SeasonRow) :
  In y (insert_row x l) <-> y = x \/ In y l.
Proof.
  induction l as [|a l IH]; simpl.
  - intuition congruence.
  - destruct (row_lt a x); simpl; [rewrite IH|]; intuition congruence.
Qed.

Lemma sort_rows_In (y : SeasonRow) (l : list SeasonRow) :
  In y (sort_rows l) <-> In y l.
Proof.
  unfold sort_rows. induction l as [|a l IH]; simpl; [tauto|].
  rewrite insert_row_In, IH. intuition congruence.
Qed.

Lemma game_rows_In (season : list SeasonRow) (game : Z) (r : SeasonRow) :
  In r (game_rows season game) <-> In r season /\ gameid (sr_event r) = game.
Proof. unfold game_rows. rewrite filter_In, Z.eqb_eq. tauto. Qed.

Lemma game_rows_nonempty (season : list SeasonRow) (game : Z) :
  In game (unique (map (fun r => gameid (sr_event r)) season)) ->
  game_rows season game <> [].
Proof.
  rewrite unique_In, in_map_iff. intros (r & Hg & Hr) E.
  assert (H : In r (game_rows season game)) by (apply game_rows_In; now split).
  rewrite E in H. destruct H.
Qed.

(** The events handed to the per-game functions for one game: the rows of
    that game, and nothing else. *)
Lemma game_events_In (season : list SeasonRow) (game : Z) (e : Event) :
  In e (map sr_event (sort_rows (game_rows season game))) ->
  gameid e = game /\ exists r, In r season /\ sr_event r = e.
Proof.
  rewrite in_map_iff. intros (r & <- & Hr).
  apply sort_rows_In, game_rows_In in Hr as [Hin Hg]. split; [exact Hg|eauto].
Qed.

Lemma game_events_nonempty (season : list SeasonRow) (game : Z) :
  game_rows season game <> [] ->
  map sr_event (sort_rows (game_rows season game)) <> [].
Proof.
  intros H E. destruct (game_rows season game) as [|r l] eqn:Eg; [congruence|].
  assert (Hin : In (sr_event r) (map sr_event (sort_rows (r :: l)))).
  { apply in_map, sort_rows_In. now left. }
  rewrite E in Hin. destruct Hin.
Qed.

Lemma gameid_max_const (es : list Event) (g : Z) :
  es <> [] -> (forall e, In e es -> gameid e = g) -> gameid_max es = g.
Proof.
  destruct es as [|e0 es]; [congruence|]. intros _ H. simpl.
  rewrite (H e0 (or_introl eq_refl)).
  assert (Hes : forall e, In e es -> gameid e = g) by (intros; apply H; now right).
  clear H. induction es as [|e es IH]; simpl; [reflexivity|].
  rewrite (Hes e (or_introl eq_refl)), Z.max_id. apply IH.
  intros; apply Hes; now right.
Qed.

(** The label and the game of an episode of the detector. *)
Lemma episode_label_and_game (fuel : nat) (df : PbpFrame) (thr : Q) (tmin tmax : Z)
  (st : ScanState) (ep : Episode) :
  detect fuel df thr tmin tmax = Returns st ->
  In ep (aggregate_events (momentumEvents st)) ->
  (ep_home_or_away ep = "Home Momentum"%string \/
   ep_home_or_away ep = "Away Momentum"%string) /\
  ep_game_id ep = gameid_max (rows df).
Proof.
  intros Hd Hep.
  assert (Hrec : forall r, In r (momentumEvents st) ->
            home_or_away r = side_of (intensity r) /\
            game_id r = gameid_max (rows df)).
  { unfold detect in Hd. destruct (clock_max (rows df)) as [m|]; [|discriminate].
    revert Hd.
    apply (scan_invariant _ _ _ _ _
             (fun s => forall r, In r (momentumEvents s) ->
                         home_or_away r = side_of (intensity r) /\
                         game_id r = gameid_max (rows df))).
    - intros st0 st1 HP _ Hb r Hr.
      destruct (loop_body_records _ _ _ _ _ _ _ Hb Hr)
        as [Hold|(s & t & x & _ & _ & _ & Hg & _ & _ & Hx & Hs)]; [now apply HP|].
      split; [now rewrite Hs, Hx|exact Hg].
    - intros r []. }
  apply aggregate_events_In in Hep as (g & Hne & Heq & Hall).
  split.
  - rewrite Heq at 1 2. rewrite aggregate_side; [|exact Hne|].
    + destruct (existsb _ g); [now left|now right].
    + intros r Hr. apply Hrec. now apply Hall.
  - rewrite Heq. destruct g as [|r0 g]; [congruence|]. simpl.
    apply Hrec. apply Hall. now left.
Qed.

(** X8: [momentumTeamId] never falls through to [None] on the episodes of
    the detector: every episode is labelled Home or Away and is mapped to the
    home or to the away team id accordingly. *)
Theorem X8_team_id_is_defined (fuel : nat) (df : PbpFrame) (thr : Q) (tmin tmax : Z)
  (st : ScanState) (ep : Episode) (home away : Z) :
  detect fuel df thr tmin tmax = Returns st ->
  In ep (aggregate_events (momentumEvents st)) ->
  (ep_home_or_away ep = "Home Momentum"%string /\
   momentumTeamId (ep_home_or_away ep) home away = Some home) \/
  (ep_home_or_away ep = "Away Momentum"%string /\
   momentumTeamId (ep_home_or_away ep) home away = Some away).
Proof.
  intros Hd Hep.
  destruct (episode_label_and_game _ _ _ _ _ _ _ Hd Hep) as [[H|H] _]; rewrite H.
  - left. split; reflexivity.
  - right. split; reflexivity.
Qed.

Lemma X8_team_id_is_defined_witness :
  ("Home Momentum"%string = "Home Momentum"%string /\
   momentumTeamId "Home Momentum" 30 40 = Some 30) \/
  ("Home Momentum"%string = "Away Momentum"%string /\
   momentumTeamId "Home Momentum" 30 40 = Some 40).
Proof.
  refine (X8_team_id_is_defined 2880 swing_game (1 # 10) 2 10 _
            (mkEpisode 1 1 (Some 5) 9 (Some 4)
                       (Fin (5854679515581645 # 18014398509481984)) (Fin (3 # 4))
                       (Fin (-3 # 8)) "Home Momentum") 30 40 _ _).
  - vm_compute. reflexivity.
  - vm_compute. now left.
Defined.

Lemma findGame_returns_inv (fuel : nat) (df : PbpFrame) (thr : Q) (tmin tmax : Z)
  (df' : PbpFrame) (eps : list Episode) :
  findGameMomentumEvents fuel df thr tmin tmax = Returns (df', eps) ->
  exists st, detect fuel df thr tmin tmax = Returns st /\
             eps = aggregate_events (momentumEvents st).
Proof.
  unfold findGameMomentumEvents.
  destruct (detect fuel df thr tmin tmax) as [st| |]; try discriminate.
  intros [= _ <-]. eauto.
Qed.

Lemma season_momentum_loop_inv (fuel : nat) (season : list SeasonRow) (thr : Q)
  (tmin tmax : Z) (Good : SeasonEpisode -> Prop) :
  (forall game r0 rest st ep,
      game_rows season game = r0 :: rest ->
      detect fuel (mkFrame (map sr_event (sort_rows (game_rows season game))) None)
             thr tmin tmax = Returns st ->
      In ep (aggregate_events (momentumEvents st)) ->
      Good (mkSeasonEpisode ep (momentumTeamId (ep_home_or_away ep)
                                               (HOME_TEAM_ID r0) (AWAY_TEAM_ID r0)))) ->
  forall ids acc out,
    (forall t, In t acc -> t <> [] /\ forall se, In se t -> Good se) ->
    season_momentum_loop fuel season thr tmin tmax ids acc = Returns out ->
    forall t, In t out -> t <> [] /\ forall se, In se t -> Good se.
Proof.
  intros Hgood. induction ids as [|game ids IH]; intros acc out Hacc; simpl.
  - now intros [= <-].
  - destruct (game_rows season game) as [|r0 rest] eqn:Eg; [discriminate|].
    rewrite <- Eg.
    destruct (findGameMomentumEvents _ _ _ _ _) as [[df' eps]| |] eqn:Ef;
      try discriminate.
    destruct eps as [|ep0 eps]; [now apply IH|].
    apply IH. intros t Ht. apply in_app_or in Ht as [Ht|[<-|[]]]; [now apply Hacc|].
    split; [discriminate|].
    intros se Hse. apply in_map_iff in Hse as (ep & <- & Hep).
    apply findGame_returns_inv in Ef as (st & Hd & Heps).
    rewrite Heps in Hep. now apply (Hgood game r0 rest st ep).
Qed.

(** X9: when [findSeasonMomentumEvents] returns, its table is not empty, and
    every row is an episode of one game of the season, labelled Home or
    Away, whose ['TEAM_ID'] is the ['HOME_TEAM_ID'] or the ['AWAY_TEAM_ID']
    of the first row of that game, never [None]. *)
Theorem X9_season_episodes (fuel : nat) (season : list SeasonRow) (thr : Q)
  (tmin tmax : Z) (l : list SeasonEpisode) :
  findSeasonMomentumEvents fuel season thr tmin tmax = Returns l ->
  l <> [] /\
  forall se, In se l ->
    exists r0 rest,
      game_rows season (ep_game_id (se_episode se)) = r0 :: rest /\
      ((ep_home_or_away (se_episode se) = "Home Momentum"%string /\
        TEAM_ID se = Some (HOME_TEAM_ID r0)) \/
       (ep_home_or_away (se_episode se) = "Away Momentum"%string /\
        TEAM_ID se = Some (AWAY_TEAM_ID r0))).
Proof.
  unfold findSeasonMomentumEvents.
  destruct (season_momentum_loop _ _ _ _ _ _ _) as [tables| |] eqn:El; try discriminate.
  intros Hc.
  pose proof (season_momentum_loop_inv fuel season thr tmin tmax
    (fun se => exists r0 rest,
       game_rows season (ep_game_id (se_episode se)) = r0 :: rest /\
       ((ep_home_or_away (se_episode se) = "Home Momentum"%string /\
         TEAM_ID se = Some (HOME_TEAM_ID r0)) \/
        (ep_home_or_away (se_episode se) = "Away Momentum"%string /\
         TEAM_ID se = Some (AWAY_TEAM_ID r0))))) as Hinv.
  assert (Htab : forall t, In t tables -> t <> [] /\ forall se, In se t ->
            exists r0 rest,
              game_rows season (ep_game_id (se_episode se)) = r0 :: rest /\
              ((ep_home_or_away (se_episode se) = "Home Momentum"%string /\
                TEAM_ID se = Some (HOME_TEAM_ID r0)) \/
               (ep_home_or_away (se_episode se) = "Away Momentum"%string /\
                TEAM_ID se = Some (AWAY_TEAM_ID r0)))).
  { refine (Hinv _ _ [] tables _ El); [|intros t []].
    intros game r0 rest st ep Eg Hd Hep. simpl.
    destruct (episode_label_and_game _ _ _ _ _ _ _ Hd Hep) as [Hlab Hgame].
    simpl in Hgame.
    assert (Hg : ep_game_id ep = game).
    { rewrite Hgame. apply gameid_max_const.
      - apply game_events_nonempty. rewrite Eg. discriminate.
      - intros e He. now apply game_events_In in He. }
    exists r0, rest. rewrite Hg. split; [exact Eg|].
    destruct Hlab as [H|H]; rewrite H; [left|right]; split; reflexivity. }
  destruct tables as [|t0 tables]; [discriminate|].
  injection Hc as <-. split.
  - destruct (Htab t0 (or_introl eq_refl)) as [Hne _].
    simpl. destruct t0; [congruence|discriminate].
  - intros se Hse.
    change (In se (List.concat (t0 :: tables))) in Hse.
    apply in_concat in Hse as (t & Ht & Hse).
    now apply (Htab t Ht).
Qed.

Lemma X9_season_episodes_witness :
  exists l,
    findSeasonMomentumEvents 2880 two_game_season (1 # 10) 2 10 = Returns l /\
    l <> [].
Proof.
  eexists. split; [vm_compute; reflexivity|].
  refine (proj1 (X9_season_episodes 2880 two_game_season (1 # 10) 2 10 _ _)).
  vm_compute. reflexivity.
Defined.

Lemma season_momentum_loop_quiet (fuel : nat) (season : list SeasonRow) (thr : Q)
  (tmin tmax : Z) :
  forall ids acc,
    (forall game, In game ids ->
       exists df',
         findGameMomentumEvents fuel
           (mkFrame (map sr_event (sort_rows (game_rows season game))) None)
           thr tmin tmax = Returns (df', [])) ->
    season_momentum_loop fuel season thr tmin tmax ids acc = Returns acc.
Proof.
  induction ids as [|game ids IH]; intros acc H; simpl; [reflexivity|].
  destruct (game_rows season game) as [|r0 rest] eqn:Eg.
  - destruct (H game (or_introl eq_refl)) as [df' Hf].
    rewrite Eg in Hf. discriminate Hf.
  - rewrite <- Eg. destruct (H game (or_introl eq_refl)) as [df' ->].
    apply IH. intros g Hg. apply H. now right.
Qed.

(** X10: [findSeasonMomentumEvents] raises, instead of returning an empty
    table, when no game of the season yields an episode: the list handed to
    [pd.concat] is then empty.  A season table without rows is one such
    case. *)
Theorem X10_season_without_episodes_raises (fuel : nat) (season : list SeasonRow)
  (thr : Q) (tmin tmax : Z) :
  (forall game, In game (unique (map (fun r => gameid (sr_event r)) season)) ->
     exists df',
       findGameMomentumEvents fuel
         (mkFrame (map sr_event (sort_rows (game_rows season game))) None)
         thr tmin tmax = Returns (df', [])) ->
  findSeasonMomentumEvents fuel season thr tmin tmax = Raises /\
  findSeasonMomentumEvents fuel [] thr tmin tmax = Raises.
Proof.
  intros H. unfold findSeasonMomentumEvents.
  rewrite (season_momentum_loop_quiet fuel season thr tmin tmax _ [] H).
  split; reflexivity.
Qed.

Lemma X10_season_without_episodes_raises_witness :
  findSeasonMomentumEvents 2880 quiet_season (1 # 2) 20 60 = Raises /\
  findSeasonMomentumEvents 2880 [] (1 # 2) 20 60 = Raises.
Proof.
  apply (X10_season_without_episodes_raises 2880 quiet_season (1 # 2) 20 60).
  intros game Hg. simpl in Hg. destruct Hg as [<-|[]].
  eexists. vm_compute. reflexivity.
Defined.

(** ** seasonIntervalExplosiveness *)

Lemma categorizer_of_game (es : list Event) (w : positive) (g : Z) :
  es <> [] -> (forall e, In e es -> gameid e = g) ->
  exists rs,
    calculateIntervalExplosivenessCategorical es w = Some rs /\
    rs <> [] /\ forall row, In row rs -> iv_gameid row = g.
Proof.
  intros Hne Hg. destruct (clock_max_some es Hne) as [m Hm].
  unfold calculateIntervalExplosivenessCategorical. rewrite Hm.
  eexists. split; [reflexivity|]. split.
  - destruct es as [|e0 es]; [congruence|].
    assert (Hin : In (gameid e0, time_window_of w m e0)
                     (map fst (groupby key_compare
                                 (fun e => (gameid e, time_window_of w m e))
                                 (e0 :: es)))).
    { apply (groupby_keys_In key_compare _ key_compare_eq).
      exists e0. split; [now left|reflexivity]. }
    intros E. apply map_eq_nil in E. rewrite E in Hin. destruct Hin.
  - intros row Hrow. apply in_map_iff in Hrow as ([k grp] & <- & Hk). simpl.
    apply groupby_sound in Hk as (_ & (a & Ha & Hka) & _).
    rewrite <- Hka. simpl. now apply Hg.
Qed.

Lemma Forall2_In_l {A B : Type} (R : A -> B -> Prop) (l : list A) (l' : list B) (a : A) :
  Forall2 R l l' -> In a l -> exists b, In b l' /\ R a b.
Proof.
  induction 1 as [|x y l l' Hxy H IH]; [intros []|].
  intros [<-|Ha]; [exists y; split; [now left|exact Hxy]|].
  destruct (IH Ha) as (b & Hb & Hab). exists b. split; [now right|exact Hab].
Qed.

Lemma Forall2_In_r {A B : Type} (R : A -> B -> Prop) (l : list A) (l' : list B) (b : B) :
  Forall2 R l l' -> In b l' -> exists a, In a l /\ R a b.
Proof.
  induction 1 as [|x y l l' Hxy H IH]; [intros []|].
  intros [<-|Hb]; [exists x; split; [now left|exact Hxy]|].
  destruct (IH Hb) as (a & Ha & Hab). exists a. split; [now right|exact Hab].
Qed.

Lemma season_interval_loop_spec (season : list SeasonRow) (w : positive) :
  forall ids acc,
    (forall g, In g ids -> game_rows season g <> []) ->
    exists tabs,
      season_interval_loop season w ids acc = Returns (acc ++ tabs) /\
      Forall2 (fun g t => t <> [] /\ forall row, In row t -> iv_gameid row = g)
              ids tabs.
Proof.
  induction ids as [|g ids IH]; intros acc Hids; simpl.
  - exists []. rewrite app_nil_r. split; [reflexivity|constructor].
  - destruct (categorizer_of_game
                (map sr_event (sort_rows (game_rows season g))) w g)
      as (rs & Hrs & Hne & Hall).
    + apply game_events_nonempty, Hids. now left.
    + intros e He. now apply game_events_In in He.
    + rewrite Hrs.
      destruct (IH (acc ++ [rs])) as (tabs & Hloop & Hf).
      { intros g' Hg'. apply Hids. now right. }
      exists (rs :: tabs). rewrite Hloop, <- app_assoc. split; [reflexivity|].
      constructor; [now split|exact Hf].
Qed.

(** X11: [seasonIntervalExplosiveness] raises on a season table without
    rows ([pd.concat] has nothing to concatenate); on any other table it
    returns, every game of the season has at least one row in the result,
    and every row of the result belongs to a game of the season. *)
Theorem X11_season_intervals (season : list SeasonRow) (w : positive) :
  seasonIntervalExplosiveness [] w = Raises /\
  (season <> [] ->
   exists l,
     seasonIntervalExplosiveness season w = Returns l /\
     (forall r0, In r0 season ->
        exists row, In row l /\ iv_gameid row = gameid (sr_event r0)) /\
     (forall row, In row l ->
        exists r0, In r0 season /\ gameid (sr_event r0) = iv_gameid row)).
Proof.
  split; [reflexivity|]. intros Hne.
  unfold seasonIntervalExplosiveness.
  set (ids := unique (map (fun r => gameid (sr_event r)) season)).
  destruct (season_interval_loop_spec season w ids [])
    as (tabs & Hloop & Hf).
  { intros g Hg. now apply game_rows_nonempty. }
  rewrite Hloop. simpl app.
  assert (Hids : forall r0, In r0 season -> In (gameid (sr_event r0)) ids).
  { intros r0 Hr0. apply unique_In, in_map_iff. now exists r0. }
  assert (Htabs : tabs <> []).
  { destruct season as [|r0 season']; [congruence|].
    destruct (Forall2_In_l _ _ _ _ Hf (Hids r0 (or_introl eq_refl))) as (t & Ht & _).
    intros E. rewrite E in Ht. destruct Ht. }
  exists (List.concat tabs). split.
  - unfold pd_concat. destruct tabs; [congruence|reflexivity].
  - split.
    + intros r0 Hr0.
      destruct (Forall2_In_l _ _ _ _ Hf (Hids r0 Hr0)) as (t & Ht & Htne & Hrows).
      destruct t as [|row t]; [congruence|].
      exists row. split; [|apply Hrows; now left].
      apply in_concat. exists (row :: t). split; [exact Ht|now left].
    + intros row Hrow. apply in_concat in Hrow as (t & Ht & Hrow).
      destruct (Forall2_In_r _ _ _ _ Hf Ht) as (g & Hg & _ & Hrows).
      apply unique_In, in_map_iff in Hg as (r0 & Hr0 & Hin).
      exists r0. split; [exact Hin|]. rewrite (Hrows row Hrow). exact Hr0.
Qed.

Lemma X11_season_intervals_witness :
  exists l,
    seasonIntervalExplosiveness two_game_season 120 = Returns l /\
    (forall r0, In r0 two_game_season ->
       exists row, In row l /\ iv_gameid row = gameid (sr_event r0)) /\
    (forall row, In row l ->
       exists r0, In r0 two_game_season /\ gameid (sr_event r0) = iv_gameid row).
Proof.
  apply (proj2 (X11_season_intervals two_game_season 120)). discriminate.
Defined.

(** * markMomentumEventsInIntervals *)

Lemma next_bucket_defined (thresh d : Z) (bucket : option Z) :
  next_bucket thresh (Some d) bucket = Some (if d <? thresh then 1 else 2).
Proof.
  unfold next_bucket.
  destruct (d <? thresh) eqn:E1; destruct (thresh <=? d) eqn:E2; try reflexivity.
  - apply Z.ltb_lt in E1. apply Z.leb_le in E2. lia.
  - apply Z.ltb_ge in E1. apply Z.leb_gt in E2. lia.
Qed.

Lemma match_step_acc (w : positive) (label : string) (r : FeatureRow)
  (events : list Episode) (acc : option Episode) :
  fold_left (match_step w label r) events acc =
  match last_match w label r events with
  | Some e => Some e
  | None => acc
  end.
Proof.
  unfold last_match. revert acc. induction events as [|ev events IH]; intros acc; simpl.
  - reflexivity.
  - rewrite (IH (match_step w label r acc ev)), (IH (match_step w label r None ev)).
    destruct (fold_left (match_step w label r) events None); [reflexivity|].
    unfold match_step. destruct (_ && _); reflexivity.
Qed.

Lemma final_flag_cons (w : positive) (thresh : Z) (label : string) (r : FeatureRow)
  (ev : Episode) (events : list Episode) (before : Z) :
  final_flag w thresh label r (ev :: events) before =
  final_flag w thresh label r events
    (if (ep_home_or_away ev =? label)%string
        && row_matches (ep_game_id ev)
                       (start_window_of w (ep_momentum_start_time ev)) (mkMarked r 0 0)
     then level_of thresh ev else before).
Proof.
  unfold final_flag, last_match at 1. simpl. rewrite match_step_acc.
  destruct (last_match w label r events); [reflexivity|].
  unfold match_step. destruct (_ && _); reflexivity.
Qed.

Lemma mark_loop_spec (w : positive) (thresh : Z) :
  forall (events : list Episode) (bucket : option Z) (rows : list MarkedRow),
    (forall ev, In ev events -> ep_duration ev <> None) ->
    mark_loop w thresh events bucket rows =
    Some (map (fun mr =>
                 mkMarked (mr_row mr)
                   (final_flag w thresh "Home Momentum" (mr_row mr) events
                               (home_momentum mr))
                   (final_flag w thresh "Away Momentum" (mr_row mr) events
                               (away_momentum mr)))
              rows).
Proof.
  induction events as [|ev events IH]; intros bucket rows Hdur.
  - simpl. f_equal. symmetry.
    erewrite map_ext; [apply map_id|]. intros [r h a]. reflexivity.
  - assert (Hev : exists d, ep_duration ev = Some d).
    { destruct (ep_duration ev) as [d|] eqn:E; [eauto|].
      exfalso. apply (Hdur ev); [now left|exact E]. }
    destruct Hev as [d Hd].
    assert (Hrest : forall e, In e events -> ep_duration e <> None)
      by (intros; apply Hdur; now right).
    assert (Hlv : level_of thresh ev = if d <? thresh then 1 else 2)
      by (unfold level_of; now rewrite Hd).
    cbn [mark_loop]. rewrite Hd, next_bucket_defined, <- Hlv.
    destruct (String.eqb_spec (ep_home_or_away ev) "Home Momentum") as [EH|EH].
    + replace (ep_home_or_away ev =? "Away Momentum")%string with false
        by (rewrite EH; reflexivity).
      rewrite IH by exact Hrest. f_equal. rewrite map_map. apply map_ext.
      intros [r h a]. rewrite !final_flag_cons. rewrite EH. cbn [mr_row].
      unfold row_matches. cbn [mr_row].
      destruct (start_window_of w (ep_momentum_start_time ev)) as [sw|];
        [destruct ((fr_gameid r =? ep_game_id ev) && (fr_time_window r =? sw))|];
        reflexivity.
    + destruct (String.eqb_spec (ep_home_or_away ev) "Away Momentum") as [EA|EA].
      * rewrite IH by exact Hrest. f_equal. rewrite map_map. apply map_ext.
        intros [r h a]. rewrite !final_flag_cons. rewrite EA. cbn [mr_row].
        unfold row_matches. cbn [mr_row].
        destruct (start_window_of w (ep_momentum_start_time ev)) as [sw|];
          [destruct ((fr_gameid r =? ep_game_id ev) && (fr_time_window r =? sw))|];
          reflexivity.
      * rewrite IH by exact Hrest. f_equal. apply map_ext.
        intros [r h a]. rewrite !final_flag_cons.
        apply String.eqb_neq in EH. apply String.eqb_neq in EA.
        rewrite EH, EA. reflexivity.
Qed.

Lemma level_of_range (thresh : Z) (ev : Episode) : 0 <= level_of thresh ev <= 2.
Proof.
  unfold level_of. destruct (ep_duration ev) as [d|]; [destruct (d <? thresh)|]; lia.
Qed.

(** X12: for an intensity of 0.05 or 0.07 and episodes that all have a
    duration, [markMomentumEventsInIntervals] returns the rows it was given,
    in their order, each with two flags: for the home flag, the level (1
    below the duration threshold, 2 otherwise) of the last episode of the
    table labelled Home whose game and start window are the row's, and 0
    when there is none; likewise for the away flag.  So a later episode
    overwrites an earlier one on the same interval, and the flags are 0, 1
    or 2. *)
Theorem X12_marks_last_matching_episode (data : list FeatureRow)
  (events : list Episode) (intensity : Q) (w : positive) (thresh : Z) :
  duration_bucket_thresh intensity = Some thresh ->
  (forall ev, In ev events -> ep_duration ev <> None) ->
  markMomentumEventsInIntervals data events intensity w =
    Some (map (fun r =>
                 mkMarked r
                   (final_flag w thresh "Home Momentum" r events 0)
                   (final_flag w thresh "Away Momentum" r events 0))
              data) /\
  forall out mr,
    markMomentumEventsInIntervals data events intensity w = Some out ->
    In mr out ->
    0 <= home_momentum mr <= 2 /\ 0 <= away_momentum mr <= 2.
Proof.
  intros Ht Hdur.
  assert (Heq : markMomentumEventsInIntervals data events intensity w =
    Some (map (fun r =>
                 mkMarked r
                   (final_flag w thresh "Home Momentum" r events 0)
                   (final_flag w thresh "Away Momentum" r events 0))
              data)).
  { unfold markMomentumEventsInIntervals. destruct events as [|ev events].
    - reflexivity.
    - rewrite Ht, mark_loop_spec by exact Hdur. rewrite map_map. reflexivity. }
  split; [exact Heq|].
  intros out mr Hout Hmr. rewrite Heq in Hout. injection Hout as <-.
  apply in_map_iff in Hmr as (r & <- & _). cbn [home_momentum away_momentum].
  unfold final_flag.
  split; (destruct (last_match w _ r events); [apply level_of_range|lia]).
Qed.

Lemma X12_marks_last_matching_episode_witness :
  markMomentumEventsInIntervals some_intervals some_episodes (5 # 100) 120 =
    Some (map (fun r =>
                 mkMarked r
                   (final_flag 120 60 "Home Momentum" r some_episodes 0)
                   (final_flag 120 60 "Away Momentum" r some_episodes 0))
              some_intervals).
Proof.
  refine (proj1 (X12_marks_last_matching_episode some_intervals some_episodes
                   (5 # 100) 120 60 _ _)).
  - reflexivity.
  - intros ev Hev. simpl in Hev.
    repeat (destruct Hev as [<-|Hev]; [discriminate|]). destruct Hev.
Defined.

(** X13: for an intensity other than 0.05 and 0.07 the duration threshold is
    never bound: [markMomentumEventsInIntervals] still returns the rows with
    both flags 0 when the table of episodes is empty, and raises as soon as
    there is one episode. *)
Theorem X13_unsupported_intensity (data : list FeatureRow) (events : list Episode)
  (intensity : Q) (w : positive) :
  ~ (intensity == 5 # 100)%Q -> ~ (intensity == 7 # 100)%Q ->
  markMomentumEventsInIntervals data [] intensity w =
    Some (map (fun r => mkMarked r 0 0) data) /\
  (events <> [] -> markMomentumEventsInIntervals data events intensity w = None).
Proof.
  intros H5 H7. split; [reflexivity|].
  intros Hne. unfold markMomentumEventsInIntervals.
  destruct events as [|ev events]; [congruence|].
  unfold duration_bucket_thresh.
  destruct (Qeq_bool intensity (7 # 100)) eqn:E7;
    [apply Qeq_bool_iff in E7; contradiction|].
  destruct (Qeq_bool intensity (5 # 100)) eqn:E5;
    [apply Qeq_bool_iff in E5; contradiction|].
  reflexivity.
Qed.

Lemma X13_unsupported_intensity_witness :
  markMomentumEventsInIntervals some_intervals [] (6 # 100) 120 =
    Some (map (fun r => mkMarked r 0 0) some_intervals) /\
  (some_episodes <> [] ->
   markMomentumEventsInIntervals some_intervals some_episodes (6 # 100) 120 = None).
Proof.
  apply (X13_unsupported_intensity some_intervals some_episodes (6 # 100) 120);
    discriminate.
Defined.

Lemma detect_records_have_start (fuel : nat) (df : PbpFrame) (thr : Q)
  (tmin tmax : Z) (st : ScanState) :
  detect fuel df thr tmin tmax = Returns st ->
  forall r, In r (momentumEvents st) -> momentum_start_time r <> None.
Proof.
  intros Hd.
  apply (detect_invariant
           (fun evs => forall r, In r evs -> momentum_start_time r <> None)
           fuel df thr tmin tmax st); [intros r []| |exact Hd].
  intros gid st0 st1 HP Hb r Hr.
  destruct (loop_body_new_records _ _ _ _ _ _ _ Hb Hr)
    as [Hold|(s & t0 & x0 & rest & t & x & _ & _ & _ & _ & Hm & _)];
    [now apply HP|].
  rewrite Hm. discriminate.
Qed.

Lemma aggregate_duration_defined (k : Z) (g : list RawRecord) :
  g <> [] -> (forall r, In r g -> momentum_start_time r <> None) ->
  ep_duration (aggregate k g) <> None.
Proof.
  destruct g as [|r0 g]; [congruence|]. intros _ Hall.
  destruct (momentum_start_time r0) as [m0|] eqn:E0;
    [|exfalso; apply (Hall r0); [now left|exact E0]].
  destruct (fold_opt_min_Some (map momentum_start_time g) m0) as (m & Hm & _).
  { intros x Hx. apply in_map_iff in Hx as (r & <- & Hr). apply Hall. now right. }
  simpl. rewrite E0. simpl. rewrite Hm. discriminate.
Qed.

(** X14: the episodes [findSeasonMomentumEvents] returns all have a
    duration, so with an intensity of 0.05 or 0.07
    [markMomentumEventsInIntervals] never raises on them: it returns the
    rows it was given with the flags of X12. *)
Theorem X14_marking_season_episodes (fuel : nat) (season : list SeasonRow) (thr : Q)
  (tmin tmax : Z) (l : list SeasonEpisode) (data : list FeatureRow)
  (intensity : Q) (w : positive) (thresh : Z) :
  findSeasonMomentumEvents fuel season thr tmin tmax = Returns l ->
  duration_bucket_thresh intensity = Some thresh ->
  (forall se, In se l -> ep_duration (se_episode se) <> None) /\
  markMomentumEventsInIntervals data (map se_episode l) intensity w =
    Some (map (fun r =>
                 mkMarked r
                   (final_flag w thresh "Home Momentum" r (map se_episode l) 0)
                   (final_flag w thresh "Away Momentum" r (map se_episode l) 0))
              data).
Proof.
  intros Hs Ht.
  assert (Hdur : forall se, In se l -> ep_duration (se_episode se) <> None).
  { unfold findSeasonMomentumEvents in Hs.
    destruct (season_momentum_loop _ _ _ _ _ _ _) as [tables| |] eqn:El;
      try discriminate.
    assert (Htab : forall t, In t tables ->
              t <> [] /\ forall se, In se t -> ep_duration (se_episode se) <> None).
    { refine (season_momentum_loop_inv fuel season thr tmin tmax
                (fun se => ep_duration (se_episode se) <> None) _ _ [] tables _ El);
        [|intros t []].
      intros game r0 rest st ep _ Hd Hep. cbn [se_episode].
      apply aggregate_events_In in Hep as (g & Hne & -> & Hall).
      apply aggregate_duration_defined; [exact Hne|].
      intros r Hr. apply (detect_records_have_start _ _ _ _ _ _ Hd). now apply Hall. }
    destruct tables as [|t0 tables]; [discriminate|].
    unfold pd_concat in Hs. injection Hs as <-.
    intros se Hse. change (In se (List.concat (t0 :: tables))) in Hse.
    apply in_concat in Hse as (t & Hin & Hse).
    now apply (Htab t Hin). }
  split; [exact Hdur|].
  unfold markMomentumEventsInIntervals.
  destruct (map se_episode l) as [|ev events] eqn:E; [reflexivity|].
  rewrite Ht, mark_loop_spec.
  - rewrite map_map. reflexivity.
  - intros e He. rewrite <- E in He. apply in_map_iff in He as (se & <- & Hse).
    now apply Hdur.
Qed.

Lemma X14_marking_season_episodes_witness :
  exists l,
    findSeasonMomentumEvents 2880 two_game_season (1 # 10) 2 10 = Returns l /\
    markMomentumEventsInIntervals some_intervals (map se_episode l) (5 # 100) 120 =
      Some (map (fun r =>
                   mkMarked r
                     (final_flag 120 60 "Home Momentum" r (map se_episode l) 0)
                     (final_flag 120 60 "Away Momentum" r (map se_episode l) 0))
                some_intervals).
Proof.
  eexists. split; [vm_compute; reflexivity|].
  refine (proj2 (X14_marking_season_episodes 2880 two_game_season (1 # 10) 2 10 _
                   some_intervals (5 # 100) 120 60 _ _)).
  - vm_compute. reflexivity.
  - reflexivity.
Defined.


(** * The evaluator on a table sorted by clock *)

Lemma StronglySorted_app_inv {A : Type} (R : A -> A -> Prop) (l : list A) (a : A) :
  StronglySorted R (l ++ [a]) ->
  StronglySorted R l /\ forall x, In x l -> R x a.
Proof.
  induction l as [|b l IH]; simpl; intros H.
  - split; [constructor|intros x []].
  - apply StronglySorted_inv in H as [Hs Hall]. destruct (IH Hs) as [Hl Hla].
    rewrite Forall_forall in Hall. split.
    + constructor; [exact Hl|]. apply Forall_forall. intros x Hx.
      apply Hall. apply in_or_app. now left.
    + intros x [<-|Hx]; [|now apply Hla].
      apply Hall. apply in_or_app. right. now left.
Qed.

Lemma Qcompare_gt_lt (a b : Q) : Qcompare a b = Gt -> Qcompare b a = Lt.
Proof. intros H. rewrite <- Qcompare_antisym, H. reflexivity. Qed.

(** Inserting a row whose key is not below any key present either opens a
    new last group or extends the last group. *)
Lemma group_insert_at_end {A : Type} (k : Q) (a : A) (gs : list (Q * list A)) :
  Sorted (key_lt Qcompare) (map fst gs) ->
  (forall k', In k' (map fst gs) -> (k' <= k)%Q) ->
  group_insert Qcompare k a gs = gs ++ [(k, [a])] \/
  exists gs0 k0 g0,
    gs = gs0 ++ [(k0, g0)] /\ (k0 == k)%Q /\
    group_insert Qcompare k a gs = gs0 ++ [(k0, g0 ++ [a])].
Proof.
  induction gs as [|[k1 g1] gs IH]; simpl; intros Hs Hle.
  - now left.
  - assert (H1 : (k1 <= k)%Q) by (apply Hle; now left).
    destruct (Qcompare_spec k k1) as [E|E|E].
    + right. destruct gs as [|[k2 g2] gs].
      * exists [], k1, g1. repeat split. now symmetry.
      * exfalso. simpl in Hs. inversion Hs as [|? ? _ Hd]; subst.
        inversion Hd as [|? ? Hlt]; subst. unfold key_lt in Hlt.
        apply Qlt_alt in Hlt.
        assert (H2 : (k2 <= k)%Q) by (apply Hle; right; now left).
        rewrite E in H2. exact (Qlt_not_le _ _ Hlt H2).
    + exfalso. exact (Qlt_not_le _ _ E H1).
    + inversion Hs as [|? ? Hs' _]; subst.
      destruct (IH Hs') as [->|(gs0 & k0 & g0 & -> & Hk & ->)].
      * intros k' Hk'. apply Hle. now right.
      * now left.
      * right. exists ((k1, g1) :: gs0), k0, g0. repeat split. exact Hk.
Qed.

Lemma last_map_Some {A B : Type} (f : A -> B) (l : list A) (d : B) :
  last (map f l) d =
  match last (map (fun x => Some (f x)) l) None with
  | Some v => v
  | None => d
  end.
Proof.
  induction l as [|a l IH]; simpl; [reflexivity|].
  destruct l as [|b l]; [reflexivity|]. exact IH.
Qed.

Lemma last_app_one {A : Type} (l : list A) (a d : A) : last (l ++ [a]) d = a.
Proof. apply last_last. Qed.

(** On a table sorted by clock, taking the last differential per clock and
    then the last clock that satisfies a downward closed condition gives
    the differential of the last row that satisfies it. *)
Lemma latest_where (p : Q -> bool) (es : list Event) :
  (forall a b, (a <= b)%Q -> p b = true -> p a = true) ->
  StronglySorted (fun a b => (eventClock a <= eventClock b)%Q) es ->
  last (map (fun kv => Some (snd kv))
            (filter (fun kv => p (fst kv)) (latestScores es))) None =
  last_diff_where (fun e => p (eventClock e)) es.
Proof.
  intros Hp. unfold latestScores, last_diff_where, groupby.
  induction es as [|a es IH] using rev_ind; intros Hs; [reflexivity|].
  apply StronglySorted_app_inv in Hs as [Hs Hle]. specialize (IH Hs).
  rewrite fold_left_app. simpl fold_left.
  set (gs := fold_left (fun gs a => group_insert Qcompare (eventClock a) a gs) es [])
    in *.
  assert (Hsorted : Sorted (key_lt Qcompare) (map fst gs))
    by (apply (groupby_keys_sorted Qcompare eventClock Qcompare_gt_lt)).
  assert (Hkeys : forall k', In k' (map fst gs) -> (k' <= eventClock a)%Q).
  { intros k' Hk'. apply in_map_iff in Hk' as ([k g] & <- & Hin).
    apply (groupby_sound Qcompare eventClock) in Hin as (_ & (e & He & <-) & _).
    now apply Hle. }
  rewrite filter_app. simpl filter.
  destruct (group_insert_at_end (eventClock a) a gs Hsorted Hkeys)
    as [->|(gs0 & k0 & g0 & Egs & Hk & ->)].
  - rewrite map_app, filter_app. simpl map. simpl filter.
    destruct (p (eventClock a)) eqn:Ea.
    + rewrite !map_app. simpl map. rewrite !last_app_one.
      reflexivity.
    + rewrite !app_nil_r. exact IH.
  - assert (Hpk : p k0 = p (eventClock a)).
    { destruct (p k0) eqn:E0, (p (eventClock a)) eqn:Ea; try reflexivity.
      - rewrite <- Ea. symmetry. apply (Hp _ k0); [|exact E0].
        rewrite Hk. apply Qle_refl.
      - rewrite <- E0. apply (Hp _ (eventClock a)); [|exact Ea].
        rewrite Hk. apply Qle_refl. }
    rewrite Egs in IH. rewrite map_app, filter_app in IH |- *.
    simpl map in IH |- *. simpl filter in IH |- *. rewrite Hpk in IH |- *.
    destruct (p (eventClock a)) eqn:Ea.
    + rewrite !map_app. simpl map. rewrite !last_app_one. reflexivity.
    + rewrite ?app_nil_r in IH. rewrite ?app_nil_r. exact IH.
Qed.

Lemma ffill_on_sorted (es : list Event) (t : Z) :
  StronglySorted (fun a b => (eventClock a <= eventClock b)%Q) es ->
  ffill (latestScores es) t = last_diff_where (at_or_before t) es.
Proof.
  intros Hs. unfold ffill.
  apply (latest_where (fun q => Qle_bool q (inject_Z t))); [|exact Hs].
  intros a b Hab Hb. apply Qle_bool_iff in Hb. apply Qle_bool_iff.
  now apply Qle_trans with b.
Qed.

Lemma scoreDiffStart_on_sorted (es : list Event) (c : Z) :
  StronglySorted (fun a b => (eventClock a <= eventClock b)%Q) es ->
  scoreDiffStart (latestScores es) c =
  match last_diff_where (strictly_before c) es with
  | Some v => v
  | None => 0
  end.
Proof.
  intros Hs. unfold scoreDiffStart. rewrite last_map_Some.
  rewrite (latest_where
             (fun q => match Qcompare q (inject_Z c) with
                       | Lt => true | _ => false end)); [reflexivity| |exact Hs].
  intros a b Hab Hb.
  destruct (Qcompare_spec b (inject_Z c)) as [E|E|E]; try discriminate.
  destruct (Qcompare_spec a (inject_Z c)) as [E'|E'|E']; [|reflexivity|].
  - exfalso. rewrite E' in Hab. exact (Qlt_not_le _ _ E Hab).
  - exfalso. apply (Qlt_irrefl a).
    apply Qle_lt_trans with b; [exact Hab|]. now apply Qlt_trans with (inject_Z c).
Qed.

(** X15 (calculateExplosiveness, lines 31-47). On a table whose rows are in
    ascending clock order, the value the evaluator reports at second [t] is
    computed from the differential of the last row of the table at or before
    [t] and from the differential of the last row strictly before the start
    time (0 when there is none): every entry [(t, x)] of the returned series
    is missing when no row is at or before [t], and otherwise is
    [(v - ref) / (t - start_time)] with [v] and [ref] these two
    differentials. *)
Theorem X15_evaluator_reads_last_rows (df : PbpFrame) (start_time time_min time_max : Z)
  (df' : PbpFrame) (s : Series) (t : Z) (x : fval) :
  StronglySorted (fun a b => (eventClock a <= eventClock b)%Q) (rows df) ->
  calculateExplosiveness df start_time time_min time_max = Some (df', s) ->
  In (t, x) s ->
  let ref := match last_diff_where (strictly_before start_time) (rows df) with
             | Some v => v
             | None => 0
             end in
  x = match last_diff_where (at_or_before t) (rows df) with
      | None => NaN
      | Some v => fdiv (inject_Z (v - ref)) (inject_Z (t - start_time))
      end.
Proof.
  intros Hs Hc Hin ref. rewrite calculateExplosiveness_spec in Hc.
  unfold explosiveness in Hc.
  destruct (clock_max (rows df)) as [m|]; [|discriminate].
  injection Hc as _ <-.
  apply in_map_iff in Hin as (t' & [= <- <-] & _).
  unfold intensity_at, ref.
  rewrite (ffill_on_sorted _ _ Hs), (scoreDiffStart_on_sorted _ _ Hs).
  reflexivity.
Qed.

Lemma X15_evaluator_reads_last_rows_witness :
  StronglySorted (fun a b => (eventClock a <= eventClock b)%Q) (rows swing_game) /\
  calculateExplosiveness swing_game 7 1 3 =
    Some (mkFrame (rows swing_game) (Some (map diff_of (rows swing_game))),
          [(8, Fin (-3 # 1)); (9, Fin (-3 # 1)); (10, Fin (-2 # 1))]) /\
  Fin (-3 # 1) = fdiv (inject_Z (-3 - 3)) (inject_Z (9 - 7)).
Proof.
  assert (Hs : StronglySorted (fun a b => (eventClock a <= eventClock b)%Q)
                 (rows swing_game)).
  { repeat constructor; simpl; unfold Qle; simpl; lia. }
  split; [exact Hs|]. split; [reflexivity|].
  exact (X15_evaluator_reads_last_rows swing_game 7 1 3 _ _ 9 (Fin (-3 # 1)) Hs
           eq_refl (or_intror (or_introl eq_refl))).
Defined.

(** * The table the season drivers hand to the detector *)

Lemma row_lt_false_clock (a b : SeasonRow) :
  row_lt b a = false -> (eventClock (sr_event a) <= eventClock (sr_event b))%Q.
Proof.
  unfold row_lt.
  destruct (Qcompare_spec (eventClock (sr_event b)) (eventClock (sr_event a)))
    as [E|E|E]; intros H.
  - rewrite E. apply Qle_refl.
  - discriminate.
  - now apply Qlt_le_weak.
Qed.

Lemma row_lt_asym (a b : SeasonRow) : row_lt a b = true -> row_lt b a = false.
Proof.
  unfold row_lt.
  destruct (Qcompare_spec (eventClock (sr_event a)) (eventClock (sr_event b)))
    as [E|E|E]; intros H; try discriminate.
  - destruct (Qcompare_spec (eventClock (sr_event b)) (eventClock (sr_event a)))
      as [E'|E'|E']; [|exfalso; lra|reflexivity].
    apply Z.ltb_lt in H. apply Z.ltb_ge. lia.
  - destruct (Qcompare_spec (eventClock (sr_event b)) (eventClock (sr_event a)))
      as [E'|E'|E']; [exfalso; lra|exfalso; lra|reflexivity].
Qed.

Lemma row_lt_false_trans (a b c : SeasonRow) :
  row_lt b a = false -> row_lt c b = false -> row_lt c a = false.
Proof.
  unfold row_lt.
  destruct (Qcompare_spec (eventClock (sr_event b)) (eventClock (sr_event a)))
    as [E1|E1|E1]; intros H1; try discriminate;
  destruct (Qcompare_spec (eventClock (sr_event c)) (eventClock (sr_event b)))
    as [E2|E2|E2]; intros H2; try discriminate;
  destruct (Qcompare_spec (eventClock (sr_event c)) (eventClock (sr_event a)))
    as [E3|E3|E3]; try reflexivity; try (exfalso; lra).
  apply Z.ltb_ge in H1, H2. apply Z.ltb_ge. lia.
Qed.

Lemma row_lt_irrefl (a : SeasonRow) : row_lt a a = false.
Proof.
  unfold row_lt.
  destruct (Qcompare_spec (eventClock (sr_event a)) (eventClock (sr_event a)))
    as [E|E|E]; [apply Z.ltb_irrefl|exfalso; lra|reflexivity].
Qed.

Lemma insert_row_sorted (x : SeasonRow) (l : list SeasonRow) :
  StronglySorted (fun a b => row_lt b a = false) l ->
  StronglySorted (fun a b => row_lt b a = false) (insert_row x l).
Proof.
  induction 1 as [|y l Hs IH Hall]; simpl.
  - repeat constructor.
  - rewrite Forall_forall in Hall. destruct (row_lt y x) eqn:E.
    + constructor; [exact IH|]. apply Forall_forall. intros z Hz.
      apply insert_row_In in Hz as [->|Hz]; [now apply row_lt_asym|now apply Hall].
    + constructor; [now constructor; [|apply Forall_forall]|].
      apply Forall_forall. intros z [<-|Hz]; [exact E|].
      apply row_lt_false_trans with y; [exact E|now apply Hall].
Qed.

Lemma sort_rows_sorted (l : list SeasonRow) :
  StronglySorted (fun a b => row_lt b a = false) (sort_rows l).
Proof.
  unfold sort_rows. induction l as [|a l IH]; simpl; [constructor|].
  now apply insert_row_sorted.
Qed.

Lemma sorted_last_is_greatest {A : Type} (R : A -> A -> Prop) (l : list A) (d y : A) :
  (forall x, R x x) -> StronglySorted R l -> In y l -> R y (last l d).
Proof.
  intros Hr. induction 1 as [|a l Hs IH Hall]; [intros []|].
  intros Hy. destruct l as [|b l].
  - destruct Hy as [<-|[]]. apply Hr.
  - change (last (a :: b :: l) d) with (last (b :: l) d).
    destruct Hy as [<-|Hy]; [|now apply IH].
    rewrite Forall_forall in Hall. apply Hall. apply last_In. discriminate.
Qed.

Lemma filter_map_comm {A B : Type} (f : A -> B) (p : B -> bool) (l : list A) :
  filter p (map f l) = map f (filter (fun a => p (f a)) l).
Proof.
  induction l as [|a l IH]; simpl; [reflexivity|].
  destruct (p (f a)); simpl; now rewrite IH.
Qed.

Lemma last_map_nonempty {A B : Type} (f : A -> B) (l : list A) (d : A) (d' : B) :
  l <> [] -> last (map f l) d' = f (last l d).
Proof.
  induction l as [|a l IH]; [congruence|]. intros _.
  destruct l as [|b l]; [reflexivity|]. apply IH. discriminate.
Qed.

(** On a sorted game table, the differential of the last row that satisfies
    [p] is the differential of a greatest row, in the order of the sort,
    among the rows of the game that satisfy [p]. *)
Lemma last_diff_where_sorted (p : Event -> bool) (l : list SeasonRow) :
  match last_diff_where p (map sr_event (sort_rows l)) with
  | None => forall r, In r l -> p (sr_event r) = false
  | Some v =>
      exists r, In r l /\ p (sr_event r) = true /\ diff_of (sr_event r) = v /\
                forall r', In r' l -> p (sr_event r') = true -> row_lt r r' = false
  end.
Proof.
  unfold last_diff_where. rewrite filter_map_comm, map_map.
  set (q := fun a => p (sr_event a)).
  destruct (filter q (sort_rows l)) as [|r0 rs] eqn:E.
  - simpl. intros r Hr. destruct (p (sr_event r)) eqn:Ep; [|reflexivity].
    assert (H : In r (filter q (sort_rows l)))
      by (apply filter_In; split; [now apply sort_rows_In|exact Ep]).
    rewrite E in H. destruct H.
  - rewrite (last_map_nonempty _ _ r0) by discriminate. rewrite <- E.
    assert (Hl : In (last (filter q (sort_rows l)) r0) (filter q (sort_rows l)))
      by (apply last_In; rewrite E; discriminate).
    apply filter_In in Hl as [Hl1 Hl2].
    exists (last (filter q (sort_rows l)) r0).
    split; [now apply sort_rows_In|]. split; [exact Hl2|]. split; [reflexivity|].
    intros r' Hr' Hp'.
    apply (sorted_last_is_greatest (fun a b => row_lt b a = false)).
    + apply row_lt_irrefl.
    + apply StronglySorted_filter, sort_rows_sorted.
    + apply filter_In. split; [now apply sort_rows_In|exact Hp'].
Qed.

Lemma sort_rows_clock_sorted (l : list SeasonRow) :
  StronglySorted (fun a b => (eventClock a <= eventClock b)%Q)
                 (map sr_event (sort_rows l)).
Proof.
  apply (StronglySorted_map_rel (fun a b => row_lt b a = false)).
  - intros a b _ _. apply row_lt_false_clock.
  - apply sort_rows_sorted.
Qed.

(** X16 (findSeasonMomentumEvents and seasonIntervalExplosiveness, the sort
    of lines 275 and 308, with calculateExplosiveness, lines 31-47). The
    season drivers hand the detector a game table sorted by clock and order
    number, so whatever the order of the rows in the season table, the
    evaluator works from the latest event of the game: the reference
    differential is 0 when no row of the game lies strictly before the start
    time and otherwise the differential of a row that no other such row
    follows in the order (clock, order number); and the value at second [t]
    is missing when no row of the game is at or before [t] and otherwise is
    computed from the differential of a row at or before [t] that no other
    such row follows in that order. *)
Theorem X16_season_table_latest_event (season : list SeasonRow) (game : Z)
  (df : PbpFrame) (c tmin tmax : Z) (df' : PbpFrame) (s : Series) (t : Z) (x : fval) :
  rows df = map sr_event (sort_rows (game_rows season game)) ->
  calculateExplosiveness df c tmin tmax = Some (df', s) ->
  In (t, x) s ->
  let gameData := game_rows season game in
  let ref := scoreDiffStart (latestScores (rows df)) c in
  ((ref = 0 /\ forall r, In r gameData -> strictly_before c (sr_event r) = false) \/
   exists r, In r gameData /\ strictly_before c (sr_event r) = true /\
             ref = diff_of (sr_event r) /\
             forall r', In r' gameData -> strictly_before c (sr_event r') = true ->
                        row_lt r r' = false) /\
  ((x = NaN /\ forall r, In r gameData -> at_or_before t (sr_event r) = false) \/
   exists r, In r gameData /\ at_or_before t (sr_event r) = true /\
             x = fdiv (inject_Z (diff_of (sr_event r) - ref)) (inject_Z (t - c)) /\
             forall r', In r' gameData -> at_or_before t (sr_event r') = true ->
                        row_lt r r' = false).
Proof.
  intros Hrows Hc Hin gameData ref.
  assert (Hs : StronglySorted (fun a b => (eventClock a <= eventClock b)%Q) (rows df))
    by (rewrite Hrows; apply sort_rows_clock_sorted).
  split.
  - unfold ref. rewrite (scoreDiffStart_on_sorted _ _ Hs), Hrows.
    pose proof (last_diff_where_sorted (strictly_before c) gameData) as H.
    fold gameData.
    destruct (last_diff_where (strictly_before c) (map sr_event (sort_rows gameData)))
      as [v|].
    + right. destruct H as (r & H1 & H2 & H3 & H4). exists r. now repeat split.
    + left. now split.
  - rewrite calculateExplosiveness_spec in Hc. unfold explosiveness in Hc.
    destruct (clock_max (rows df)) as [m|]; [|discriminate].
    injection Hc as _ <-.
    apply in_map_iff in Hin as (t' & [= <- <-] & _).
    unfold intensity_at. fold ref. rewrite (ffill_on_sorted _ _ Hs), Hrows.
    pose proof (last_diff_where_sorted (at_or_before t') gameData) as H.
    fold gameData.
    destruct (last_diff_where (at_or_before t') (map sr_event (sort_rows gameData)))
      as [v|].
    + right. destruct H as (r & H1 & H2 & <- & H4). exists r. now repeat split.
    + left. now split.
Qed.

Lemma X16_season_table_latest_event_witness :
  let df := mkFrame (map sr_event (sort_rows (game_rows two_game_season 2))) None in
  calculateExplosiveness df 7 1 3 =
    Some (mkFrame (rows df) (Some (map diff_of (rows df))),
          [(8, Fin (-3 # 1)); (9, Fin (-3 # 1)); (10, Fin (-2 # 1))]) /\
  exists r, In r (game_rows two_game_season 2) /\
            at_or_before 9 (sr_event r) = true /\
            Fin (-3 # 1) =
              fdiv (inject_Z (diff_of (sr_event r) - scoreDiffStart (latestScores (rows df)) 7))
                   (inject_Z (9 - 7)).
Proof.
  intros df. split; [reflexivity|].
  destruct (X16_season_table_latest_event two_game_season 2 df 7 1 3 _ _ 9 (Fin (-3 # 1))
              eq_refl eq_refl (or_intror (or_introl eq_refl)))
    as [_ [[H _]|(r & H1 & H2 & H3 & _)]]; [discriminate H|].
  exists r. repeat split; assumption.
Defined.

(** * The event clock *)

Lemma inject_Z_sub (p k : Z) : (inject_Z (p - k) == inject_Z p - inject_Z k)%Q.
Proof.
  unfold Z.sub. rewrite inject_Z_plus, inject_Z_opp. reflexivity.
Qed.

(** The clock is always assigned, and it is the start of the period when the
    full period is on the clock and otherwise the end of the period less the
    time on the clock. *)
Lemma eventClock_cases (period : Z) (m s : Q) :
  exists v, PbpData.eventClock period m s = Some v /\
    ((m == period_minutes period /\ v == period_start period) \/
     (~ m == period_minutes period /\ v == period_end period - (60 * m + s)))%Q.
Proof.
  unfold PbpData.eventClock, period_minutes, period_start, period_end.
  destruct (period <? 5) eqn:E5.
  - assert (E4 : (period >? 4) = false).
    { apply Z.ltb_lt in E5. rewrite Z.gtb_ltb. apply Z.ltb_ge. lia. }
    rewrite E4. destruct (Qeq_bool m 12) eqn:Em; eexists; (split; [reflexivity|]).
    + apply Qeq_bool_iff in Em. left. split; [exact Em|].
      rewrite (inject_Z_sub period 1). change (inject_Z 1) with 1%Q. lra.
    + apply Qeq_bool_neq in Em. right. split; [exact Em|].
      rewrite (inject_Z_sub period 1). change (inject_Z 1) with 1%Q. lra.
  - assert (E4 : (period >? 4) = true).
    { apply Z.ltb_ge in E5. rewrite Z.gtb_ltb. apply Z.ltb_lt. lia. }
    rewrite E4. destruct (Qeq_bool m 5) eqn:Em; eexists; (split; [reflexivity|]).
    + apply Qeq_bool_iff in Em. left. split; [exact Em|].
      rewrite (inject_Z_sub (period - 4) 1), (inject_Z_sub period 4).
      change (inject_Z 1) with 1%Q. change (inject_Z 4) with 4%Q. lra.
    + apply Qeq_bool_neq in Em. right. split; [exact Em|].
      rewrite (inject_Z_sub (period - 4) 1), (inject_Z_sub period 4).
      change (inject_Z 1) with 1%Q. change (inject_Z 4) with 4%Q. lra.
Qed.

Lemma period_end_start (period : Z) :
  (period_end period == period_start period + 60 * period_minutes period)%Q.
Proof.
  unfold period_end, period_start, period_minutes.
  destruct (period <? 5); lra.
Qed.

Lemma period_end_le_next_start (p1 p2 : Z) :
  p1 < p2 -> (period_end p1 <= period_start p2)%Q.
Proof.
  intros H. assert (H' : (inject_Z p1 + 1 <= inject_Z p2)%Q).
  { change 1%Q with (inject_Z 1). rewrite <- inject_Z_plus, <- Zle_Qle. lia. }
  unfold period_end, period_start.
  destruct (p1 <? 5) eqn:E1, (p2 <? 5) eqn:E2.
  - lra.
  - apply Z.ltb_lt in E1. apply Z.ltb_ge in E2.
    assert (H1 : (inject_Z p1 <= 4)%Q)
      by (change 4%Q with (inject_Z 4); rewrite <- Zle_Qle; lia).
    assert (H2 : (5 <= inject_Z p2)%Q)
      by (change 5%Q with (inject_Z 5); rewrite <- Zle_Qle; lia).
    lra.
  - apply Z.ltb_ge in E1. apply Z.ltb_lt in E2. lia.
  - lra.
Qed.

Lemma eventClock_bounds (period : Z) (m s v : Q) :
  clock_reading period m s ->
  PbpData.eventClock period m s = Some v ->
  (period_start period <= v /\ v <= period_end period)%Q.
Proof.
  intros (Hs0 & Hs60 & Hm) Hv.
  destruct (eventClock_cases period m s) as (v' & Hv' & Hcase).
  rewrite Hv in Hv'. injection Hv' as <-.
  pose proof (period_end_start period) as Hes.
  assert (Hpos : (0 < period_minutes period)%Q)
    by (unfold period_minutes; destruct (period <? 5); lra).
  destruct Hcase as [[_ Hv']|[Hne Hv']].
  - lra.
  - destruct Hm as [Hm|[Hm0 Hm1]]; [contradiction|]. lra.
Qed.

(** X17 (pbp_data.py, eventClock, lines 168-202). For every integer period
    the clock is assigned (the function does not fall through both
    branches), and for a clock reading of the period the result lies within
    the period: between 720 (period - 1) and 720 period seconds in periods
    1 to 4, and between 2880 + 300 (period - 5) and 2880 + 300 (period - 4)
    from period 5 on.  It is the start of the period when the full period is
    on the clock, whatever the seconds read, and the end of the period at
    0 minutes and 0 seconds. *)
Theorem X17_event_clock_within_period (period : Z) (m s : Q) :
  clock_reading period m s ->
  exists v, PbpData.eventClock period m s = Some v /\
    (period_start period <= v /\ v <= period_end period)%Q /\
    (m == period_minutes period -> v == period_start period)%Q /\
    (m == 0 -> s == 0 -> v == period_end period)%Q.
Proof.
  intros Hr. destruct (eventClock_cases period m s) as (v & Hv & Hcase).
  exists v. split; [exact Hv|]. split; [now apply (eventClock_bounds period m s)|].
  assert (Hpos : (0 < period_minutes period)%Q)
    by (unfold period_minutes; destruct (period <? 5); lra).
  split.
  - intros Hm. destruct Hcase as [[_ Hv']|[Hne _]]; [exact Hv'|contradiction].
  - intros Hm Hs. destruct Hcase as [[Hm' _]|[_ Hv']]; lra.
Qed.

Lemma X17_event_clock_within_period_witness :
  clock_reading 5 4 (47 # 2) /\
  exists v, PbpData.eventClock 5 4 (47 # 2) = Some v /\
    (period_start 5 <= v /\ v <= period_end 5)%Q.
Proof.
  assert (H : clock_reading 5 4 (47 # 2)).
  { unfold clock_reading, period_minutes. simpl. lra. }
  split; [exact H|].
  destruct (X17_event_clock_within_period 5 4 (47 # 2) H) as (v & Hv & Hb & _).
  exists v. split; [exact Hv|exact Hb].
Defined.

(** X18 (pbp_data.py, eventClock, lines 168-202). The event clock does not
    run backwards: of two clock readings, the one in the later period, or in
    the same period with no more time left on the clock, has the larger or
    equal event clock, across the change from 12-minute periods to 5-minute
    overtimes as well. *)
Theorem X18_event_clock_is_monotone (p1 p2 : Z) (m1 s1 m2 s2 v1 v2 : Q) :
  clock_reading p1 m1 s1 ->
  clock_reading p2 m2 s2 ->
  p1 < p2 \/ (p1 = p2 /\ (60 * m2 + s2 <= 60 * m1 + s1)%Q) ->
  PbpData.eventClock p1 m1 s1 = Some v1 ->
  PbpData.eventClock p2 m2 s2 = Some v2 ->
  (v1 <= v2)%Q.
Proof.
  intros Hr1 Hr2 Hord Hv1 Hv2.
  pose proof (eventClock_bounds _ _ _ _ Hr1 Hv1) as [Hl1 Hu1].
  pose proof (eventClock_bounds _ _ _ _ Hr2 Hv2) as [Hl2 Hu2].
  destruct Hord as [Hlt|[<- Hrem]].
  - pose proof (period_end_le_next_start _ _ Hlt). lra.
  - destruct (eventClock_cases p1 m1 s1) as (w1 & Hw1 & Hc1).
    destruct (eventClock_cases p1 m2 s2) as (w2 & Hw2 & Hc2).
    rewrite Hv1 in Hw1. injection Hw1 as <-.
    rewrite Hv2 in Hw2. injection Hw2 as <-.
    pose proof (period_end_start p1) as Hes.
    destruct Hr1 as (Hs10 & Hs11 & Hm1). destruct Hr2 as (Hs20 & Hs21 & Hm2).
    destruct Hc1 as [[E1 Hw1]|[N1 Hw1]].
    + lra.
    + destruct Hm1 as [Hm1|[Hm10 Hm11]]; [contradiction|].
      destruct Hc2 as [[E2 Hw2]|[N2 Hw2]]; lra.
Qed.

Lemma X18_event_clock_is_monotone_witness :
  clock_reading 4 0 (1 # 2) /\ clock_reading 5 5 0 /\
  PbpData.eventClock 4 0 (1 # 2) = Some (5759 # 2) /\
  PbpData.eventClock 5 5 0 = Some (2880 # 1) /\
  (5759 # 2 <= 2880 # 1)%Q.
Proof.
  assert (H1 : clock_reading 4 0 (1 # 2)).
  { unfold clock_reading, period_minutes. simpl. lra. }
  assert (H2 : clock_reading 5 5 0).
  { unfold clock_reading, period_minutes. simpl. lra. }
  split; [exact H1|]. split; [exact H2|].
  split; [vm_compute; reflexivity|]. split; [vm_compute; reflexivity|].
  apply (X18_event_clock_is_monotone 4 5 0 (1 # 2) 5 0 _ _ H1 H2).
  - left. lia.
  - vm_compute. reflexivity.
  - vm_compute. reflexivity.
Defined.

(** * The detector's game duration on event clocks *)

Lemma clock_max_In (es : list Event) (m : Q) :
  clock_max es = Some m -> exists e, In e es /\ m = eventClock e.
Proof.
  destruct es as [|e0 es]; [discriminate|]. simpl. intros [= <-].
  assert (H : forall l a,
             fold_left (fun m x => if Qle_bool m (eventClock x)
                                   then eventClock x else m) l a = a \/
             exists e, In e l /\
               fold_left (fun m x => if Qle_bool m (eventClock x)
                                     then eventClock x else m) l a = eventClock e).
  { induction l as [|x l IH]; intros a; simpl; [now left|].
    destruct (IH (if Qle_bool a (eventClock x) then eventClock x else a))
      as [->|(e & He & ->)].
    - destruct (Qle_bool a (eventClock x)); [|now left].
      right. exists x. split; [now left|reflexivity].
    - right. exists e. split; [now right|reflexivity]. }
  destruct (H es (eventClock e0)) as [->|(e & He & ->)].
  - exists e0. split; [now left|reflexivity].
  - exists e. split; [now right|reflexivity].
Qed.

Lemma period_end_mono (p1 p2 : Z) : p1 <= p2 -> (period_end p1 <= period_end p2)%Q.
Proof.
  intros H. destruct (Z.eq_dec p1 p2) as [->|Hne]; [apply Qle_refl|].
  apply Qle_trans with (period_start p2).
  - apply period_end_le_next_start. lia.
  - rewrite period_end_start. unfold period_minutes. destruct (p2 <? 5); lra.
Qed.

(** X19 (findGameMomentumEvents, lines 76-77, on the clocks of pbp_data.py,
    eventClock). For a game all of whose event clocks are clock readings of
    periods up to [last_period], with at least the four regulation periods,
    the duration the detector scans is 2880 seconds plus at most 300 per
    overtime period: exactly 2880 for a game that ends in regulation. *)
Theorem X19_game_duration_of_periods (es : list Event) (last_period : Z) (mx : Q) :
  4 <= last_period ->
  (forall e, In e es ->
     exists p m s, p <= last_period /\ clock_reading p m s /\
                   PbpData.eventClock p m s = Some (eventClock e)) ->
  clock_max es = Some mx ->
  2880 <= game_duration_of mx <= 2880 + 300 * (last_period - 4).
Proof.
  intros HP Hall Hmx.
  split; [apply py_int_le_game_duration|].
  destruct (clock_max_In es mx Hmx) as (e & He & ->).
  destruct (Hall e He) as (p & m & s & Hp & Hr & Hv).
  pose proof (eventClock_bounds p m s _ Hr Hv) as [_ Hu].
  pose proof (period_end_mono p last_period Hp) as Hpe.
  assert (Hend : (period_end last_period == inject_Z (2880 + 300 * (last_period - 4)))%Q).
  { rewrite inject_Z_plus, inject_Z_mult, (inject_Z_sub last_period 4).
    change (inject_Z 2880) with 2880%Q. change (inject_Z 300) with 300%Q.
    change (inject_Z 4) with 4%Q.
    unfold period_end. destruct (last_period <? 5) eqn:E; [|lra].
    apply Z.ltb_lt in E. assert (last_period = 4) as -> by lia.
    vm_compute. reflexivity. }
  assert (Hb : (eventClock e <= inject_Z (2880 + 300 * (last_period - 4)))%Q).
  { rewrite <- Hend. now apply Qle_trans with (period_end p). }
  unfold game_duration_of. destruct (Qle_bool (eventClock e) 2880).
  - change (py_int 2880) with 2880. lia.
  - now apply py_int_le_bound.
Qed.

Lemma X19_game_duration_of_periods_witness :
  clock_max (rows quiet_game) = Some (2880 # 1)%Q /\
  2880 <= game_duration_of (2880 # 1) <= 2880 + 300 * (4 - 4).
Proof.
  split; [reflexivity|].
  apply (X19_game_duration_of_periods (rows quiet_game) 4 (2880 # 1)); [lia| |reflexivity].
  intros e [<-|[<-|[<-|[]]]].
  - exists 1, 10%Q, 20%Q. split; [lia|]. split; [|vm_compute; reflexivity].
    unfold clock_reading, period_minutes. simpl. lra.
  - exists 1, 5%Q, 20%Q. split; [lia|]. split; [|vm_compute; reflexivity].
    unfold clock_reading, period_minutes. simpl. lra.
  - exists 4, 0%Q, 0%Q. split; [lia|]. split; [|vm_compute; reflexivity].
    unfold clock_reading, period_minutes. simpl. lra.
Defined.

(** * Retrying a request *)

Lemma retry_loop_all_fail {A : Type} (func : nat -> call_result A) (retries : Z) (n : nat) :
  forall (fuel : nat) (attempts : Z) (log : RetryLog),
    Z.to_nat (retries - attempts) = n -> (n < fuel)%nat ->
    (forall j, (j < n)%nat -> func (calls log + j)%nat = RaisedRequestException) ->
    retry_loop fuel func retries attempts log =
    (Returns None, mkRetryLog (calls log + n) (slept log + 30 * Z.of_nat n)).
Proof.
  induction n as [|n IH]; intros fuel attempts [c sl] Hn Hfuel Hfail;
    (destruct fuel as [|fuel]; [lia|]); simpl.
  - assert (E : (attempts <? retries) = false) by (apply Z.ltb_ge; lia).
    rewrite E. f_equal. f_equal; [lia|lia].
  - assert (E : (attempts <? retries) = true) by (apply Z.ltb_lt; lia).
    rewrite E. pose proof (Hfail O ltac:(lia)) as H0. simpl in H0.
    rewrite Nat.add_0_r in H0. rewrite H0.
    rewrite (IH fuel (attempts + 1) (mkRetryLog (S c) (sl + 30))); [| lia | lia |].
    + cbn [calls slept]. f_equal. f_equal; lia.
    + intros j Hj. cbn [calls]. specialize (Hfail (S j) ltac:(lia)).
      cbn [calls] in Hfail. now rewrite Nat.add_succ_r in Hfail.
Qed.

Lemma retry_loop_first_answer {A : Type} (func : nat -> call_result A) (retries : Z)
  (k : nat) :
  forall (fuel : nat) (attempts : Z) (log : RetryLog),
    Z.of_nat k < retries - attempts -> (k < fuel)%nat ->
    (forall j, (j < k)%nat -> func (calls log + j)%nat = RaisedRequestException) ->
    func (calls log + k)%nat <> RaisedRequestException ->
    retry_loop fuel func retries attempts log =
    (match func (calls log + k)%nat with
     | Returned v => Returns (Some v)
     | _ => Raises
     end,
     mkRetryLog (S (calls log + k)) (slept log + 30 * Z.of_nat k)).
Proof.
  induction k as [|k IH]; intros fuel attempts [c sl] Hk Hfuel Hfail Hans;
    (destruct fuel as [|fuel]; [lia|]); cbn [retry_loop calls slept] in *;
    (assert (E : (attempts <? retries) = true) by (apply Z.ltb_lt; lia));
    rewrite E.
  - rewrite Nat.add_0_r in *. change (Z.of_nat 0) with 0. rewrite Z.mul_0_r, Z.add_0_r.
    destruct (func c) as [v| |]; [reflexivity|congruence|reflexivity].
  - pose proof (Hfail O ltac:(lia)) as H0.
    rewrite Nat.add_0_r in H0. rewrite H0.
    rewrite Nat.add_succ_r in Hans |- *.
    rewrite (IH fuel (attempts + 1) (mkRetryLog (S c) (sl + 30))); cbn [calls slept].
    + cbn [Nat.add]. f_equal. f_equal. lia.
    + lia.
    + lia.
    + intros j Hj. specialize (Hfail (S j) ltac:(lia)).
      now rewrite Nat.add_succ_r in Hfail.
    + exact Hans.
Qed.

(** X20 (pbp_data.py, retry, lines 13-38). The wrapper calls the wrapped
    function at most [retries] times.  When every one of these calls raises
    a request exception, the wrapper raises nothing: it returns [None],
    after [retries] calls and 30 seconds of sleep per call, the last call
    included (with [retries <= 0], without a call).  When the first call
    that does not raise a request exception is call number [k], with
    [k < retries], the wrapper ends there after [k] sleeps: it returns that
    call's value, or lets that call's other exception through. *)
Theorem X20_retry_outcomes {A : Type} (func : nat -> call_result A) (retries : Z)
  (fuel : nat) :
  (Z.to_nat retries < fuel)%nat ->
  ((forall j, (j < Z.to_nat retries)%nat -> func j = RaisedRequestException) ->
   retryWrapper fuel func retries =
   (Returns None, mkRetryLog (Z.to_nat retries) (30 * Z.max 0 retries))) /\
  (forall k, Z.of_nat k < retries ->
     (forall j, (j < k)%nat -> func j = RaisedRequestException) ->
     func k <> RaisedRequestException ->
     retryWrapper fuel func retries =
     (match func k with
      | Returned v => Returns (Some v)
      | _ => Raises
      end,
      mkRetryLog (S k) (30 * Z.of_nat k))).
Proof.
  intros Hfuel. unfold retryWrapper. split.
  - intros Hfail.
    rewrite (retry_loop_all_fail func retries (Z.to_nat retries));
      [cbn [calls slept]; f_equal; f_equal; lia | f_equal; lia | exact Hfuel
      | exact Hfail].
  - intros k Hk Hfail Hans.
    rewrite (retry_loop_first_answer func retries k);
      [reflexivity | lia | lia | exact Hfail | exact Hans].
Qed.

Lemma X20_retry_outcomes_witness :
  retryWrapper 4 (fun _ : nat => @RaisedRequestException Z) 3 =
    (Returns None, mkRetryLog 3 90) /\
  retryWrapper 4 (fun k : nat => if (k <? 2)%nat then RaisedRequestException
                                 else Returned 7) 3 =
    (Returns (Some 7), mkRetryLog 3 60).
Proof.
  split.
  - apply (proj1 (X20_retry_outcomes (fun _ : nat => @RaisedRequestException Z) 3 4
                    ltac:(simpl; lia))).
    intros j _. reflexivity.
  - apply (proj2 (X20_retry_outcomes
                    (fun k : nat => if (k <? 2)%nat then RaisedRequestException
                                    else Returned 7) 3 4 ltac:(simpl; lia)) 2%nat).
    + lia.
    + intros j Hj. destruct j as [|[|j]]; [reflexivity|reflexivity|lia].
    + discriminate.
Defined.
